(** * Graph-Link-Types: the link manager and its update loop

    A shallow embedding of [src/linkManager.ts] (class [LinkManager], with
    the types of [src/types.ts]) and of the update loop of [src/main.ts]
    ([updatePositions]).

    What is modelled, and how:
    - [linksMap] is a JavaScript [Map] that is iterated with [forEach]: an
      insertion-ordered association list with unique keys;
    - [tagColors] is a JavaScript [Map] that is only looked up, set and
      deleted: a [gmap];
    - PIXI display objects ([Text], [Graphics]) are mutable objects shared
      between a [GltLink] or a [GltLegendGraphic] and the stage: they live
      in a heap, and the stage ([renderer.px.stage.children]) is a list of
      references; a container holds a child at most once, and the text of a
      [Text] survives [destroy()];
    - the Dataview lookup [getMetadataKeyForLink] is the classification
      resolver: an argument of every operation that consults it;
    - a renderer with its stage is always there, and a link always has its
      two endpoints; the opacity of an endpoint's label may be missing.

    Coordinates, scales, weights, fonts and line widths are IEEE doubles that
    only place and style the elements; they are not part of the state below.
    Opacities are kept: the code only assigns constants to them, tests them
    for zero and takes the maximum of two, all of which is exact. The stroke
    colour of a [Graphics] is kept too: the line widths the code passes to
    [lineStyle] are positive, so the colour stored is the one passed, or the
    default 0 of the parameter when none is passed. *)

From Stdlib Require Import ZArith QArith Lia Ascii String.
From stdpp Require Import base strings gmap list fin_maps.

Open Scope string_scope.
Open Scope Z_scope.

(** ** Data model ([src/types.ts]) *)

Module LinkPair.
Inductive t := None | First | Second.
End LinkPair.

#[global] Instance LinkPair_eq_dec : EqDecision LinkPair.t.
Proof. solve_decision. Defined.

Module Node.
(** [text: { alpha: number }]; a missing [alpha] is [None]. *)
Record text_t := mkText { alpha : option Q }.
(** An endpoint of a link; a missing [text] is [None]. *)
Record t := mk { id : string; text : option text_t }.
End Node.

Record ObsidianLink := mkLink { source : Node.t; target : Node.t }.

(** References to PIXI display objects. *)
Abbreviation ref := nat.

(** A [Text] with its text, or a [Graphics] with [_lineStyle.color], which is
    always a number. *)
Inductive PixiKind :=
| PixiText (text : string)
| PixiGraphics (lineStyle_color : Z).

Record DisplayObject := mkObj {
  kind : PixiKind;
  alpha : Q;
  destroyed : bool }.

Record GltLink := mkGltLink {
  obsidianLink : ObsidianLink;
  pairStatus : LinkPair.t;
  pixiText : option ref;
  pixiGraphics : option ref }.

Record GltLegendGraphic := mkLegend {
  color : option Z;
  legendText : ref;
  legendGraphics : ref;
  nUsing : Z }.

(** ** JavaScript [Map] with insertion order *)

Section JsMap.
Context {V : Type}.

Fixpoint Map_get (k : string) (m : list (string * V)) : option V :=
  match m with
  | [] => None
  | (k', v) :: m' => if decide (k = k') then Some v else Map_get k m'
  end.

Definition Map_has (k : string) (m : list (string * V)) : bool :=
  match Map_get k m with Some _ => true | None => false end.

(** [set] keeps the position of a key that is present and appends a new one. *)
Fixpoint Map_set (k : string) (v : V) (m : list (string * V)) : list (string * V) :=
  match m with
  | [] => [(k, v)]
  | (k', v') :: m' =>
      if decide (k = k') then (k, v) :: m' else (k', v') :: Map_set k v m'
  end.

Fixpoint Map_delete (k : string) (m : list (string * V)) : list (string * V) :=
  match m with
  | [] => []
  | (k', v') :: m' =>
      if decide (k = k') then Map_delete k m' else (k', v') :: Map_delete k m'
  end.

Definition Map_keys (m : list (string * V)) : list string := map fst m.

End JsMap.

(** ** The state: the [LinkManager] fields, the stage and the heap *)

Record State := mkState {
  linksMap : list (string * GltLink);
  tagColors : gmap string GltLegendGraphic;
  currentTagColorIndex : Z;
  yOffset : Z;
  children : list ref;
  heap : gmap ref DisplayObject;
  nextRef : ref }.

Definition categoricalColors : list Z :=
  [ 0xF44336; 0x03A9F4; 0xFF9800; 0x9C27B0; 0xCDDC39; 0x3F51B5; 0xFFC107;
    0x00BCD4; 0xE91E63; 0x4CAF50; 0xFF5722; 0x673AB7; 0x9E9E9E; 0x2196F3;
    0x8BC34A; 0x795548; 0x009688; 0x607D8B; 0xFFEB3B; 0x000000 ].

Definition lineHeight : Z := 17.

(** The state built by the constructor, on an empty stage. *)
Definition initial : State :=
  {| linksMap := []; tagColors := ∅; currentTagColorIndex := 0; yOffset := 5;
     children := []; heap := ∅; nextRef := 0%nat |}.

Definition generateKey (sourceId targetId : string) : string :=
  sourceId ++ "-" ++ targetId.

Definition keyOf (l : ObsidianLink) : string :=
  generateKey (Node.id (source l)) (Node.id (target l)).

Definition reverseKeyOf (l : ObsidianLink) : string :=
  generateKey (Node.id (target l)) (Node.id (source l)).

(** ** Field updates *)

Definition with_linksMap (m : list (string * GltLink)) (s : State) : State :=
  {| linksMap := m; tagColors := tagColors s;
     currentTagColorIndex := currentTagColorIndex s; yOffset := yOffset s;
     children := children s; heap := heap s; nextRef := nextRef s |}.

Definition with_tagColors (m : gmap string GltLegendGraphic) (s : State) : State :=
  {| linksMap := linksMap s; tagColors := m;
     currentTagColorIndex := currentTagColorIndex s; yOffset := yOffset s;
     children := children s; heap := heap s; nextRef := nextRef s |}.

Definition with_currentTagColorIndex (i : Z) (s : State) : State :=
  {| linksMap := linksMap s; tagColors := tagColors s;
     currentTagColorIndex := i; yOffset := yOffset s;
     children := children s; heap := heap s; nextRef := nextRef s |}.

Definition with_yOffset (y : Z) (s : State) : State :=
  {| linksMap := linksMap s; tagColors := tagColors s;
     currentTagColorIndex := currentTagColorIndex s; yOffset := y;
     children := children s; heap := heap s; nextRef := nextRef s |}.

Definition with_children (c : list ref) (s : State) : State :=
  {| linksMap := linksMap s; tagColors := tagColors s;
     currentTagColorIndex := currentTagColorIndex s; yOffset := yOffset s;
     children := c; heap := heap s; nextRef := nextRef s |}.

Definition with_heap (h : gmap ref DisplayObject) (s : State) : State :=
  {| linksMap := linksMap s; tagColors := tagColors s;
     currentTagColorIndex := currentTagColorIndex s; yOffset := yOffset s;
     children := children s; heap := h; nextRef := nextRef s |}.

Definition set_pairStatus (p : LinkPair.t) (g : GltLink) : GltLink :=
  {| obsidianLink := obsidianLink g; pairStatus := p;
     pixiText := pixiText g; pixiGraphics := pixiGraphics g |}.

Definition set_nUsing (n : Z) (g : GltLegendGraphic) : GltLegendGraphic :=
  {| color := color g; legendText := legendText g;
     legendGraphics := legendGraphics g; nUsing := n |}.

Definition set_alpha (a : Q) (o : DisplayObject) : DisplayObject :=
  {| kind := kind o; alpha := a; destroyed := destroyed o |}.

Definition set_destroyed (o : DisplayObject) : DisplayObject :=
  {| kind := kind o; alpha := alpha o; destroyed := true |}.

(** ** PIXI: objects and the stage *)

(** [new Text(..)] / [new Graphics()]: a fresh object, opaque, on no stage. *)
Definition new (k : PixiKind) (s : State) : ref * State :=
  (nextRef s,
   {| linksMap := linksMap s; tagColors := tagColors s;
      currentTagColorIndex := currentTagColorIndex s; yOffset := yOffset s;
      children := children s;
      heap := <[nextRef s := {| kind := k; alpha := 1; destroyed := false |}]> (heap s);
      nextRef := S (nextRef s) |}).

(** [stage.children.includes(o)] *)
Definition includes (o : ref) (l : list ref) : bool := bool_decide (o ∈ l).

(** [stage.addChild(o)]; the code only adds objects it has just created. *)
Definition addChild (o : ref) (s : State) : State :=
  with_children (children s ++ [o]) s.

(** [stage.removeChild(o)]; a PIXI container holds a child at most once. *)
Definition removeChild (o : ref) (s : State) : State :=
  with_children (filter (λ c, c ≠ o) (children s)) s.

(** [o.destroy()] *)
Definition destroy (o : ref) (s : State) : State :=
  with_heap (alter set_destroyed o (heap s)) s.

(** [o.text] of a [Text] *)
Definition textOf (o : ref) (s : State) : option string :=
  match heap s !! o with
  | Some {| kind := PixiText t |} => Some t
  | _ => None
  end.

(** [g._lineStyle.color] of a [Graphics] *)
Definition lineColorOf (o : DisplayObject) : option Z :=
  match kind o with
  | PixiGraphics c => Some c
  | PixiText _ => None
  end.

(** The colour [g.lineStyle(width, color)] stores for a positive width: the
    parameter has the default [color = 0x0], so an [undefined] argument is
    stored as 0. *)
Definition lineStyleColor (color : option Z) : Z := default 0 color.

(** [g.lineStyle(width, color)] *)
Definition lineStyle (c : option Z) (o : DisplayObject) : DisplayObject :=
  match kind o with
  | PixiGraphics _ =>
      {| kind := PixiGraphics (lineStyleColor c); alpha := alpha o;
         destroyed := destroyed o |}
  | PixiText _ => o
  end.

(** The remove-if-attached idiom of [removeLink]:
    [if (o && stage.children.includes(o)) { stage.removeChild(o); o.destroy(); }] *)
Definition detach (o : ref) (s : State) : State :=
  if includes o (children s) then destroy o (removeChild o s) else s.

(** ** JavaScript values *)

(** [!x] for a number that may be missing: [undefined] and [0] are falsy. *)
Definition falsy (x : option Q) : bool :=
  match x with
  | Some q => Qeq_bool q 0
  | None => true
  end.

Definition Math_max (a b : Q) : Q := if Qle_bool a b then b else a.

Definition LF : Ascii.ascii := "010"%char.
Definition CR : Ascii.ascii := "013"%char.

(** The padding of the labels of a mirror pair: two line feeds. *)
Definition twoLF : string := String LF (String LF EmptyString).

(** [s.replace(/\r?\n/g, '')]: every line feed, with the carriage return
    before it if there is one, is dropped. *)
Fixpoint stripNewlines (s : string) : string :=
  match s with
  | EmptyString => EmptyString
  | String c rest =>
      if decide (c = LF) then stripNewlines rest
      else if decide (c = CR) then
        match rest with
        | String c' rest' =>
            if decide (c' = LF) then stripNewlines rest'
            else String c (stripNewlines rest)
        | EmptyString => String c EmptyString
        end
      else String c (stripNewlines rest)
  end.

(** The classification resolver, [getMetadataKeyForLink(sourceId, targetId)]. *)
Definition Resolver := string → string → option string.

(** ** [LinkManager]: refreshing ([updateLinkText], [updateLinkGraphics]) *)

(** The guard of [updateLinkText] for the default opacity:
    [!link.source.text || !link.target.text || !link.target.text.alpha
     || !link.source.text.alpha]. *)
Definition alphaMissing (link : ObsidianLink) : bool :=
  match Node.text (source link), Node.text (target link) with
  | Some stext, Some ttext => falsy (Node.alpha ttext) || falsy (Node.alpha stext)
  | _, _ => true
  end.

Definition alphaOf (n : Node.t) : Q :=
  match Node.text n with
  | Some {| Node.alpha := Some a |} => a
  | _ => 0
  end.

(** The opacity [updateLinkText] assigns to an attached label. *)
Definition labelAlpha (link : ObsidianLink) (tagNames : bool) : Q :=
  if tagNames then
    if alphaMissing link then 9 # 10
    else Math_max (alphaOf (source link)) (alphaOf (target link))
  else 0.

Definition updateLinkText (link : ObsidianLink) (tagNames : bool) (s : State) : State :=
  match Map_get (keyOf link) (linksMap s) with
  | None => s
  | Some gltLink =>
      match pixiText gltLink with
      | Some text =>
          if includes text (children s) then
            with_heap (alter (set_alpha (labelAlpha link tagNames)) text (heap s)) s
          else s
      | None => s
      end
  end.

(** [const color = graphics._lineStyle.color; graphics.clear();
     graphics.lineStyle(.., color); graphics.alpha = 0.6;] *)
Definition redraw (o : DisplayObject) : DisplayObject :=
  set_alpha (6 # 10) (lineStyle (lineColorOf o) o).

Definition updateLinkGraphics (link : ObsidianLink) (s : State) : State :=
  match Map_get (keyOf link) (linksMap s) with
  | None => s
  | Some gltLink =>
      match pixiGraphics gltLink with
      | Some graphics =>
          if includes graphics (children s) then
            with_heap (alter redraw graphics (heap s)) s
          else s
      | None => s
      end
  end.

(** ** [LinkManager]: the colour and legend allocator *)

(** [this.categoricalColors[i]]: [undefined] out of range. *)
Definition colorAt (i : Z) : option Z :=
  if i <? 0 then None else categoricalColors !! Z.to_nat i.

(** The allocation in [initializeLinkGraphics] for a link that is not a
    self-loop: the colour of [linkString], with a new legend row when the
    type is not in [tagColors] yet. The source tests [has] and then [get];
    the two agree, so its fallback colour for a failed [get] is never used. *)
Definition acquire (linkString : string) (tagLegend : bool) (s : State)
  : option Z * State :=
  match tagColors s !! linkString with
  | None =>
      let color := colorAt (currentTagColorIndex s) in
      let s := with_currentTagColorIndex
                 (Z.rem (currentTagColorIndex s + 1) (Z.of_nat (length categoricalColors))) s in
      let '(textL, s) := new (PixiText linkString) s in
      let s := addChild textL s in
      let '(graphicsL, s) := new (PixiGraphics (lineStyleColor color)) s in
      let s := addChild graphicsL s in
      let s := with_yOffset (yOffset s + lineHeight) s in
      let s := if tagLegend then s
               else with_heap (alter (set_alpha 0) textL
                                 (alter (set_alpha 0) graphicsL (heap s))) s in
      let newLegendGraphic :=
        {| color := color; legendText := textL; legendGraphics := graphicsL;
           nUsing := 0 |} in
      (color, with_tagColors (<[linkString := newLegendGraphic]> (tagColors s)) s)
  | Some legendGraphic =>
      (color legendGraphic,
       with_tagColors
         (<[linkString := set_nUsing (nUsing legendGraphic + 1) legendGraphic]>
            (tagColors s)) s)
  end.

(** The release in [removeLink] for a truthy [colorKey]. *)
Definition release (colorKey : string) (s : State) : State :=
  match tagColors s !! colorKey with
  | None => s
  | Some legendGraphic =>
      let legendGraphic := set_nUsing (nUsing legendGraphic - 1) legendGraphic in
      let s := with_tagColors (<[colorKey := legendGraphic]> (tagColors s)) s in
      if nUsing legendGraphic <? 1 then
        let s := with_yOffset (yOffset s - lineHeight) s in
        let s := with_currentTagColorIndex (currentTagColorIndex s - 1) s in
        let s := if currentTagColorIndex s <? 0
                 then with_currentTagColorIndex (Z.of_nat (length categoricalColors) - 1) s
                 else s in
        let s := detach (legendText legendGraphic) s in
        let s := detach (legendGraphics legendGraphic) s in
        with_tagColors (delete colorKey (tagColors s)) s
      else s
  end.

(** [let colorKey = gltLink?.pixiText?.text?.replace(/\r?\n/g, '');
     if (colorKey) { .. }]: the release for a label whose text is [text]. *)
Definition releaseText (text : option string) (s : State) : State :=
  match text with
  | Some t =>
      let colorKey := stripNewlines t in
      if decide (colorKey = EmptyString) then s else release colorKey s
  | None => s
  end.

(** ** [LinkManager]: creating the overlay elements *)

Definition initializeLinkText (resolve : Resolver) (link : ObsidianLink)
    (pairStatus : LinkPair.t) (s : State) : option ref * State :=
  match resolve (Node.id (source link)) (Node.id (target link)) with
  | None => (None, s)
  | Some linkString =>
      let linkString :=
        if decide (Node.id (source link) = Node.id (target link)) then EmptyString else linkString in
      let linkString :=
        match pairStatus with
        | LinkPair.First => linkString ++ twoLF
        | LinkPair.Second => twoLF ++ linkString
        | LinkPair.None => linkString
        end in
      let '(text, s) := new (PixiText linkString) s in
      let s := updateLinkText link false s in
      let s := addChild text s in
      (Some text, s)
  end.

(** [const graphics = new Graphics(); graphics.lineStyle(.., color);] is
    [new (PixiGraphics (lineStyleColor color))]. For a self-loop [color] is
    never assigned, so the indicator gets the default stroke colour 0. *)
Definition initializeLinkGraphics (resolve : Resolver) (link : ObsidianLink)
    (tagLegend : bool) (s : State) : option ref * State :=
  match resolve (Node.id (source link)) (Node.id (target link)) with
  | None => (None, s)
  | Some linkString =>
      let '(color, s) :=
        if decide (Node.id (source link) = Node.id (target link)) then (None, s)
        else acquire linkString tagLegend s in
      let '(graphics, s) := new (PixiGraphics (lineStyleColor color)) s in
      let s := addChild graphics s in
      let s := updateLinkGraphics link s in
      (Some graphics, s)
  end.

(** ** [LinkManager]: the authoritative map *)

(** [obLink.source.id !== obLink.target.id && this.linksMap.has(reverseKey)] *)
Definition hasReverse (obLink : ObsidianLink) (m : list (string * GltLink)) : bool :=
  bool_decide (Node.id (source obLink) ≠ Node.id (target obLink))
  && Map_has (reverseKeyOf obLink) m.

Definition addLink (resolve : Resolver) (obLink : ObsidianLink)
    (useTagColors tagLegend : bool) (s : State) : State :=
  let key := keyOf obLink in
  let reverseKey := reverseKeyOf obLink in
  let pairStatus := if hasReverse obLink (linksMap s) then LinkPair.Second else LinkPair.None in
  let '(text, s) := initializeLinkText resolve obLink pairStatus s in
  let '(graphics, s) :=
    if useTagColors then initializeLinkGraphics resolve obLink tagLegend s
    else (None, s) in
  let newLink :=
    {| obsidianLink := obLink; pairStatus := pairStatus;
       pixiText := text; pixiGraphics := graphics |} in
  let s := with_linksMap (Map_set key newLink (linksMap s)) s in
  if hasReverse obLink (linksMap s) then
    match Map_get reverseKey (linksMap s) with
    | Some reverseLink =>
        with_linksMap
          (Map_set reverseKey (set_pairStatus LinkPair.First reverseLink) (linksMap s)) s
    | None => s
    end
  else s.

(** [gltLink?.pixiText] and [gltLink?.pixiGraphics] for [gltLink] that may be
    [undefined]. *)
Definition pixiTextOf (gltLink : option GltLink) : option ref :=
  match gltLink with Some g => pixiText g | None => None end.

Definition pixiGraphicsOf (gltLink : option GltLink) : option ref :=
  match gltLink with Some g => pixiGraphics g | None => None end.

Definition removeLink (link : ObsidianLink) (s : State) : State :=
  let key := keyOf link in
  let reverseKey := reverseKeyOf link in
  let gltLink := Map_get key (linksMap s) in
  let s := match pixiTextOf gltLink with
           | Some text => detach text s
           | None => s
           end in
  let s := match pixiGraphicsOf gltLink with
           | Some graphics => detach graphics s
           | None => s
           end in
  let s := releaseText (match pixiTextOf gltLink with
                        | Some text => textOf text s
                        | None => None
                        end) s in
  let s := with_linksMap (Map_delete key (linksMap s)) s in
  match Map_get reverseKey (linksMap s) with
  | Some reverseLink =>
      if decide (pairStatus reverseLink ≠ LinkPair.None) then
        with_linksMap
          (Map_set reverseKey (set_pairStatus LinkPair.None reverseLink) (linksMap s)) s
      else s
  | None => s
  end.

(** [this.linksMap.forEach(..)] with a callback that only deletes entries or
    replaces their values: the keys present at the start are visited in
    insertion order, and a key deleted before its turn is skipped. *)
Definition forEachLink (f : string → GltLink → State → State) (s : State) : State :=
  fold_left
    (λ s key, match Map_get key (linksMap s) with
              | Some link => f key link s
              | None => s
              end)
    (Map_keys (linksMap s)) s.

Definition removeLinks (currentLinks : list ObsidianLink) (s : State) : State :=
  let currentKeys := map keyOf currentLinks in
  forEachLink
    (λ key link s,
       if bool_decide (key ∈ currentKeys) then s
       else removeLink (obsidianLink link) s)
    s.

Definition getLinkPairStatus (key : string) (s : State) : LinkPair.t :=
  match Map_get key (linksMap s) with
  | Some link => pairStatus link
  | None => LinkPair.None
  end.

Definition destroyMap (s : State) : State :=
  forEachLink (λ _ gltLink s, removeLink (obsidianLink gltLink) s) s.

(** ** The update loop ([src/main.ts]) *)

Module GraphLinkTypesPluginSettings.
Record t := mk { tagColors : bool; tagNames : bool; tagLegend : bool }.
End GraphLinkTypesPluginSettings.

(** The calls [updatePositions] makes into the link manager, in order. *)
Inductive Call :=
| CallRemoveLinks (currentLinks : list ObsidianLink)
| CallAddLink (link : ObsidianLink)
| CallUpdateLinkText (link : ObsidianLink)
| CallUpdateLinkGraphics (link : ObsidianLink).

(** [this.animationFrameId && this.animationFrameId % 10 == 0] *)
Definition isUpdateMapFrame (animationFrameId : option Z) : bool :=
  match animationFrameId with
  | Some n => negb (n =? 0) && (Z.rem n 10 =? 0)
  | None => false
  end.

(** The body of [renderer.links.forEach(..)] for one link. *)
Definition updateLink (resolve : Resolver)
    (settings : GraphLinkTypesPluginSettings.t) (updateMap : bool)
    (acc : State * list Call) (link : ObsidianLink) : State * list Call :=
  let '(s, calls) := acc in
  let '(s, calls) :=
    if updateMap && negb (Map_has (keyOf link) (linksMap s)) then
      (addLink resolve link
         (GraphLinkTypesPluginSettings.tagColors settings)
         (GraphLinkTypesPluginSettings.tagLegend settings) s,
       (calls ++ [CallAddLink link])%list)
    else (s, calls) in
  let '(s, calls) :=
    (updateLinkText link (GraphLinkTypesPluginSettings.tagNames settings) s,
     (calls ++ [CallUpdateLinkText link])%list) in
  if GraphLinkTypesPluginSettings.tagColors settings then
    (updateLinkGraphics link s, (calls ++ [CallUpdateLinkGraphics link])%list)
  else (s, calls).

(** One tick with a renderer whose live links are [links]; the result is the
    state and the calls made. *)
Definition updatePositions (resolve : Resolver)
    (settings : GraphLinkTypesPluginSettings.t) (animationFrameId : option Z)
    (links : list ObsidianLink) (s : State) : State * list Call :=
  let updateMap := isUpdateMapFrame animationFrameId in
  let acc := if updateMap then (removeLinks links s, [CallRemoveLinks links])
             else (s, []) in
  fold_left (updateLink resolve settings updateMap) links acc.

(** [startUpdateLoop] with a renderer: every overlay is torn down. *)
Definition startUpdateLoop (s : State) : State := destroyMap s.

(** ** The Dataview lookup ([getMetadataKeyForLink]) *)

(** The values of the fields of a Dataview page, as far as the lookup tells
    them apart: [JsOther] stands for numbers, booleans and the like. An
    object is the list of its properties. *)
#[warnings="-register-all"]
Inductive JsValue :=
| JsNull
| JsUndefined
| JsString (s : string)
| JsOther
| JsObject (props : list (string * JsValue))
| JsArray (items : list JsValue).

Module DataviewLinkType.
Inductive t := WikiLink | MarkdownLink | String | Array | Other.
End DataviewLinkType.

#[global] Instance DataviewLinkType_eq_dec : EqDecision DataviewLinkType.t.
Proof. solve_decision. Defined.

(** [hay.includes(needle)] on strings *)
Fixpoint String_includes (needle hay : string) : bool :=
  String.prefix needle hay
  || match hay with
     | EmptyString => false
     | String _ rest => String_includes needle rest
     end.

Definition determineDataviewLinkType (value : JsValue) : DataviewLinkType.t :=
  match value with
  | JsObject props =>
      if Map_has "path" props then DataviewLinkType.WikiLink
      else DataviewLinkType.Other
  | JsString s =>
      if String_includes "](" s then DataviewLinkType.MarkdownLink
      else DataviewLinkType.String
  | JsArray _ => DataviewLinkType.Array
  | _ => DataviewLinkType.Other
  end.

(** [value.path === targetId] *)
Definition pathIs (targetId : string) (value : JsValue) : bool :=
  match value with
  | JsObject props =>
      match Map_get "path" props with
      | Some (JsString path) => bool_decide (path = targetId)
      | _ => false
      end
  | _ => false
  end.

(** [extractLinks(markdownLink).links] of the library
    markdown-link-extractor is an argument. *)
Definition extractPathFromMarkdownLink (extractLinks : string → list string)
    (markdownLink : string) : string :=
  match extractLinks markdownLink with
  | link :: _ => link
  | [] => EmptyString
  end.

(** One item of an array field: a wiki link or a markdown link to
    [targetId]. *)
Definition itemMatches (extractLinks : string → list string) (targetId : string)
    (item : JsValue) : bool :=
  (bool_decide (determineDataviewLinkType item = DataviewLinkType.WikiLink)
   && pathIs targetId item)
  || match item with
     | JsString s =>
         bool_decide (determineDataviewLinkType item = DataviewLinkType.MarkdownLink)
         && bool_decide (extractPathFromMarkdownLink extractLinks s = targetId)
     | _ => false
     end.

(** The [switch] on the type of a field value: does the field make the
    lookup return its key? *)
Definition fieldMatches (extractLinks : string → list string) (targetId : string)
    (value : JsValue) : bool :=
  match determineDataviewLinkType value with
  | DataviewLinkType.WikiLink => pathIs targetId value
  | DataviewLinkType.MarkdownLink =>
      match value with
      | JsString s =>
          bool_decide (extractPathFromMarkdownLink extractLinks s = targetId)
      | _ => false
      end
  | DataviewLinkType.Array =>
      match value with
      | JsArray items => existsb (itemMatches extractLinks targetId) items
      | _ => false
      end
  | _ => false
  end.

(** [value === null || value === undefined || value === ''] *)
Definition isEmptyValue (value : JsValue) : bool :=
  match value with
  | JsNull | JsUndefined => true
  | JsString s => bool_decide (s = EmptyString)
  | _ => false
  end.

(** The loop over [Object.entries(sourcePage)]. *)
Fixpoint searchEntries (extractLinks : string → list string) (targetId : string)
    (entries : list (string * JsValue)) : option string :=
  match entries with
  | [] => None
  | (key, value) :: rest =>
      if isEmptyValue value then searchEntries extractLinks targetId rest
      else if fieldMatches extractLinks targetId value then Some key
      else searchEntries extractLinks targetId rest
  end.

(** [api.page(id)]: the fields of the page in the order of [Object.entries],
    or nothing. *)
Definition DataviewApi := string → option (list (string * JsValue)).

Definition getMetadataKeyForLink (api : DataviewApi)
    (extractLinks : string → list string) : Resolver :=
  λ sourceId targetId,
    match api sourceId with
    | None => None
    | Some sourcePage => searchEntries extractLinks targetId sourcePage
    end.

(** ** The colour of the text ([getComputedColorFromClass]) *)

(** [colorValue] is the trimmed value of the CSS variable and [themeDark] is
    [document.body.classList.contains('theme-dark')]. *)
Definition getComputedColorFromClass (themeDark : bool) (colorValue : string) : string :=
  if String.prefix "hsl" colorValue then
    if themeDark then "#b3b3b3" else "#5c5c5c"
  else colorValue.

(** ** Finding the renderer ([src/main.ts]) *)

(** What [isObsidianRenderer] looks at in [leaf.view.renderer]. A missing or
    NaN pan is [None]. *)
Record StageCandidate := mkStageCandidate {
  addChildIsFunction : bool;
  removeChildIsFunction : bool }.

Record PxCandidate := mkPxCandidate { cand_stage : option StageCandidate }.

Record RendererCandidate := mkRendererCandidate {
  cand_px : option PxCandidate;
  cand_panX : option Q;
  cand_panY : option Q;
  cand_linksIsArray : bool }.

Definition isObsidianRenderer (renderer : option RendererCandidate) : bool :=
  match renderer with
  | None => false
  | Some r =>
      match cand_px r with
      | None => false
      | Some px =>
          match cand_stage px with
          | None => false
          | Some stage =>
              negb (falsy (cand_panX r))
              && negb (falsy (cand_panY r))
              && addChildIsFunction stage
              && removeChildIsFunction stage
              && cand_linksIsArray r
          end
      end
  end.

(** The loop [for (const leaf of graphLeaves)] of [findRenderer]. *)
Fixpoint firstRenderer (leaves : list (option RendererCandidate))
  : option RendererCandidate :=
  match leaves with
  | [] => None
  | renderer :: rest =>
      if isObsidianRenderer renderer then renderer else firstRenderer rest
  end.

(** [graphLeaves] are the leaves of type 'graph', [localgraphLeaves] those of
    type 'localgraph', each with its [view.renderer]. *)
Definition findRenderer (graphLeaves localgraphLeaves : list (option RendererCandidate))
  : option RendererCandidate :=
  match firstRenderer graphLeaves with
  | Some renderer => Some renderer
  | None => firstRenderer localgraphLeaves
  end.

(** ** Sequences of operations and the properties of states *)

Inductive Op :=
| OpAddLink (resolve : Resolver) (link : ObsidianLink) (useTagColors tagLegend : bool)
| OpRemoveLink (link : ObsidianLink)
| OpRemoveLinks (currentLinks : list ObsidianLink)
| OpDestroyMap
| OpUpdateLinkText (link : ObsidianLink) (tagNames : bool)
| OpUpdateLinkGraphics (link : ObsidianLink).

Definition run (s : State) (op : Op) : State :=
  match op with
  | OpAddLink resolve link useTagColors tagLegend =>
      addLink resolve link useTagColors tagLegend s
  | OpRemoveLink link => removeLink link s
  | OpRemoveLinks currentLinks => removeLinks currentLinks s
  | OpDestroyMap => destroyMap s
  | OpUpdateLinkText link tagNames => updateLinkText link tagNames s
  | OpUpdateLinkGraphics link => updateLinkGraphics link s
  end.

Definition runAll (ops : list Op) (s : State) : State := fold_left run ops s.

Definition reachable (s : State) : Prop := ∃ ops, runAll ops initial = s.

(** Every entry is stored under the key of its own link. *)
Definition keysConsistent (s : State) : Prop :=
  ∀ k g, Map_get k (linksMap s) = Some g → keyOf (obsidianLink g) = k.

(** An entry marked [First] or [Second] has its mirror tracked. *)
Definition mirrorsTracked (s : State) : Prop :=
  ∀ k g, Map_get k (linksMap s) = Some g →
         pairStatus g ≠ LinkPair.None →
         Map_has (reverseKeyOf (obsidianLink g)) (linksMap s) = true.

(** The tracked keys whose entry has pair status [p]. *)
Definition keysWithStatus (p : LinkPair.t) (s : State) : list string :=
  Map_keys (filter (λ kg, pairStatus kg.2 = p) (linksMap s)).

(** The display objects owned by an entry. *)
Definition ownedBy (g : GltLink) (o : ref) : Prop :=
  pixiText g = Some o ∨ pixiGraphics g = Some o.

(** The legend state: the legend map, the palette cursor, the legend offset. *)
Definition legendState (s : State) : gmap string GltLegendGraphic * Z * Z :=
  (tagColors s, currentTagColorIndex s, yOffset s).

(** The palette cursor after the roll-back of a reclamation. *)
Definition rollBack (i : Z) : Z := if i - 1 <? 0 then 19 else i - 1.

(** The palette cursor is an index of the palette. *)
Definition cursorInPalette (s : State) : Prop :=
  0 ≤ currentTagColorIndex s < Z.of_nat (length categoricalColors).

(** [n] acquisitions of one label, then [n] releases of a label element
    whose text is that label. *)
Fixpoint acquireN (n : nat) (label : string) (tagLegend : bool) (s : State) : State :=
  match n with
  | O => s
  | S n => acquireN n label tagLegend (acquire label tagLegend s).2
  end.

Fixpoint releaseN (n : nat) (label : string) (s : State) : State :=
  match n with
  | O => s
  | S n => releaseN n label (releaseText (Some label) s)
  end.

(** The kind (with its text or stroke colour) of the object at a reference. *)
Definition kindAt (o : ref) (s : State) : option PixiKind :=
  kind <$> heap s !! o.

(** The text [initializeLinkText] gives a label: empty for a self-loop, and
    padded with two line feeds for an edge of a mirror pair. *)
Definition labelText (link : ObsidianLink) (p : LinkPair.t) (linkString : string) : string :=
  let linkString :=
    if decide (Node.id (source link) = Node.id (target link)) then EmptyString else linkString in
  match p with
  | LinkPair.First => linkString ++ twoLF
  | LinkPair.Second => twoLF ++ linkString
  | LinkPair.None => linkString
  end.

(** Calls of the loop: structural ones and refreshing ones. *)
Definition isRefresh (c : Call) : bool :=
  match c with
  | CallUpdateLinkText _ | CallUpdateLinkGraphics _ => true
  | _ => false
  end.

Definition isStructural (c : Call) : bool := negb (isRefresh c).

Definition refreshedKey (c : Call) : option string :=
  match c with
  | CallUpdateLinkText l | CallUpdateLinkGraphics l => Some (keyOf l)
  | _ => None
  end.

(** The ordering the specification asks of a tick: no structural call after
    a refreshing call. *)
Definition structuralBeforeRefresh (calls : list Call) : Prop :=
  ∀ i j c d, calls !! i = Some c → calls !! j = Some d →
             isRefresh c = true → isStructural d = true → (j < i)%nat.

(** The ordering a tick has: the call of [addLink] for an edge comes before
    every refreshing call for the key of that edge. *)
Definition addBeforeOwnRefresh (calls : list Call) : Prop :=
  ∀ i j l c, calls !! i = Some (CallAddLink l) → calls !! j = Some c →
             refreshedKey c = Some (keyOf l) → (i < j)%nat.

Definition isRemoveLinks (c : Call) : bool :=
  match c with CallRemoveLinks _ => true | _ => false end.

(** Every key refreshed so far is tracked. *)
Definition refreshedTracked (s : State) (calls : list Call) : Prop :=
  ∀ c k, c ∈ calls → refreshedKey c = Some k → Map_has k (linksMap s) = true.

(** One turn of the [forEach] of [removeLinks] and [destroyMap]: the entry
    under [key], if still present and not skipped, is removed. *)
Definition visit (skip : string → bool) (s : State) (key : string) : State :=
  match Map_get key (linksMap s) with
  | Some link => if skip key then s else removeLink (obsidianLink link) s
  | None => s
  end.

(** Two entries for the same link with the same overlay elements. *)
Definition sameEntry (g g' : GltLink) : Prop :=
  obsidianLink g = obsidianLink g' ∧ pixiText g = pixiText g'
  ∧ pixiGraphics g = pixiGraphics g'.

(** Ids without the separator of [generateKey]. *)
Definition dashFree (id : string) : Prop := "-"%char ∉ list_ascii_of_string id.

Definition linkDashFree (l : ObsidianLink) : Prop :=
  dashFree (Node.id (source l)) ∧ dashFree (Node.id (target l)).

Definition opDashFree (op : Op) : Prop :=
  match op with
  | OpAddLink _ link _ _ | OpRemoveLink link => linkDashFree link
  | _ => True
  end.

Definition entriesDashFree (s : State) : Prop :=
  ∀ k g, Map_get k (linksMap s) = Some g → linkDashFree (obsidianLink g).

(** The invariant of the states reached with ids that have no separator. *)
Definition pairInvariant (s : State) : Prop :=
  keysConsistent s ∧ entriesDashFree s ∧ mirrorsTracked s.

(** What the lookup looks for in a field: a wiki link (an object whose
    [path] is the target), a markdown link (a string with "](" whose first
    extracted link is the target), or an array with such an item. *)
Definition itemLinksTo (extractLinks : string → list string) (targetId : string)
    (item : JsValue) : Prop :=
  (∃ props, item = JsObject props
            ∧ Map_get "path" props = Some (JsString targetId))
  ∨ (∃ str, item = JsString str ∧ String_includes "](" str = true
            ∧ extractPathFromMarkdownLink extractLinks str = targetId).

Definition valueLinksTo (extractLinks : string → list string) (targetId : string)
    (value : JsValue) : Prop :=
  itemLinksTo extractLinks targetId value
  ∨ ∃ items item, value = JsArray items ∧ item ∈ items
                  ∧ itemLinksTo extractLinks targetId item.

(** Fields that hold no link at all: plain text, numbers, objects without
    [path], empty values. *)
Definition plainValue (value : JsValue) : Prop :=
  determineDataviewLinkType value = DataviewLinkType.String
  ∨ determineDataviewLinkType value = DataviewLinkType.Other.

(** The bookkeeping of the legend: the offset and the cursor follow the
    number of legend rows. *)
Definition legendBalanced (s : State) : Prop :=
  yOffset s = 5 + lineHeight * Z.of_nat (size (tagColors s))
  ∧ currentTagColorIndex s = Z.of_nat (size (tagColors s)) mod 20.

(** Every object on the stage was created before the next reference. *)
Definition stageFresh (s : State) : Prop :=
  ∀ o, o ∈ children s → (o < nextRef s)%nat.

(** An object that exists and on which [destroy] was not called. *)
Definition aliveAt (o : ref) (s : State) : Prop :=
  ∃ d, heap s !! o = Some d ∧ destroyed d = false.

(** No destroyed object is on the stage. *)
Definition stageAlive (s : State) : Prop :=
  ∀ o, o ∈ children s → aliveAt o s.

(** A step that destroys nothing and puts only live objects on the stage. *)
Definition grows (s s' : State) : Prop :=
  (∀ o, aliveAt o s → aliveAt o s')
  ∧ (∀ o, o ∈ children s' → o ∈ children s ∨ aliveAt o s').

(** [s'] has [n] more objects than [s], all of them appended to the stage
    in the order of their creation. *)
Definition appended (n : nat) (s s' : State) : Prop :=
  nextRef s' = (nextRef s + n)%nat
  ∧ children s' = (children s ++ seq (nextRef s) n)%list.

(** The number of display objects an [addLink] is expected to create: the
    label; in colour mode also the indicator and, for a type without a
    legend row, the two elements of the row. *)
Definition addLinkObjects (resolve : Resolver) (link : ObsidianLink)
    (useTagColors : bool) (s : State) : nat :=
  match resolve (Node.id (source link)) (Node.id (target link)) with
  | None => 0
  | Some label =>
      if useTagColors then
        if decide (Node.id (source link) = Node.id (target link)) then 2
        else match tagColors s !! label with
             | Some _ => 2
             | None => 4
             end
      else 1
  end.

(** The heap [h'] holds the objects of [h], changed at most in their
    opacities: no object is created or lost, and each one keeps its text or
    stroke colour and its destroyed flag. *)
Definition sameButAlpha (h h' : gmap ref DisplayObject) : Prop :=
  ∀ o, set_alpha 0 <$> h' !! o = set_alpha 0 <$> h !! o.

(** ** Example data *)

Definition node (i : string) (a : option Q) : Node.t :=
  Node.mk i (Some (Node.mkText a)).

Definition edge (a b : string) : ObsidianLink :=
  mkLink (node a (Some 1%Q)) (node b (Some 1%Q)).

Definition resolveFile : Resolver := λ _ _, Some "file".
Definition resolveParent : Resolver := λ _ _, Some "parent".
Definition resolveEmpty : Resolver := λ _ _, Some EmptyString.

Definition allOn : GraphLinkTypesPluginSettings.t :=
  GraphLinkTypesPluginSettings.mk true true true.

(** A page with a text field, a wiki link to B and an array with a markdown
    link to C; the link extractor answers C for that markdown link. *)
Definition pageA : list (string * JsValue) :=
  [ ("title", JsString "B");
    ("parent", JsObject [("path", JsString "B")]);
    ("related", JsArray [JsString "see"; JsString "[c](C)"]) ].

Definition apiA : DataviewApi :=
  λ id, if decide (id = "A") then Some pageA else None.

Definition extractC : string → list string :=
  λ str, if decide (str = "[c](C)") then ["C"] else [].

(** The resolver of the example page. *)
Definition apiA_resolver : Resolver := getMetadataKeyForLink apiA extractC.

(** A renderer that passes [isObsidianRenderer], and the same one with the
    view not panned horizontally. *)
Definition goodRenderer : RendererCandidate :=
  mkRendererCandidate
    (Some (mkPxCandidate (Some (mkStageCandidate true true))))
    (Some (3 # 1)%Q) (Some (4 # 1)%Q) true.

Definition unpannedRenderer : RendererCandidate :=
  mkRendererCandidate
    (Some (mkPxCandidate (Some (mkStageCandidate true true))))
    (Some 0%Q) (Some (4 # 1)%Q) true.

(** The edge A -> B whose source label is fully transparent and whose target
    label is half transparent. *)
Definition fadedEdge : ObsidianLink :=
  mkLink (node "A" (Some 0%Q)) (node "B" (Some (1 # 2)%Q)).

(** * Lemmas *)

(** ** The insertion-ordered map *)

Section JsMapLemmas.
Context {V : Type}.
Implicit Types (m : list (string * V)) (k : string) (v : V).

Lemma Map_get_set_eq k v m : Map_get k (Map_set k v m) = Some v.
Proof.
  induction m as [|[k' v'] m IH]; simpl.
  - by rewrite decide_True.
  - destruct (decide (k = k')); simpl.
    + by rewrite decide_True.
    + by rewrite decide_False.
Qed.

Lemma Map_get_set_ne k k' v m : k ≠ k' → Map_get k' (Map_set k v m) = Map_get k' m.
Proof.
  intros Hne. induction m as [|[k0 v0] m IH]; simpl.
  - by rewrite decide_False.
  - destruct (decide (k = k0)) as [->|]; simpl.
    + by rewrite !decide_False.
    + by rewrite IH.
Qed.

Lemma Map_get_delete_eq k m : Map_get k (Map_delete k m) = None.
Proof.
  induction m as [|[k' v'] m IH]; simpl; [done|].
  destruct (decide (k = k')); simpl; [done|]. by rewrite decide_False.
Qed.

Lemma Map_get_delete_ne k k' m : k ≠ k' → Map_get k' (Map_delete k m) = Map_get k' m.
Proof.
  intros Hne. induction m as [|[k0 v0] m IH]; simpl; [done|].
  destruct (decide (k = k0)) as [->|]; simpl.
  - by rewrite IH, decide_False.
  - by rewrite IH.
Qed.

Lemma Map_get_keys k m : is_Some (Map_get k m) ↔ k ∈ Map_keys m.
Proof.
  unfold Map_keys. induction m as [|[k' v'] m IH]; simpl.
  - split; [by intros [? ?]|by intros ?%elem_of_nil].
  - rewrite elem_of_cons. destruct (decide (k = k')) as [->|Hne].
    + split; [by left|by eexists].
    + rewrite IH. split; [by right|]. by intros [?|?].
Qed.

Lemma Map_has_keys k m : Map_has k m = true ↔ k ∈ Map_keys m.
Proof.
  rewrite <- Map_get_keys. unfold Map_has.
  destruct (Map_get k m); split; intros H; try done; by destruct H.
Qed.

Lemma Map_has_false k m : Map_has k m = false ↔ Map_get k m = None.
Proof. unfold Map_has. by destruct (Map_get k m). Qed.

Lemma Map_keys_set k k' v m :
  k' ∈ Map_keys (Map_set k v m) ↔ k' = k ∨ k' ∈ Map_keys m.
Proof.
  rewrite <- !Map_get_keys. destruct (decide (k = k')) as [->|Hne].
  - rewrite Map_get_set_eq. split; [by left|by eexists].
  - rewrite Map_get_set_ne by done. split; [by right|]. by intros [?|?].
Qed.

Lemma Map_keys_delete k m :
  Map_keys (Map_delete k m) = filter (λ k', k' ≠ k) (Map_keys m).
Proof.
  unfold Map_keys. induction m as [|[k' v'] m IH]; simpl; [done|].
  destruct (decide (k = k')) as [->|Hne].
  - rewrite filter_cons_False by (simpl; intros ?; done). apply IH.
  - rewrite filter_cons_True by (simpl; intros ?; done). simpl. by rewrite IH.
Qed.

Lemma Map_delete_absent k m : Map_get k m = None → Map_delete k m = m.
Proof.
  induction m as [|[k' v'] m IH]; simpl; [done|].
  destruct (decide (k = k')); [done|]. intros ?. by rewrite IH.
Qed.

End JsMapLemmas.

(** ** What each operation leaves alone *)

Lemma updateLinkText_frame link tagNames s :
  ∃ h, updateLinkText link tagNames s = with_heap h s.
Proof.
  unfold updateLinkText. repeat case_match; eauto; exists (heap s); by destruct s.
Qed.

Lemma updateLinkGraphics_frame link s :
  ∃ h, updateLinkGraphics link s = with_heap h s.
Proof.
  unfold updateLinkGraphics. repeat case_match; eauto; exists (heap s); by destruct s.
Qed.

Lemma filter_ne_absent (o : ref) (l : list ref) :
  o ∉ l → filter (λ c, c ≠ o) l = l.
Proof.
  induction l as [|c l IH]; [done|]. intros Hnin.
  apply not_elem_of_cons in Hnin as [Hne Hnin].
  rewrite filter_cons_True by done. by rewrite IH.
Qed.

Lemma detach_children o s :
  children (detach o s) = filter (λ c, c ≠ o) (children s).
Proof.
  unfold detach, includes. case_bool_decide as Hin; simpl; [done|].
  by rewrite filter_ne_absent.
Qed.

Lemma detach_frame o s :
  ∃ h, detach o s = with_heap h (with_children (filter (λ c, c ≠ o) (children s)) s).
Proof.
  unfold detach, includes. case_bool_decide as Hin.
  - eexists. reflexivity.
  - exists (heap s). rewrite filter_ne_absent by done. by destruct s.
Qed.

Lemma release_linksMap colorKey s : linksMap (release colorKey s) = linksMap s.
Proof.
  unfold release. destruct (tagColors s !! colorKey) as [lg|]; [|done].
  simpl. destruct (_ <? 1); [|done]. simpl.
  repeat match goal with
         | |- context [detach ?o ?s] =>
             let h := fresh "h" in
             destruct (detach_frame o s) as [h ->]; simpl
         end.
  by destruct (_ <? 0).
Qed.

Lemma releaseText_linksMap text s : linksMap (releaseText text s) = linksMap s.
Proof.
  unfold releaseText. destruct text; [|done]. case_decide; [done|].
  apply release_linksMap.
Qed.

Lemma acquire_linksMap label tagLegend s :
  linksMap (acquire label tagLegend s).2 = linksMap s.
Proof.
  unfold acquire. destruct (tagColors s !! label); [done|].
  simpl. by destruct tagLegend.
Qed.

Lemma initializeLinkText_linksMap resolve link p s :
  linksMap (initializeLinkText resolve link p s).2 = linksMap s.
Proof.
  unfold initializeLinkText. destruct (resolve _ _); [|done]. simpl.
  match goal with
  | |- context [updateLinkText ?l ?b ?s] =>
      destruct (updateLinkText_frame l b s) as [h ->]
  end. done.
Qed.

Lemma initializeLinkGraphics_linksMap resolve link tagLegend s :
  linksMap (initializeLinkGraphics resolve link tagLegend s).2 = linksMap s.
Proof.
  unfold initializeLinkGraphics. destruct (resolve _ _) as [str|]; [|done].
  pose proof (acquire_linksMap str tagLegend s) as Ha.
  destruct (decide _); [|destruct (acquire str tagLegend s) as [c s']];
    simpl in *;
    match goal with
    | |- context [updateLinkGraphics ?l ?s] =>
        destruct (updateLinkGraphics_frame l s) as [h ->]
    end; done.
Qed.

(** The authoritative map after [addLink]: the new entry is set under the
    key of the link, then the entry under the reverse key is flipped to
    [First]. *)
Lemma addLink_linksMap resolve link useTagColors tagLegend s :
  ∃ text graphics,
    let p := if hasReverse link (linksMap s) then LinkPair.Second else LinkPair.None in
    let m := Map_set (keyOf link) (mkGltLink link p text graphics) (linksMap s) in
    linksMap (addLink resolve link useTagColors tagLegend s) =
      if hasReverse link m then
        match Map_get (reverseKeyOf link) m with
        | Some reverseLink =>
            Map_set (reverseKeyOf link) (set_pairStatus LinkPair.First reverseLink) m
        | None => m
        end
      else m.
Proof.
  unfold addLink.
  pose proof (initializeLinkText_linksMap resolve link
                (if hasReverse link (linksMap s) then LinkPair.Second else LinkPair.None) s) as Ht.
  destruct (initializeLinkText _ _ _ s) as [text s1]. simpl in Ht.
  pose proof (initializeLinkGraphics_linksMap resolve link tagLegend s1) as Hg.
  destruct useTagColors.
  - destruct (initializeLinkGraphics _ _ _ s1) as [graphics s2]. simpl in Hg.
    exists text, graphics. simpl. rewrite Hg, Ht.
    repeat case_match; done.
  - exists text, None. simpl. rewrite Ht. repeat case_match; done.
Qed.

(** * The edge-identity key *)

(** C9. [generateKey] is not injective: the distinct endpoint pairs
    ("a-b", "c") and ("a", "b-c"), whose ids contain the separator, get the
    same key "a-b-c"; so the two edges collide in the authoritative map: once
    the first is added the second counts as tracked, and adding both leaves
    one entry. *)
Theorem generateKey_not_injective :
  ∃ a b c d : string,
    (a, b) ≠ (c, d)
    ∧ "-"%char ∈ list_ascii_of_string a
    ∧ "-"%char ∈ list_ascii_of_string d
    ∧ generateKey a b = generateKey c d
    ∧ (∀ resolve useTagColors tagLegend,
         Map_has (keyOf (edge c d))
           (linksMap (addLink resolve (edge a b) useTagColors tagLegend initial)) = true)
    ∧ (∀ resolve useTagColors tagLegend,
         Map_keys (linksMap (addLink resolve (edge c d) useTagColors tagLegend
                               (addLink resolve (edge a b) useTagColors tagLegend initial)))
         = [generateKey a b]).
Proof.
  exists "a-b", "c", "a", "b-c".
  split; [by intros [= ? ?]|].
  split; [by apply (bool_decide_unpack _); vm_compute|].
  split; [by apply (bool_decide_unpack _); vm_compute|].
  split; [reflexivity|].
  split.
  - intros resolve tc tl.
    destruct (addLink_linksMap resolve (edge "a-b" "c") tc tl initial) as (t & g & ->).
    reflexivity.
  - intros resolve tc tl.
    destruct (addLink_linksMap resolve (edge "a" "b-c") tc tl
                (addLink resolve (edge "a-b" "c") tc tl initial)) as (t & g & ->).
    destruct (addLink_linksMap resolve (edge "a-b" "c") tc tl initial) as (t' & g' & ->).
    reflexivity.
Qed.

Lemma removeLink_linksMap link s :
  linksMap (removeLink link s) =
    let m := Map_delete (keyOf link) (linksMap s) in
    match Map_get (reverseKeyOf link) m with
    | Some reverseLink =>
        if decide (pairStatus reverseLink ≠ LinkPair.None) then
          Map_set (reverseKeyOf link) (set_pairStatus LinkPair.None reverseLink) m
        else m
    | None => m
    end.
Proof.
  unfold removeLink.
  set (gl := Map_get (keyOf link) (linksMap s)).
  set (s1 := match pixiTextOf gl with Some text => detach text s | None => s end).
  assert (linksMap s1 = linksMap s) as H1.
  { subst s1. destruct (pixiTextOf gl) as [o|]; [|done].
    by destruct (detach_frame o s) as [h ->]. }
  set (s2 := match pixiGraphicsOf gl with Some g => detach g s1 | None => s1 end).
  assert (linksMap s2 = linksMap s) as H2.
  { subst s2. destruct (pixiGraphicsOf gl) as [o|]; [|done].
    by destruct (detach_frame o s1) as [h ->]. }
  set (s3 := releaseText _ s2).
  assert (linksMap s3 = linksMap s) as H3.
  { subst s3. by rewrite releaseText_linksMap. }
  simpl. rewrite H3. repeat case_match; done.
Qed.

(** * Mirror pairs *)

(** C4, at the node ids "x" and "x-x". The two ids differ but both
    directions get the key "x-x-x": the first [addLink] already marks its own
    entry [First] although no reverse link exists, and after the second
    [addLink] there is a single entry, marked [First], and none marked
    [Second]. *)
Theorem mirror_pair_with_colliding_keys :
  "x" ≠ "x-x"
  ∧ ∀ resolve useTagColors tagLegend,
      let s1 := addLink resolve (edge "x" "x-x") useTagColors tagLegend initial in
      let s2 := addLink resolve (edge "x-x" "x") useTagColors tagLegend s1 in
      keysWithStatus LinkPair.First s1 = ["x-x-x"]
      ∧ Map_keys (linksMap s2) = ["x-x-x"]
      ∧ keysWithStatus LinkPair.First s2 = ["x-x-x"]
      ∧ keysWithStatus LinkPair.Second s2 = [].
Proof.
  split; [done|]. intros resolve tc tl s1 s2. subst s2. unfold keysWithStatus.
  destruct (addLink_linksMap resolve (edge "x-x" "x") tc tl s1) as (t & g & ->).
  subst s1.
  destruct (addLink_linksMap resolve (edge "x" "x-x") tc tl initial) as (t' & g' & ->).
  repeat split; reflexivity.
Qed.

(** C10, at the edges a -> b-c and c -> a-b. The reverse key of the second
    edge is the key "a-b-c" of the first, so adding both marks the entry of
    a -> b-c as [First], while its mirror b-c -> a (key "b-c-a") is not
    tracked. The state is reached by two [addLink] calls, and also by one
    structural tick on these two live edges. *)
Theorem first_without_tracked_mirror :
  ∀ resolve useTagColors tagLegend,
    let s := addLink resolve (edge "c" "a-b") useTagColors tagLegend
               (addLink resolve (edge "a" "b-c") useTagColors tagLegend initial) in
    reachable s
    ∧ ∃ g, Map_get "a-b-c" (linksMap s) = Some g
           ∧ obsidianLink g = edge "a" "b-c"
           ∧ pairStatus g = LinkPair.First
           ∧ reverseKeyOf (obsidianLink g) = "b-c-a"
           ∧ Map_has "b-c-a" (linksMap s) = false.
Proof.
  intros resolve tc tl s. split.
  - exists [OpAddLink resolve (edge "a" "b-c") tc tl;
            OpAddLink resolve (edge "c" "a-b") tc tl]. reflexivity.
  - subst s.
    destruct (addLink_linksMap resolve (edge "c" "a-b") tc tl
                (addLink resolve (edge "a" "b-c") tc tl initial)) as (t & g & ->).
    destruct (addLink_linksMap resolve (edge "a" "b-c") tc tl initial) as (t' & g' & ->).
    eexists. split; [reflexivity|]. repeat split; reflexivity.
Qed.

(** C6, in the state reached by adding a -> b-c and c -> a-b. The identity
    b-c -> a is not tracked, yet [removeLink] on it changes the state: it
    resets the pair status of the entry "a-b-c" from [First] to [None]. *)
Theorem removeLink_untracked_changes_state :
  ∀ resolve useTagColors tagLegend,
    let s := addLink resolve (edge "c" "a-b") useTagColors tagLegend
               (addLink resolve (edge "a" "b-c") useTagColors tagLegend initial) in
    Map_has (keyOf (edge "b-c" "a")) (linksMap s) = false
    ∧ getLinkPairStatus "a-b-c" s = LinkPair.First
    ∧ getLinkPairStatus "a-b-c" (removeLink (edge "b-c" "a") s) = LinkPair.None
    ∧ removeLink (edge "b-c" "a") s ≠ s.
Proof.
  intros resolve tc tl s.
  assert (Map_has (keyOf (edge "b-c" "a")) (linksMap s) = false
          ∧ getLinkPairStatus "a-b-c" s = LinkPair.First
          ∧ getLinkPairStatus "a-b-c" (removeLink (edge "b-c" "a") s) = LinkPair.None)
    as (H1 & H2 & H3).
  { unfold getLinkPairStatus. rewrite removeLink_linksMap. subst s.
    destruct (addLink_linksMap resolve (edge "c" "a-b") tc tl
                (addLink resolve (edge "a" "b-c") tc tl initial)) as (t & g & ->).
    destruct (addLink_linksMap resolve (edge "a" "b-c") tc tl initial) as (t' & g' & ->).
    repeat split; reflexivity. }
  repeat split; try done.
  intros Heq. rewrite Heq, H2 in H3. discriminate.
Qed.

(** ** Kinds of display objects are never changed *)

Lemma alter_kind (f : DisplayObject → DisplayObject) (r o : ref)
    (h : gmap ref DisplayObject) :
  (∀ x, kind (f x) = kind x) →
  kind <$> alter f r h !! o = kind <$> h !! o.
Proof.
  intros Hf. destruct (decide (r = o)) as [->|Hne].
  - rewrite lookup_alter_eq. destruct (h !! o); simpl; [by rewrite Hf|done].
  - by rewrite lookup_alter_ne.
Qed.

Lemma redraw_kind x : kind (redraw x) = kind x.
Proof. unfold redraw, lineStyle, lineColorOf. by destruct x as [[?|?] ? ?]. Qed.

Lemma updateLinkText_kindAt link tagNames s o :
  kindAt o (updateLinkText link tagNames s) = kindAt o s.
Proof.
  unfold updateLinkText, kindAt. repeat case_match; try done.
  simpl. by apply alter_kind.
Qed.

Lemma updateLinkGraphics_kindAt link s o :
  kindAt o (updateLinkGraphics link s) = kindAt o s.
Proof.
  unfold updateLinkGraphics, kindAt. repeat case_match; try done.
  simpl. apply alter_kind, redraw_kind.
Qed.

(** ** The elements [addLink] creates *)

Lemma initializeLinkText_None resolve link p s :
  resolve (Node.id (source link)) (Node.id (target link)) = None →
  initializeLinkText resolve link p s = (None, s).
Proof. unfold initializeLinkText. by intros ->. Qed.

Lemma initializeLinkText_Some resolve link p s linkString :
  resolve (Node.id (source link)) (Node.id (target link)) = Some linkString →
  ∃ s', initializeLinkText resolve link p s = (Some (nextRef s), s')
        ∧ legendState s' = legendState s
        ∧ linksMap s' = linksMap s
        ∧ children s' = (children s ++ [nextRef s])%list
        ∧ nextRef s' = S (nextRef s)
        ∧ kindAt (nextRef s) s' = Some (PixiText (labelText link p linkString))
        ∧ ∀ o, o ≠ nextRef s → kindAt o s' = kindAt o s.
Proof.
  unfold initializeLinkText. intros ->. simpl.
  match goal with
  | |- context [updateLinkText ?l ?b ?s0] =>
      pose proof (updateLinkText_kindAt l b s0) as Hk;
      destruct (updateLinkText_frame l b s0) as [h Hh]
  end.
  eexists. split; [reflexivity|]. rewrite Hh in *.
  repeat split; try done.
  - unfold kindAt in *. simpl in *. rewrite Hk, lookup_insert_eq. simpl.
    unfold labelText. by repeat case_match.
  - intros o Hne. unfold kindAt in *. simpl in *. by rewrite Hk, lookup_insert_ne.
Qed.

Lemma initializeLinkGraphics_None resolve link tagLegend s :
  resolve (Node.id (source link)) (Node.id (target link)) = None →
  initializeLinkGraphics resolve link tagLegend s = (None, s).
Proof. unfold initializeLinkGraphics. by intros ->. Qed.

Lemma initializeLinkGraphics_selfloop resolve link tagLegend s linkString :
  Node.id (source link) = Node.id (target link) →
  resolve (Node.id (source link)) (Node.id (target link)) = Some linkString →
  ∃ s', initializeLinkGraphics resolve link tagLegend s = (Some (nextRef s), s')
        ∧ legendState s' = legendState s
        ∧ linksMap s' = linksMap s
        ∧ kindAt (nextRef s) s' = Some (PixiGraphics 0)
        ∧ ∀ o, o ≠ nextRef s → kindAt o s' = kindAt o s.
Proof.
  unfold initializeLinkGraphics. intros Hself ->. rewrite decide_True by done. simpl.
  match goal with
  | |- context [updateLinkGraphics ?l ?s0] =>
      pose proof (updateLinkGraphics_kindAt l s0) as Hk;
      destruct (updateLinkGraphics_frame l s0) as [h Hh]
  end.
  eexists. split; [reflexivity|]. rewrite Hh in *.
  repeat split; try done.
  - unfold kindAt in *. simpl in *. by rewrite Hk, lookup_insert_eq.
  - intros o Hne. unfold kindAt in *. simpl in *. by rewrite Hk, lookup_insert_ne.
Qed.

(** * Self-loops *)

(** C1, as stated, fails: with a resolver that answers "file" for the pair
    (A, A), the entry of the self-loop A -> A has a label element. *)
Lemma self_loop_label_not_null :
  pixiTextOf (Map_get (keyOf (edge "A" "A"))
                (linksMap (addLink resolveFile (edge "A" "A") true true initial)))
  ≠ None.
Proof. vm_compute. discriminate. Qed.

(** C1, amended. After [addLink] of a self-loop the legend state is
    unchanged and the entry has pair status [None]; when the resolver
    answers none the entry has neither label nor indicator; otherwise its
    label is a text element whose text is empty (never the resolver's
    answer) and its indicator, created in colour mode only, has the default
    stroke colour 0: no colour is passed to [lineStyle], and no colour of
    the palette is used. *)
Theorem self_loop_suppression resolve link useTagColors tagLegend s :
  Node.id (source link) = Node.id (target link) →
  let s' := addLink resolve link useTagColors tagLegend s in
  legendState s' = legendState s
  ∧ ∃ g, Map_get (keyOf link) (linksMap s') = Some g
      ∧ pairStatus g = LinkPair.None
      ∧ match resolve (Node.id (source link)) (Node.id (target link)) with
        | None => pixiText g = None ∧ pixiGraphics g = None
        | Some _ =>
            (∃ t, pixiText g = Some t ∧ kindAt t s' = Some (PixiText EmptyString))
            ∧ if useTagColors
              then ∃ o, pixiGraphics g = Some o
                        ∧ kindAt o s' = Some (PixiGraphics 0)
              else pixiGraphics g = None
        end.
Proof.
  intros Hself s'. subst s'. unfold addLink, hasReverse.
  rewrite !bool_decide_false by (intros Hne; by apply Hne). simpl.
  destruct (resolve (Node.id (source link)) (Node.id (target link)))
    as [linkString|] eqn:Hres.
  - destruct (initializeLinkText_Some resolve link LinkPair.None s linkString Hres)
      as (s1 & -> & Hleg1 & Hmap1 & _ & Hnext1 & Hk1 & Hko1).
    unfold labelText in Hk1. rewrite decide_True in Hk1 by done.
    destruct useTagColors.
    + destruct (initializeLinkGraphics_selfloop resolve link tagLegend s1 linkString
                  Hself Hres) as (s2 & -> & Hleg2 & Hmap2 & Hk2 & Hko2).
      simpl. split; [by rewrite <- Hleg1, <- Hleg2|].
      eexists. split; [apply Map_get_set_eq|]. simpl.
      split; [done|]. split.
      * exists (nextRef s). split; [done|].
        unfold kindAt in *. simpl. rewrite Hko2; [done|]. rewrite Hnext1. lia.
      * exists (nextRef s1). split; [done|]. by unfold kindAt in *.
    + simpl. split; [by rewrite <- Hleg1|].
      eexists. split; [apply Map_get_set_eq|]. simpl.
      split; [done|]. split; [|done].
      exists (nextRef s). split; [done|]. by unfold kindAt in *.
  - rewrite (initializeLinkText_None resolve link _ s Hres).
    rewrite (initializeLinkGraphics_None resolve link _ s Hres).
    assert ((if useTagColors then (@None ref, s) else (None, s)) = (None, s)) as ->
      by by destruct useTagColors.
    simpl. split; [done|].
    eexists. split; [apply Map_get_set_eq|]. done.
Qed.

Lemma self_loop_suppression_witness :
  let s' := addLink resolveFile (edge "A" "A") true true initial in
  legendState s' = legendState initial
  ∧ ∃ g, Map_get "A-A" (linksMap s') = Some g
      ∧ pairStatus g = LinkPair.None
      ∧ (∃ t, pixiText g = Some t ∧ kindAt t s' = Some (PixiText EmptyString))
        ∧ ∃ o, pixiGraphics g = Some o ∧ kindAt o s' = Some (PixiGraphics 0).
Proof.
  exact (self_loop_suppression resolveFile (edge "A" "A") true true initial eq_refl).
Defined.

(** * The colour and legend allocator *)

(** C2, at the first acquisition of a label. The new legend entry is stored
    with [nUsing = 0], not 1: after [addLink] of the edge A -> B, classified
    "parent", in colour mode, the legend entry of "parent" is present with
    count 0. The count stays one below the number of users, so with two
    users A -> B and A -> C, removing A -> C already reclaims the legend
    entry while A -> B is still tracked. *)
Theorem new_legend_entry_has_zero_uses :
  (∀ label tagLegend,
     nUsing <$> tagColors (acquire label tagLegend initial).2 !! label = Some 0)
  ∧ (let s := addLink resolveParent (edge "A" "B") true true initial in
     reachable s ∧ nUsing <$> tagColors s !! "parent" = Some 0)
  ∧ (let s := removeLink (edge "A" "C")
                (addLink resolveParent (edge "A" "C") true true
                   (addLink resolveParent (edge "A" "B") true true initial)) in
     reachable s
     ∧ tagColors s !! "parent" = None
     ∧ Map_has "A-B" (linksMap s) = true).
Proof.
  split; [|split].
  - intros label tagLegend. unfold acquire. simpl. rewrite lookup_empty. simpl.
    destruct tagLegend; simpl; by rewrite lookup_insert_eq.
  - split; [|by vm_compute].
    by exists [OpAddLink resolveParent (edge "A" "B") true true].
  - split; [|split; by vm_compute].
    by exists [OpAddLink resolveParent (edge "A" "B") true true;
               OpAddLink resolveParent (edge "A" "C") true true;
               OpRemoveLink (edge "A" "C")].
Qed.

(** ** Acquire and release on the legend state *)

Lemma set_nUsing_id lg : set_nUsing (nUsing lg) lg = lg.
Proof. by destruct lg. Qed.

Lemma acquire_fresh label tagLegend s :
  tagColors s !! label = None →
  legendState (acquire label tagLegend s).2 =
    (<[label := {| color := colorAt (currentTagColorIndex s);
                   legendText := nextRef s;
                   legendGraphics := S (nextRef s);
                   nUsing := 0 |}]> (tagColors s),
     Z.rem (currentTagColorIndex s + 1) 20,
     yOffset s + lineHeight).
Proof.
  intros Hnone. unfold acquire. rewrite Hnone. simpl. by destruct tagLegend.
Qed.

Lemma acquire_present label tagLegend s lg :
  tagColors s !! label = Some lg →
  legendState (acquire label tagLegend s).2 =
    (<[label := set_nUsing (nUsing lg + 1) lg]> (tagColors s),
     currentTagColorIndex s, yOffset s).
Proof. intros Hsome. unfold acquire. by rewrite Hsome. Qed.

Lemma release_absent colorKey s :
  tagColors s !! colorKey = None → release colorKey s = s.
Proof. intros Hnone. unfold release. by rewrite Hnone. Qed.

Lemma release_keep colorKey s lg :
  tagColors s !! colorKey = Some lg →
  1 ≤ nUsing lg - 1 →
  legendState (release colorKey s) =
    (<[colorKey := set_nUsing (nUsing lg - 1) lg]> (tagColors s),
     currentTagColorIndex s, yOffset s).
Proof.
  intros Hsome Hn. unfold release. rewrite Hsome. simpl.
  destruct (Z.ltb_spec (nUsing lg - 1) 1); [lia|done].
Qed.

Lemma release_reclaim colorKey s lg :
  tagColors s !! colorKey = Some lg →
  nUsing lg - 1 < 1 →
  legendState (release colorKey s) =
    (delete colorKey (tagColors s),
     rollBack (currentTagColorIndex s), yOffset s - lineHeight).
Proof.
  intros Hsome Hn. unfold release. rewrite Hsome. simpl.
  destruct (Z.ltb_spec (nUsing lg - 1) 1); [|lia]. simpl.
  repeat match goal with
         | |- context [detach ?o ?s] =>
             let h := fresh "h" in
             destruct (detach_frame o s) as [h ->]; simpl
         end.
  unfold legendState, rollBack.
  destruct (currentTagColorIndex s - 1 <? 0); simpl; by rewrite delete_insert_eq.
Qed.

Lemma stripNewlines_no_LF label :
  LF ∉ list_ascii_of_string label → stripNewlines label = label.
Proof.
  induction label as [|c rest IH]; [done|]. simpl.
  intros [Hc Hrest]%not_elem_of_cons.
  rewrite decide_False by done.
  destruct (decide (c = CR)) as [->|]; [|by rewrite IH].
  destruct rest as [|c' rest']; [done|].
  simpl in Hrest. apply not_elem_of_cons in Hrest as Hc'.
  rewrite decide_False by (intros ->; by destruct Hc').
  by rewrite IH.
Qed.

Lemma releaseText_release label s :
  label ≠ EmptyString → LF ∉ list_ascii_of_string label →
  releaseText (Some label) s = release label s.
Proof.
  intros Hne HLF. unfold releaseText. rewrite stripNewlines_no_LF by done.
  by rewrite decide_False.
Qed.

Lemma acquireN_present n label tagLegend s lg :
  tagColors s !! label = Some lg →
  legendState (acquireN n label tagLegend s) =
    (<[label := set_nUsing (nUsing lg + Z.of_nat n) lg]> (tagColors s),
     currentTagColorIndex s, yOffset s).
Proof.
  revert s lg. induction n as [|n IH]; intros s lg Hsome.
  - simpl. rewrite Z.add_0_r, set_nUsing_id. unfold legendState.
    by rewrite insert_id.
  - cbn [acquireN].
    pose proof (acquire_present label tagLegend s lg Hsome) as Ha.
    destruct (acquire label tagLegend s) as [c s1]. simpl in *.
    injection Ha as Ht Hc Hy.
    rewrite (IH s1 (set_nUsing (nUsing lg + 1) lg)).
    + rewrite Ht, Hc, Hy, insert_insert_eq. simpl. unfold set_nUsing at 1. simpl.
      do 3 f_equal. unfold set_nUsing. f_equal. lia.
    + by rewrite Ht, lookup_insert_eq.
Qed.

Lemma releaseN_absent n label s :
  label ≠ EmptyString → LF ∉ list_ascii_of_string label →
  tagColors s !! label = None → releaseN n label s = s.
Proof.
  intros Hne HLF. revert s. induction n as [|n IH]; intros s Hnone; [done|].
  cbn [releaseN]. rewrite releaseText_release, release_absent by done. by apply IH.
Qed.

Lemma releaseN_reclaims n label s lg T :
  label ≠ EmptyString → LF ∉ list_ascii_of_string label →
  tagColors s = <[label := lg]> T → T !! label = None →
  (1 ≤ n)%nat → nUsing lg ≤ Z.of_nat n →
  legendState (releaseN n label s) =
    (T, rollBack (currentTagColorIndex s), yOffset s - lineHeight).
Proof.
  intros Hne HLF. revert s lg. induction n as [|n IH]; intros s lg HT Hfresh Hn Hk; [lia|].
  cbn [releaseN]. rewrite releaseText_release by done.
  assert (tagColors s !! label = Some lg) as Hsome by by rewrite HT, lookup_insert_eq.
  destruct (Z.lt_ge_cases (nUsing lg - 1) 1) as [Hlast|Hmore].
  - pose proof (release_reclaim label s lg Hsome Hlast) as Hr.
    rewrite HT, delete_insert_eq, delete_id in Hr by done.
    rewrite releaseN_absent; [done|done|done|].
    injection Hr as -> _ _. done.
  - pose proof (release_keep label s lg Hsome Hmore) as Hr.
    rewrite HT, insert_insert_eq in Hr. injection Hr as Ht Hc Hy.
    rewrite (IH (release label s) (set_nUsing (nUsing lg - 1) lg)); try done.
    + by rewrite Hc, Hy.
    + lia.
    + simpl. lia.
Qed.

Lemma rollBack_advance i : 0 ≤ i < 20 → rollBack (Z.rem (i + 1) 20) = i.
Proof.
  intros Hi. unfold rollBack. destruct (decide (i = 19)) as [->|]; [done|].
  rewrite Z.rem_small by lia. destruct (Z.ltb_spec (i + 1 - 1) 0); lia.
Qed.

(** C3, at the empty label. Its acquisition creates a legend entry, but the
    release is skipped because [if (colorKey)] takes the empty colour key
    for a missing one: after one acquisition and one release the entry is
    still in the legend, and the cursor and the offset are not restored. The
    same happens through [addLink] and [removeLink] of an edge that is not a
    self-loop and whose classification is the empty string: the legend row
    of a type that is no longer used is never reclaimed. *)
Lemma empty_label_is_never_released :
  (let s := releaseN 1 EmptyString (acquireN 1 EmptyString true initial) in
   tagColors s !! EmptyString ≠ None
   ∧ currentTagColorIndex s ≠ currentTagColorIndex initial
   ∧ yOffset s ≠ yOffset initial)
  ∧ (let s := removeLink (edge "A" "B")
                (addLink resolveEmpty (edge "A" "B") true true initial) in
     tagColors s !! EmptyString ≠ None
     ∧ currentTagColorIndex s ≠ currentTagColorIndex initial
     ∧ yOffset s ≠ yOffset initial).
Proof. vm_compute. repeat split; discriminate. Qed.

(** Reference counting away from the empty label. For every non-empty label
    without line feed that has no legend entry, with the palette cursor
    inside the palette, and every N >= 1: acquiring the label N times and
    then releasing it N times leaves no legend entry for the label and
    restores the legend map, the palette cursor and the legend offset. *)
Theorem acquire_release_roundtrip label N tagLegend s :
  (1 ≤ N)%nat →
  label ≠ EmptyString →
  LF ∉ list_ascii_of_string label →
  tagColors s !! label = None →
  0 ≤ currentTagColorIndex s < 20 →
  let s' := releaseN N label (acquireN N label tagLegend s) in
  tagColors s' !! label = None
  ∧ currentTagColorIndex s' = currentTagColorIndex s
  ∧ yOffset s' = yOffset s
  ∧ legendState s' = legendState s.
Proof.
  intros HN Hne HLF Hfresh Hcur s'.
  assert (legendState s' = legendState s) as Hleg.
  { subst s'. destruct N as [|n]; [lia|]. cbn [acquireN].
    pose proof (acquire_fresh label tagLegend s Hfresh) as Ha.
    destruct (acquire label tagLegend s) as [c s1]. simpl in Ha. cbn [snd].
    injection Ha as Ht Hc Hy.
    set (lg0 := {| color := colorAt (currentTagColorIndex s);
                   legendText := nextRef s; legendGraphics := S (nextRef s);
                   nUsing := 0 |}) in *.
    assert (tagColors s1 !! label = Some lg0) as Hsome
      by by rewrite Ht, lookup_insert_eq.
    pose proof (acquireN_present n label tagLegend s1 lg0 Hsome) as Hn.
    injection Hn as Ht' Hc' Hy'.
    rewrite Ht, insert_insert_eq in Ht'.
    erewrite releaseN_reclaims; [| done | done | exact Ht' | done | lia | simpl; lia].
    rewrite Hc', Hy', Hc, Hy. unfold legendState.
    rewrite rollBack_advance by done. do 2 f_equal. unfold lineHeight. lia. }
  injection Hleg as Ht Hc Hy. repeat split; try done.
  - by rewrite Ht.
  - unfold legendState. by rewrite Ht, Hc, Hy.
Qed.

Lemma acquire_release_roundtrip_witness :
  let s' := releaseN 3 "parent" (acquireN 3 "parent" true initial) in
  tagColors s' !! "parent" = None
  ∧ currentTagColorIndex s' = 0
  ∧ yOffset s' = 5
  ∧ legendState s' = legendState initial.
Proof.
  apply (acquire_release_roundtrip "parent" 3 true initial).
  - lia.
  - discriminate.
  - apply (bool_decide_unpack _). by vm_compute.
  - reflexivity.
  - simpl. lia.
Defined.

(** * The update loop *)

Lemma addLink_tracks resolve link useTagColors tagLegend s :
  Map_has (keyOf link) (linksMap (addLink resolve link useTagColors tagLegend s)) = true.
Proof.
  destruct (addLink_linksMap resolve link useTagColors tagLegend s) as (t & g & ->).
  apply Map_has_keys. simpl. repeat case_match;
    repeat (apply Map_keys_set; try (by left); right).
Qed.

Lemma addLink_keeps resolve link useTagColors tagLegend s k :
  Map_has k (linksMap s) = true →
  Map_has k (linksMap (addLink resolve link useTagColors tagLegend s)) = true.
Proof.
  rewrite !Map_has_keys. intros Hk.
  destruct (addLink_linksMap resolve link useTagColors tagLegend s) as (t & g & ->).
  simpl. repeat case_match; repeat (apply Map_keys_set; right); done.
Qed.

Lemma updateLinkText_linksMap link tagNames s :
  linksMap (updateLinkText link tagNames s) = linksMap s.
Proof. by destruct (updateLinkText_frame link tagNames s) as [h ->]. Qed.

Lemma updateLinkGraphics_linksMap link s :
  linksMap (updateLinkGraphics link s) = linksMap s.
Proof. by destruct (updateLinkGraphics_frame link s) as [h ->]. Qed.

Lemma addBeforeOwnRefresh_snoc calls x :
  addBeforeOwnRefresh calls →
  (∀ l, x = CallAddLink l → ∀ c, c ∈ calls → refreshedKey c ≠ Some (keyOf l)) →
  addBeforeOwnRefresh (calls ++ [x]).
Proof.
  intros Hord Hx i j l c Hi Hj Hkey.
  apply lookup_app_Some in Hi as [Hi|[Hlen Hi]];
    apply lookup_app_Some in Hj as [Hj|[Hlen' Hj]].
  - by eapply Hord.
  - apply lookup_lt_Some in Hi. lia.
  - apply list_lookup_singleton_Some in Hi as [_ ->].
    exfalso. eapply Hx; [done| |done]. by eapply list_elem_of_lookup_2.
  - apply list_lookup_singleton_Some in Hi as [_ ->].
    apply list_lookup_singleton_Some in Hj as [_ <-]. done.
Qed.

Lemma call_step s s' calls x :
  refreshedTracked s calls → addBeforeOwnRefresh calls →
  (∀ k, Map_has k (linksMap s) = true → Map_has k (linksMap s') = true) →
  (∀ l, x = CallAddLink l → Map_has (keyOf l) (linksMap s) = false) →
  (∀ k, refreshedKey x = Some k → Map_has k (linksMap s') = true) →
  refreshedTracked s' (calls ++ [x]) ∧ addBeforeOwnRefresh (calls ++ [x]).
Proof.
  intros Htr Hord Hmono Hadd Hnew. split.
  - intros c k [Hc|Hc]%elem_of_app Hk.
    + apply Hmono. by eapply Htr.
    + apply list_elem_of_singleton in Hc as ->. by apply Hnew.
  - apply addBeforeOwnRefresh_snoc; [done|].
    intros l -> c Hc Hk. specialize (Htr c _ Hc Hk).
    rewrite (Hadd l eq_refl) in Htr. discriminate.
Qed.

Lemma updateLink_ordering resolve settings s calls link :
  refreshedTracked s calls → addBeforeOwnRefresh calls →
  let r := updateLink resolve settings true (s, calls) link in
  refreshedTracked r.1 r.2 ∧ addBeforeOwnRefresh r.2
  ∧ ∃ extra, r.2 = (calls ++ extra)%list ∧ Forall (λ c, isRemoveLinks c = false) extra.
Proof.
  intros Htr Hord. unfold updateLink. cbn [andb].
  set (added := negb (Map_has (keyOf link) (linksMap s))).
  set (s1 := addLink resolve link (GraphLinkTypesPluginSettings.tagColors settings)
               (GraphLinkTypesPluginSettings.tagLegend settings) s).
  (* the state and the calls after the optional [addLink] *)
  assert (∃ s2 calls2 extra2,
             (if added then (s1, (calls ++ [CallAddLink link])%list) else (s, calls))
             = (s2, calls2)
             ∧ refreshedTracked s2 calls2 ∧ addBeforeOwnRefresh calls2
             ∧ Map_has (keyOf link) (linksMap s2) = true
             ∧ calls2 = (calls ++ extra2)%list
             ∧ Forall (λ c, isRemoveLinks c = false) extra2)
    as (s2 & calls2 & extra2 & -> & Htr2 & Hord2 & Hhas2 & -> & Hex2).
  { subst added. destruct (Map_has (keyOf link) (linksMap s)) eqn:Hhas; simpl.
    - exists s, calls, []. rewrite app_nil_r. by repeat split.
    - exists s1, (calls ++ [CallAddLink link])%list, [CallAddLink link].
      destruct (call_step s s1 calls (CallAddLink link)) as [? ?]; try done.
      + intros k. apply addLink_keeps.
      + by intros l [= <-].
      + repeat split; try done; [apply addLink_tracks|by repeat constructor]. }
  set (s3 := updateLinkText link (GraphLinkTypesPluginSettings.tagNames settings) s2).
  destruct (call_step s2 s3 (calls ++ extra2) (CallUpdateLinkText link))
    as [Htr3 Hord3]; try done.
  { intros k. subst s3. by rewrite updateLinkText_linksMap. }
  { intros k [= <-]. subst s3. by rewrite updateLinkText_linksMap. }
  destruct (GraphLinkTypesPluginSettings.tagColors settings); cbn [fst snd].
  - set (s4 := updateLinkGraphics link s3).
    destruct (call_step s3 s4 ((calls ++ extra2) ++ [CallUpdateLinkText link])
                (CallUpdateLinkGraphics link)) as [Htr4 Hord4]; try done.
    { intros k. subst s4. by rewrite updateLinkGraphics_linksMap. }
    { intros k [= <-]. subst s4 s3.
      by rewrite updateLinkGraphics_linksMap, updateLinkText_linksMap. }
    repeat split; try done.
    exists (extra2 ++ [CallUpdateLinkText link; CallUpdateLinkGraphics link])%list.
    split; [by rewrite <- !app_assoc|].
    apply Forall_app. split; [done|by repeat constructor].
  - repeat split; try done.
    exists (extra2 ++ [CallUpdateLinkText link])%list.
    split; [by rewrite <- !app_assoc|].
    apply Forall_app. split; [done|by repeat constructor].
Qed.

Lemma fold_updateLink_ordering resolve settings links s calls :
  refreshedTracked s calls → addBeforeOwnRefresh calls →
  let r := fold_left (updateLink resolve settings true) links (s, calls) in
  refreshedTracked r.1 r.2 ∧ addBeforeOwnRefresh r.2
  ∧ ∃ extra, r.2 = (calls ++ extra)%list ∧ Forall (λ c, isRemoveLinks c = false) extra.
Proof.
  revert s calls. induction links as [|link links IH]; intros s calls Htr Hord.
  - simpl. repeat split; try done. exists []. by rewrite app_nil_r.
  - cbn [fold_left].
    destruct (updateLink_ordering resolve settings s calls link Htr Hord)
      as (Htr1 & Hord1 & extra1 & Heq1 & Hex1).
    destruct (updateLink resolve settings true (s, calls) link) as [s1 calls1].
    simpl in *. subst calls1.
    destruct (IH s1 _ Htr1 Hord1) as (Htr2 & Hord2 & extra2 & Heq2 & Hex2).
    repeat split; try done.
    exists (extra1 ++ extra2)%list. split; [by rewrite Heq2, app_assoc|].
    by apply Forall_app.
Qed.

(** C7, as stated, fails: on a structural tick with the two untracked live
    edges A -> B and B -> C, the label and the indicator of A -> B are
    refreshed before [addLink] is called for B -> C. *)
Lemma refresh_precedes_later_addLink :
  let calls :=
    (updatePositions resolveParent allOn (Some 10)
       [edge "A" "B"; edge "B" "C"] initial).2 in
  calls = [ CallRemoveLinks [edge "A" "B"; edge "B" "C"];
            CallAddLink (edge "A" "B");
            CallUpdateLinkText (edge "A" "B");
            CallUpdateLinkGraphics (edge "A" "B");
            CallAddLink (edge "B" "C");
            CallUpdateLinkText (edge "B" "C");
            CallUpdateLinkGraphics (edge "B" "C") ]
  ∧ ¬ structuralBeforeRefresh calls.
Proof.
  assert ((updatePositions resolveParent allOn (Some 10)
             [edge "A" "B"; edge "B" "C"] initial).2
          = [ CallRemoveLinks [edge "A" "B"; edge "B" "C"];
              CallAddLink (edge "A" "B");
              CallUpdateLinkText (edge "A" "B");
              CallUpdateLinkGraphics (edge "A" "B");
              CallAddLink (edge "B" "C");
              CallUpdateLinkText (edge "B" "C");
              CallUpdateLinkGraphics (edge "B" "C") ]) as Hcalls
    by (vm_compute; reflexivity).
  cbv zeta. rewrite Hcalls. split; [done|].
  intros Hord.
  specialize (Hord 2%nat 4%nat _ _ eq_refl eq_refl eq_refl eq_refl). lia.
Qed.

(** C7, amended. On a tick that performs a structural sync, the call of
    [removeLinks] is the first call and the only one of its kind, and for
    every live edge the call of [addLink] (made when its key is not yet
    tracked) comes before every refreshing call for that key. *)
Theorem tick_ordering resolve settings animationFrameId links s :
  isUpdateMapFrame animationFrameId = true →
  let calls := (updatePositions resolve settings animationFrameId links s).2 in
  (∃ rest, calls = CallRemoveLinks links :: rest
           ∧ Forall (λ c, isRemoveLinks c = false) rest)
  ∧ addBeforeOwnRefresh calls.
Proof.
  intros Hframe calls. subst calls. unfold updatePositions. rewrite Hframe.
  destruct (fold_updateLink_ordering resolve settings links (removeLinks links s)
              [CallRemoveLinks links]) as (_ & Hord & extra & Heq & Hex).
  - intros c k ->%list_elem_of_singleton. discriminate.
  - intros i j l c Hi. apply list_lookup_singleton_Some in Hi as [_ [=]].
  - split; [|done]. exists extra. by rewrite Heq.
Qed.

Lemma tick_ordering_witness :
  let calls :=
    (updatePositions resolveParent allOn (Some 10)
       [edge "A" "B"; edge "B" "C"] initial).2 in
  (∃ rest, calls = CallRemoveLinks [edge "A" "B"; edge "B" "C"] :: rest
           ∧ Forall (λ c, isRemoveLinks c = false) rest)
  ∧ addBeforeOwnRefresh calls.
Proof.
  apply (tick_ordering resolveParent allOn (Some 10)
           [edge "A" "B"; edge "B" "C"] initial).
  reflexivity.
Defined.

(** * Refreshing a label *)

(** What [updateLinkText] does to a tracked edge with an attached label: the
    label stays on the stage and only its opacity changes, to [labelAlpha]. *)
Lemma updateLinkText_attached link tagNames s g t o :
  Map_get (keyOf link) (linksMap s) = Some g →
  pixiText g = Some t →
  t ∈ children s →
  heap s !! t = Some o →
  let s' := updateLinkText link tagNames s in
  children s' = children s
  ∧ linksMap s' = linksMap s
  ∧ heap s' !! t = Some (set_alpha (labelAlpha link tagNames) o).
Proof.
  intros Hg Ht Hin Ho. unfold updateLinkText, includes. rewrite Hg, Ht.
  rewrite bool_decide_true by done. simpl.
  by rewrite lookup_alter_eq, Ho.
Qed.

Lemma labelAlpha_hidden link : labelAlpha link false = 0%Q.
Proof. done. Qed.

Lemma labelAlpha_missing link :
  Node.text (source link) = None ∨ Node.text (target link) = None
  ∨ (∃ x, Node.text (source link) = Some x ∧ Node.alpha x = None)
  ∨ (∃ x, Node.text (target link) = Some x ∧ Node.alpha x = None) →
  labelAlpha link true = (9 # 10)%Q.
Proof.
  unfold labelAlpha, alphaMissing.
  intros [H|[H|[(x & H & Hx)|(x & H & Hx)]]]; rewrite H;
    repeat case_match; simplify_eq/=; try done;
    rewrite ?Hx in *; simpl in *; try done;
    by rewrite ?orb_true_r in *.
Qed.

Lemma labelAlpha_max link a b :
  Node.text (source link) = Some (Node.mkText (Some a)) →
  Node.text (target link) = Some (Node.mkText (Some b)) →
  ¬ (a == 0)%Q → ¬ (b == 0)%Q →
  labelAlpha link true = Math_max a b.
Proof.
  intros Hs Ht Ha Hb. unfold labelAlpha, alphaMissing, alphaOf. rewrite Hs, Ht. simpl.
  destruct (Qeq_bool b 0) eqn:Eb; [by apply Qeq_bool_iff in Eb|].
  destruct (Qeq_bool a 0) eqn:Ea; [by apply Qeq_bool_iff in Ea|]. done.
Qed.

(** C8, at the tracked edge A -> B with an attached label whose source label
    has opacity 0 and whose target label has opacity 1/2. Both opacities are
    available and the greater one is 1/2, but [updateLinkText] with visible
    labels sets the label's opacity to 0.9: the guard [!alpha] takes the
    opacity 0 for a missing one. *)
Theorem label_opacity_with_transparent_endpoint :
  let s := addLink resolveParent fadedEdge false true initial in
  let s' := updateLinkText fadedEdge true s in
  alphaMissing fadedEdge = true
  ∧ Math_max (alphaOf (source fadedEdge)) (alphaOf (target fadedEdge)) = (1 # 2)%Q
  ∧ pixiTextOf (Map_get (keyOf fadedEdge) (linksMap s)) = Some 0%nat
  ∧ includes 0%nat (children s) = true
  ∧ alpha <$> heap s' !! 0%nat = Some (9 # 10)%Q.
Proof. vm_compute. repeat split; reflexivity. Qed.

(** * Reconciliation *)

Lemma removeLinks_visit currentLinks s :
  removeLinks currentLinks s =
    fold_left (visit (λ key, bool_decide (key ∈ map keyOf currentLinks)))
      (Map_keys (linksMap s)) s.
Proof. reflexivity. Qed.

Lemma destroyMap_visit s :
  destroyMap s = fold_left (visit (λ _, false)) (Map_keys (linksMap s)) s.
Proof. reflexivity. Qed.

Lemma Map_keys_set_present {V} k (v v' : V) m :
  Map_get k m = Some v' → ∀ k', k' ∈ Map_keys (Map_set k v m) ↔ k' ∈ Map_keys m.
Proof.
  intros Hk k'. rewrite Map_keys_set. split; [|by right].
  intros [->|?]; [|done]. apply Map_get_keys. by eexists.
Qed.

Lemma removeLink_keys link s k :
  k ∈ Map_keys (linksMap (removeLink link s))
  ↔ k ∈ Map_keys (linksMap s) ∧ k ≠ keyOf link.
Proof.
  rewrite removeLink_linksMap. cbv zeta.
  assert (k ∈ Map_keys (Map_delete (keyOf link) (linksMap s))
          ↔ k ∈ Map_keys (linksMap s) ∧ k ≠ keyOf link) as Hdel.
  { rewrite Map_keys_delete, list_elem_of_filter. tauto. }
  destruct (Map_get (reverseKeyOf link) _) as [r|] eqn:Hr; [|done].
  case_decide; [|done]. by rewrite (Map_keys_set_present _ _ r).
Qed.

(** An entry that survives [removeLink] keeps its link and its elements. *)
Lemma removeLink_get link s k g :
  Map_get k (linksMap (removeLink link s)) = Some g →
  k ≠ keyOf link ∧ ∃ g0, Map_get k (linksMap s) = Some g0 ∧ sameEntry g g0.
Proof.
  rewrite removeLink_linksMap. cbv zeta. intros Hg.
  assert (k ≠ keyOf link) as Hne.
  { intros ->.
    assert (is_Some (Map_get (keyOf link)
                       (Map_delete (keyOf link) (linksMap s)))) as [x Hx];
      [|by rewrite Map_get_delete_eq in Hx].
    destruct (Map_get (reverseKeyOf link) _) as [r|] eqn:Hr; [|by eexists].
    case_decide; [|by eexists].
    destruct (decide (reverseKeyOf link = keyOf link)) as [Heq|Hneq].
    - rewrite Heq in Hr. by eexists.
    - rewrite Map_get_set_ne in Hg by done. by eexists. }
  split; [done|].
  destruct (Map_get (reverseKeyOf link) _) as [r|] eqn:Hr.
  - case_decide.
    + destruct (decide (reverseKeyOf link = k)) as [<-|Hneq].
      * rewrite Map_get_set_eq in Hg. injection Hg as <-.
        rewrite Map_get_delete_ne in Hr by done. by exists r.
      * rewrite Map_get_set_ne, Map_get_delete_ne in Hg by done. by exists g.
    + rewrite Map_get_delete_ne in Hg by done. by exists g.
  - rewrite Map_get_delete_ne in Hg by done. by exists g.
Qed.

Lemma removeLink_get_other link s k g0 :
  Map_get k (linksMap s) = Some g0 → k ≠ keyOf link →
  ∃ g, Map_get k (linksMap (removeLink link s)) = Some g ∧ sameEntry g g0.
Proof.
  intros Hg0 Hne.
  assert (is_Some (Map_get k (linksMap (removeLink link s)))) as [g Hg].
  { apply Map_get_keys, removeLink_keys. split; [|done].
    apply Map_get_keys. by eexists. }
  exists g. split; [done|].
  apply removeLink_get in Hg as (_ & g1 & Hg1 & Hsame). congruence.
Qed.

Lemma removeLink_keysConsistent link s :
  keysConsistent s → keysConsistent (removeLink link s).
Proof.
  intros Hs k g Hg. apply removeLink_get in Hg as (_ & g0 & Hg0 & Hlink & _).
  rewrite Hlink. by eapply Hs.
Qed.

Lemma detach_children_elem r s o :
  o ∈ children (detach r s) ↔ o ∈ children s ∧ o ≠ r.
Proof. rewrite detach_children, list_elem_of_filter. tauto. Qed.

Lemma release_children colorKey s o :
  o ∈ children (release colorKey s) → o ∈ children s.
Proof.
  unfold release. destruct (tagColors s !! colorKey) as [lg|]; [|done]. simpl.
  destruct (_ <? 1); [|done]. simpl.
  destruct (_ <? 0); simpl;
    rewrite !detach_children_elem; simpl; tauto.
Qed.

Lemma releaseText_children text s o :
  o ∈ children (releaseText text s) → o ∈ children s.
Proof.
  unfold releaseText. destruct text; [|done]. case_decide; [done|].
  apply release_children.
Qed.

(** [removeLink] only takes objects off the stage, and it takes off the
    elements of the entry it removes. *)
Lemma removeLink_children link s o :
  o ∈ children (removeLink link s) →
  o ∈ children s
  ∧ ∀ g, Map_get (keyOf link) (linksMap s) = Some g → ¬ ownedBy g o.
Proof.
  unfold removeLink.
  set (gl := Map_get (keyOf link) (linksMap s)).
  set (s1 := match pixiTextOf gl with Some text => detach text s | None => s end).
  set (s2 := match pixiGraphicsOf gl with Some g => detach g s1 | None => s1 end).
  set (s3 := releaseText _ s2).
  intros Ho.
  assert (o ∈ children s3) as Ho3.
  { revert Ho. cbv zeta. by repeat case_match. }
  clear Ho. subst s3. apply releaseText_children in Ho3.
  assert (o ∈ children s1 ∧ (∀ r, pixiGraphicsOf gl = Some r → o ≠ r)) as [Ho1 Hg].
  { subst s2. destruct (pixiGraphicsOf gl) as [r|]; [|done].
    apply detach_children_elem in Ho3 as [? ?]. split; [done|]. by intros ? [= <-]. }
  assert (o ∈ children s ∧ (∀ r, pixiTextOf gl = Some r → o ≠ r)) as [Ho0 Ht].
  { subst s1. destruct (pixiTextOf gl) as [r|]; [|done].
    apply detach_children_elem in Ho1 as [? ?]. split; [done|]. by intros ? [= <-]. }
  split; [done|]. intros g Hgl. subst gl. rewrite Hgl in *. simpl in *.
  intros [Hown|Hown]; [by eapply Ht|by eapply Hg].
Qed.

Lemma visit_keysConsistent skip s key :
  keysConsistent s → keysConsistent (visit skip s key).
Proof.
  intros Hs. unfold visit. repeat case_match; try done.
  by apply removeLink_keysConsistent.
Qed.

Lemma visit_keys skip s key k :
  keysConsistent s →
  k ∈ Map_keys (linksMap (visit skip s key))
  ↔ k ∈ Map_keys (linksMap s) ∧ ¬ (k = key ∧ skip key = false).
Proof.
  intros Hs. unfold visit.
  destruct (Map_get key (linksMap s)) as [g|] eqn:Hg.
  - destruct (skip key) eqn:Hskip.
    + split; [|tauto]. intros ?. split; [done|]. by intros [_ ?].
    + rewrite removeLink_keys, (Hs _ _ Hg). split; intros [? ?]; split; try done.
      * by intros [? _].
      * intros ->. tauto.
  - split; [|tauto]. intros Hk. split; [done|]. intros [-> _].
    apply Map_get_keys in Hk as [? Hk]. congruence.
Qed.

Lemma visit_children skip s key o :
  o ∈ children (visit skip s key) → o ∈ children s.
Proof.
  unfold visit. repeat case_match; try done. intros Ho.
  by apply removeLink_children in Ho as [? _].
Qed.

Lemma fold_visit_keysConsistent skip keys s :
  keysConsistent s → keysConsistent (fold_left (visit skip) keys s).
Proof.
  revert s. induction keys as [|key keys IH]; intros s Hs; [done|].
  simpl. by apply IH, visit_keysConsistent.
Qed.

Lemma fold_visit_keys skip keys s k :
  keysConsistent s →
  k ∈ Map_keys (linksMap (fold_left (visit skip) keys s))
  ↔ k ∈ Map_keys (linksMap s) ∧ ¬ (k ∈ keys ∧ skip k = false).
Proof.
  revert s. induction keys as [|key keys IH]; intros s Hs; simpl.
  - split; [|tauto]. intros ?. split; [done|]. by intros [?%elem_of_nil _].
  - rewrite IH by by apply visit_keysConsistent.
    rewrite visit_keys by done. rewrite elem_of_cons.
    split.
    + intros [[Hk Hkey] Hrest]. split; [done|].
      intros [[->|Hin] Hskip]; tauto.
    + intros [Hk Hn]. repeat split; [done| |].
      * intros [-> Hskip]. apply Hn. split; [by left|done].
      * intros [Hin Hskip]. apply Hn. split; [by right|done].
Qed.

Lemma fold_visit_children skip keys s o :
  o ∈ children (fold_left (visit skip) keys s) → o ∈ children s.
Proof.
  revert s. induction keys as [|key keys IH]; intros s; [done|].
  simpl. intros Ho. by eapply visit_children, IH.
Qed.

(** The elements of an entry that a [forEach] removes are off the stage
    afterwards. *)
Lemma fold_visit_detaches skip keys s k g o :
  keysConsistent s →
  Map_get k (linksMap s) = Some g → k ∈ keys → skip k = false →
  ownedBy g o →
  o ∉ children (fold_left (visit skip) keys s).
Proof.
  revert s g. induction keys as [|key keys IH]; intros s g Hs Hg Hin Hskip Hown.
  - by apply elem_of_nil in Hin.
  - simpl. destruct (decide (key = k)) as [->|Hne].
    + intros Ho%fold_visit_children. unfold visit in Ho.
      rewrite Hg, Hskip in Ho. apply removeLink_children in Ho as [_ Ho].
      eapply Ho; [|done]. by rewrite (Hs _ _ Hg).
    + apply elem_of_cons in Hin as [->|Hin]; [done|].
      assert (∃ g', Map_get k (linksMap (visit skip s key)) = Some g'
                    ∧ sameEntry g' g) as (g' & Hg' & Hsame).
      { unfold visit. destruct (Map_get key (linksMap s)) as [gk|] eqn:Hgk;
          [|by exists g].
        destruct (skip key); [by exists g|].
        apply removeLink_get_other; [done|]. by rewrite (Hs _ _ Hgk). }
      eapply (IH _ g'); try done; [by apply visit_keysConsistent|].
      destruct Hsame as (_ & Ht & Hgr). unfold ownedBy in *. by rewrite Ht, Hgr.
Qed.

(** An entry after [addLink] is the new one, under the key of the link, or an
    entry that was there, with its link and its elements. *)
Lemma addLink_get resolve link useTagColors tagLegend s k g :
  Map_get k (linksMap (addLink resolve link useTagColors tagLegend s)) = Some g →
  (k = keyOf link ∧ obsidianLink g = link)
  ∨ (∃ g0, Map_get k (linksMap s) = Some g0 ∧ sameEntry g g0).
Proof.
  destruct (addLink_linksMap resolve link useTagColors tagLegend s) as (t & gr & ->).
  cbv zeta.
  set (new := {| obsidianLink := link; pairStatus := _; pixiText := t;
                 pixiGraphics := gr |}).
  set (m := Map_set (keyOf link) new (linksMap s)).
  assert (∀ g', Map_get k m = Some g' →
                (k = keyOf link ∧ obsidianLink g' = link)
                ∨ (∃ g0, Map_get k (linksMap s) = Some g0 ∧ sameEntry g' g0)) as Hm.
  { intros g'. subst m. destruct (decide (keyOf link = k)) as [<-|Hne].
    - rewrite Map_get_set_eq. intros [= <-]. by left.
    - rewrite Map_get_set_ne by done. intros ?. right. by exists g'. }
  destruct (hasReverse link m); [|apply Hm].
  destruct (Map_get (reverseKeyOf link) m) as [r|] eqn:Hr; [|apply Hm].
  destruct (decide (reverseKeyOf link = k)) as [<-|Hne].
  - rewrite Map_get_set_eq. intros [= <-].
    destruct (Hm r Hr) as [[? ?]|(g0 & ? & (? & ? & ?))]; [by left|].
    right. by exists g0.
  - rewrite Map_get_set_ne by done. apply Hm.
Qed.

Lemma addLink_keysConsistent resolve link useTagColors tagLegend s :
  keysConsistent s →
  keysConsistent (addLink resolve link useTagColors tagLegend s).
Proof.
  intros Hs k g Hg.
  apply addLink_get in Hg as [[-> ->]|(g0 & Hg0 & Hlink & _)]; [done|].
  rewrite Hlink. by eapply Hs.
Qed.

Lemma addLink_keys resolve link useTagColors tagLegend s k :
  k ∈ Map_keys (linksMap (addLink resolve link useTagColors tagLegend s))
  ↔ k = keyOf link ∨ k ∈ Map_keys (linksMap s).
Proof.
  split.
  - intros [g Hg]%Map_get_keys.
    apply addLink_get in Hg as [[-> _]|(g0 & Hg0 & _)]; [by left|].
    right. apply Map_get_keys. by eexists.
  - rewrite <- !Map_has_keys. intros [->|Hk].
    + apply addLink_tracks.
    + by apply addLink_keeps.
Qed.

Lemma run_keysConsistent op s : keysConsistent s → keysConsistent (run s op).
Proof.
  intros Hs. destruct op; simpl.
  - by apply addLink_keysConsistent.
  - by apply removeLink_keysConsistent.
  - rewrite removeLinks_visit. by apply fold_visit_keysConsistent.
  - rewrite destroyMap_visit. by apply fold_visit_keysConsistent.
  - unfold keysConsistent. by rewrite updateLinkText_linksMap.
  - unfold keysConsistent. by rewrite updateLinkGraphics_linksMap.
Qed.

Lemma reachable_keysConsistent s : reachable s → keysConsistent s.
Proof.
  intros [ops <-]. unfold runAll.
  assert (keysConsistent initial) as Hinit by (intros k g Hg; discriminate).
  revert Hinit. generalize initial.
  induction ops as [|op ops IH]; intros s0 Hs0; [done|].
  simpl. by apply IH, run_keysConsistent.
Qed.

(** The tracked keys after the [forEach] over the live links of a tick that
    updates the map. *)
Lemma fold_updateLink_keys resolve settings links s calls k :
  k ∈ Map_keys (linksMap (fold_left (updateLink resolve settings true) links
                            (s, calls)).1)
  ↔ k ∈ Map_keys (linksMap s) ∨ k ∈ map keyOf links.
Proof.
  revert s calls. induction links as [|link links IH]; intros s calls.
  - simpl. split; [by left|]. by intros [?|?%elem_of_nil].
  - cbn [fold_left map].
    assert (∃ s1 calls1, updateLink resolve settings true (s, calls) link = (s1, calls1)
              ∧ ∀ k, k ∈ Map_keys (linksMap s1)
                     ↔ k = keyOf link ∨ k ∈ Map_keys (linksMap s))
      as (s1 & calls1 & -> & Hkeys).
    { unfold updateLink. cbn [andb].
      destruct (Map_has (keyOf link) (linksMap s)) eqn:Hhas; cbn [negb];
        destruct (GraphLinkTypesPluginSettings.tagColors settings); eexists _, _;
        (split; [reflexivity|]); intros k';
        rewrite ?updateLinkGraphics_linksMap, ?updateLinkText_linksMap,
          ?addLink_keys; try done.
      all: apply Map_has_keys in Hhas; split; [by right|by intros [->|?]]. }
    rewrite IH, Hkeys, elem_of_cons. tauto.
Qed.

(** C5, as stated, fails: [removeLinks] never adds an entry. Called on the
    initial manager with the live edge A -> B, it leaves the map empty, so
    the key "A-B" of the snapshot is omitted. *)
Lemma reconcile_omits_untracked_live_edges :
  let s := removeLinks [edge "A" "B"] initial in
  Map_keys (linksMap s) = []
  ∧ map keyOf [edge "A" "B"] = ["A-B"]
  ∧ ¬ (∀ k, k ∈ Map_keys (linksMap s) ↔ k ∈ map keyOf [edge "A" "B"]).
Proof.
  cbv zeta. split; [reflexivity|]. split; [reflexivity|].
  intros H. specialize (H "A-B"). simpl in H.
  assert ("A-B" ∈ @nil string) as Hin by (apply H; by left).
  by apply elem_of_nil in Hin.
Qed.

(** C5, amended. In every reachable state: after [removeLinks] with a
    snapshot, the tracked keys are exactly the previously tracked keys that
    occur in the snapshot (no extras; live edges that were not tracked are
    not added), and the label and the indicator of every removed entry are
    off the stage; after the whole structural sync of a tick ([removeLinks],
    then [addLink] for every live edge whose key is not tracked), the tracked
    keys are exactly the keys of the snapshot. *)
Theorem reconciliation resolve settings animationFrameId links s :
  reachable s →
  isUpdateMapFrame animationFrameId = true →
  let reconciled := removeLinks links s in
  let synced := (updatePositions resolve settings animationFrameId links s).1 in
  (∀ k, k ∈ Map_keys (linksMap reconciled)
        ↔ k ∈ Map_keys (linksMap s) ∧ k ∈ map keyOf links)
  ∧ (∀ k g o, Map_get k (linksMap s) = Some g → k ∉ map keyOf links →
              ownedBy g o → o ∉ children reconciled)
  ∧ (∀ k, k ∈ Map_keys (linksMap synced) ↔ k ∈ map keyOf links).
Proof.
  intros Hs%reachable_keysConsistent Hframe reconciled synced.
  assert (∀ k, k ∈ Map_keys (linksMap reconciled)
               ↔ k ∈ Map_keys (linksMap s) ∧ k ∈ map keyOf links) as Hrec.
  { intros k. subst reconciled. rewrite removeLinks_visit, fold_visit_keys by done.
    split.
    - intros [Hk Hn]. split; [done|].
      destruct (decide (k ∈ map keyOf links)) as [|Hnin]; [done|].
      exfalso. apply Hn. split; [done|]. by apply bool_decide_eq_false.
    - intros [Hk Hin]. split; [done|]. intros [_ Hb].
      by apply bool_decide_eq_false in Hb. }
  split; [done|]. split.
  - intros k g o Hg Hnin Hown. subst reconciled. rewrite removeLinks_visit.
    eapply fold_visit_detaches; try done.
    + apply Map_get_keys. by eexists.
    + by apply bool_decide_eq_false.
  - intros k. subst synced. unfold updatePositions. rewrite Hframe.
    rewrite fold_updateLink_keys. fold reconciled. rewrite Hrec. tauto.
Qed.

Lemma reconciliation_witness :
  let s := addLink resolveParent (edge "B" "C") true true
             (addLink resolveParent (edge "A" "B") true true initial) in
  let links := [edge "B" "C"; edge "C" "D"] in
  let reconciled := removeLinks links s in
  let synced := (updatePositions resolveParent allOn (Some 10) links s).1 in
  (∀ k, k ∈ Map_keys (linksMap reconciled)
        ↔ k ∈ Map_keys (linksMap s) ∧ k ∈ map keyOf links)
  ∧ (∀ k g o, Map_get k (linksMap s) = Some g → k ∉ map keyOf links →
              ownedBy g o → o ∉ children reconciled)
  ∧ (∀ k, k ∈ Map_keys (linksMap synced) ↔ k ∈ map keyOf links).
Proof.
  apply (reconciliation resolveParent allOn (Some 10)
           [edge "B" "C"; edge "C" "D"]).
  - exists [OpAddLink resolveParent (edge "A" "B") true true;
            OpAddLink resolveParent (edge "B" "C") true true].
    reflexivity.
  - reflexivity.
Defined.

(** * Removing an absent identity, and removing twice *)

Lemma with_linksMap_id s : with_linksMap (linksMap s) s = s.
Proof. by destruct s. Qed.

(** [removeLink] on an untracked identity changes nothing when the entry
    under the reverse key is absent or has pair status [None]. *)
Lemma removeLink_absent_noop link s :
  Map_get (keyOf link) (linksMap s) = None →
  (∀ r, Map_get (reverseKeyOf link) (linksMap s) = Some r →
        pairStatus r = LinkPair.None) →
  removeLink link s = s.
Proof.
  intros Habs Hrev. unfold removeLink. rewrite Habs. simpl.
  rewrite Map_delete_absent by done. rewrite with_linksMap_id.
  destruct (Map_get (reverseKeyOf link) (linksMap s)) as [r|] eqn:Hr; [|done].
  case_decide as Hp; [|done]. by rewrite (Hrev r eq_refl) in Hp.
Qed.

Lemma removeLink_reverse_status link s r :
  Map_get (reverseKeyOf link) (linksMap (removeLink link s)) = Some r →
  pairStatus r = LinkPair.None.
Proof.
  rewrite removeLink_linksMap. cbv zeta.
  destruct (Map_get (reverseKeyOf link) (Map_delete _ _)) as [r0|] eqn:Hr0.
  - case_decide as Hp.
    + rewrite Map_get_set_eq. by intros [= <-].
    + rewrite Hr0. intros [= <-]. by destruct (pairStatus r0).
  - by rewrite Hr0.
Qed.

(** Removing the same identity a second time changes nothing, in any state:
    the overlay, the legend state and the map are touched by the first call
    only. *)
Theorem removeLink_idempotent link s :
  removeLink link (removeLink link s) = removeLink link s.
Proof.
  apply removeLink_absent_noop.
  - destruct (Map_get (keyOf link) (linksMap (removeLink link s))) as [g|] eqn:Hg;
      [|done].
    by apply removeLink_get in Hg as [? _].
  - apply removeLink_reverse_status.
Qed.

(** * Mirror pairs whose keys do not collide *)

Lemma mirror_pair_linksMap (A B : string) (ta tb tb' ta' : option Node.text_t)
    r1 r2 (tc1 tl1 tc2 tl2 : bool) :
  A ≠ B → generateKey A B ≠ generateKey B A →
  let l1 := mkLink (Node.mk A ta) (Node.mk B tb) in
  let l2 := mkLink (Node.mk B tb') (Node.mk A ta') in
  ∃ t1 g1 t2 g2,
    linksMap (addLink r2 l2 tc2 tl2 (addLink r1 l1 tc1 tl1 initial)) =
      [ (generateKey A B, mkGltLink l1 LinkPair.First t1 g1);
        (generateKey B A, mkGltLink l2 LinkPair.Second t2 g2) ].
Proof.
  intros HAB Hkeys l1 l2.
  destruct (addLink_linksMap r2 l2 tc2 tl2 (addLink r1 l1 tc1 tl1 initial))
    as (t2 & g2 & ->).
  destruct (addLink_linksMap r1 l1 tc1 tl1 initial) as (t1 & g1 & ->).
  exists t1, g1, t2, g2.
  unfold hasReverse, Map_has, keyOf, reverseKeyOf. simpl.
  repeat (rewrite ?bool_decide_true, ?(decide_True (P := _ = _)),
            ?(decide_False (P := generateKey A B = generateKey B A)),
            ?(decide_False (P := generateKey B A = generateKey A B))
            by congruence; simpl).
  done.
Qed.

(** Identity symmetry when the two directions have different keys: from the
    initial manager, adding A -> B and then B -> A leaves exactly the entry
    of A -> B marked [First] and exactly the entry of B -> A marked [Second];
    removing either one leaves the other tracked with pair status [None]. *)
Theorem mirror_pair_without_collision (A B : string)
    (ta tb tb' ta' : option Node.text_t) r1 r2 (tc1 tl1 tc2 tl2 : bool) :
  A ≠ B → generateKey A B ≠ generateKey B A →
  let l1 := mkLink (Node.mk A ta) (Node.mk B tb) in
  let l2 := mkLink (Node.mk B tb') (Node.mk A ta') in
  let s2 := addLink r2 l2 tc2 tl2 (addLink r1 l1 tc1 tl1 initial) in
  keysWithStatus LinkPair.First s2 = [generateKey A B]
  ∧ keysWithStatus LinkPair.Second s2 = [generateKey B A]
  ∧ Map_keys (linksMap s2) = [generateKey A B; generateKey B A]
  ∧ Map_keys (linksMap (removeLink l1 s2)) = [generateKey B A]
  ∧ getLinkPairStatus (generateKey B A) (removeLink l1 s2) = LinkPair.None
  ∧ Map_keys (linksMap (removeLink l2 s2)) = [generateKey A B]
  ∧ getLinkPairStatus (generateKey A B) (removeLink l2 s2) = LinkPair.None.
Proof.
  intros HAB Hkeys l1 l2 s2.
  destruct (mirror_pair_linksMap A B ta tb tb' ta' r1 r2 tc1 tl1 tc2 tl2 HAB Hkeys)
    as (t1 & g1 & t2 & g2 & Hmap).
  fold l1 l2 s2 in Hmap.
  unfold keysWithStatus, getLinkPairStatus. rewrite !removeLink_linksMap, Hmap.
  unfold keyOf, reverseKeyOf. simpl.
  repeat (rewrite ?(decide_True (P := _ = _)),
            ?(decide_False (P := generateKey A B = generateKey B A)),
            ?(decide_False (P := generateKey B A = generateKey A B))
            by congruence; simpl).
  repeat split; reflexivity.
Qed.

Lemma mirror_pair_without_collision_witness :
  let s2 := addLink resolveParent (edge "B" "A") true true
              (addLink resolveParent (edge "A" "B") true true initial) in
  keysWithStatus LinkPair.First s2 = ["A-B"]
  ∧ keysWithStatus LinkPair.Second s2 = ["B-A"]
  ∧ Map_keys (linksMap s2) = ["A-B"; "B-A"]
  ∧ Map_keys (linksMap (removeLink (edge "A" "B") s2)) = ["B-A"]
  ∧ getLinkPairStatus "B-A" (removeLink (edge "A" "B") s2) = LinkPair.None
  ∧ Map_keys (linksMap (removeLink (edge "B" "A") s2)) = ["A-B"]
  ∧ getLinkPairStatus "A-B" (removeLink (edge "B" "A") s2) = LinkPair.None.
Proof.
  apply (mirror_pair_without_collision "A" "B" _ _ _ _
           resolveParent resolveParent true true true true); discriminate.
Defined.

(** * The mirror invariant for ids without the separator *)

Lemma generateKey_inj a b c d :
  dashFree a → dashFree c → generateKey a b = generateKey c d → a = c ∧ b = d.
Proof.
  unfold generateKey, dashFree. revert c.
  induction a as [|x a IH]; intros [|y c] Ha Hc; cbn [String.append list_ascii_of_string] in *.
  - intros Heq. injection Heq as Heq. by subst.
  - intros Heq. injection Heq as Hy _. exfalso. apply Hc. rewrite <- Hy. by left.
  - intros Heq. injection Heq as Hx _. exfalso. apply Ha. rewrite Hx. by left.
  - intros Heq. injection Heq as Hxy Heq.
    apply not_elem_of_cons in Ha as [_ Ha]. apply not_elem_of_cons in Hc as [_ Hc].
    destruct (IH c Ha Hc Heq) as [Hac Hbd]. by subst.
Qed.

(** A link stored under the reverse key of [link] is the reverse of [link]:
    its own reverse key is the key of [link]. *)
Lemma reverse_of_reverse link link' :
  linkDashFree link → linkDashFree link' →
  keyOf link' = reverseKeyOf link → reverseKeyOf link' = keyOf link.
Proof.
  intros [Hs Ht] [Hs' Ht']. unfold keyOf, reverseKeyOf. intros Heq.
  apply generateKey_inj in Heq as [-> ->]; done.
Qed.

Lemma addLink_get_status resolve link useTagColors tagLegend s k g :
  Map_get k (linksMap (addLink resolve link useTagColors tagLegend s)) = Some g →
  (k = keyOf link ∧ obsidianLink g = link
   ∧ (pairStatus g = LinkPair.Second → Map_has (reverseKeyOf link) (linksMap s) = true)
   ∧ (pairStatus g = LinkPair.First → reverseKeyOf link = keyOf link))
  ∨ (k ≠ keyOf link
     ∧ ∃ g0, Map_get k (linksMap s) = Some g0 ∧ obsidianLink g = obsidianLink g0
             ∧ (pairStatus g = pairStatus g0
                ∨ (k = reverseKeyOf link ∧ pairStatus g = LinkPair.First))).
Proof.
  destruct (addLink_linksMap resolve link useTagColors tagLegend s) as (t & gr & ->).
  cbv zeta.
  set (new := {| obsidianLink := link; pairStatus := _; pixiText := t;
                 pixiGraphics := gr |}).
  set (m := Map_set (keyOf link) new (linksMap s)).
  assert (∀ g', Map_get k m = Some g' →
            (k = keyOf link ∧ g' = new)
            ∨ (k ≠ keyOf link ∧ Map_get k (linksMap s) = Some g')) as Hm.
  { intros g'. subst m. destruct (decide (keyOf link = k)) as [<-|Hne].
    - rewrite Map_get_set_eq. intros [= <-]. by left.
    - rewrite Map_get_set_ne by done. intros ?. right. split; [congruence|done]. }
  assert (pairStatus new = LinkPair.Second →
          Map_has (reverseKeyOf link) (linksMap s) = true) as Hsecond.
  { subst new. simpl. unfold hasReverse.
    destruct (bool_decide _); simpl; [|done].
    by destruct (Map_has (reverseKeyOf link) (linksMap s)). }
  assert (pairStatus new ≠ LinkPair.First) as Hnotfirst.
  { subst new. simpl. by destruct (hasReverse link (linksMap s)). }
  assert (∀ g', Map_get k m = Some g' →
            (k = keyOf link ∧ obsidianLink g' = link
             ∧ (pairStatus g' = LinkPair.Second →
                Map_has (reverseKeyOf link) (linksMap s) = true)
             ∧ (pairStatus g' = LinkPair.First → reverseKeyOf link = keyOf link))
            ∨ (k ≠ keyOf link
               ∧ ∃ g0, Map_get k (linksMap s) = Some g0
                       ∧ obsidianLink g' = obsidianLink g0
                       ∧ (pairStatus g' = pairStatus g0
                          ∨ (k = reverseKeyOf link
                             ∧ pairStatus g' = LinkPair.First)))) as Hm'.
  { intros g' Hg'. destruct (Hm g' Hg') as [[-> ->]|[Hne Hg0]].
    - left. repeat split; try done; intros ?; by destruct Hnotfirst.
    - right. split; [done|]. exists g'. repeat split; try done; by left. }
  destruct (hasReverse link m); [|apply Hm'].
  destruct (Map_get (reverseKeyOf link) m) as [r|] eqn:Hr; [|apply Hm'].
  destruct (decide (reverseKeyOf link = k)) as [<-|Hne].
  - rewrite Map_get_set_eq. intros [= <-]. simpl.
    destruct (Hm r Hr) as [[Heq ->]|[Hne Hg0]].
    + left. repeat split; try done.
    + right. split; [done|]. exists r. repeat split; try done. by right.
  - rewrite Map_get_set_ne by done. apply Hm'.
Qed.

Lemma removeLink_get_status link s k g :
  Map_get k (linksMap (removeLink link s)) = Some g →
  pairStatus g ≠ LinkPair.None →
  k ≠ keyOf link ∧ k ≠ reverseKeyOf link ∧ Map_get k (linksMap s) = Some g.
Proof.
  intros Hg Hp.
  assert (k ≠ keyOf link) as Hne by by apply removeLink_get in Hg as [? _].
  assert (k ≠ reverseKeyOf link) as Hne'.
  { intros ->. by apply removeLink_reverse_status in Hg. }
  repeat split; try done.
  rewrite removeLink_linksMap in Hg. cbv zeta in Hg.
  destruct (Map_get (reverseKeyOf link) _) as [r|] eqn:Hr.
  - case_decide.
    + by rewrite Map_get_set_ne, Map_get_delete_ne in Hg.
    + by rewrite Map_get_delete_ne in Hg.
  - by rewrite Map_get_delete_ne in Hg.
Qed.

Lemma addLink_pairInvariant resolve link useTagColors tagLegend s :
  linkDashFree link → pairInvariant s →
  pairInvariant (addLink resolve link useTagColors tagLegend s).
Proof.
  intros Hlink (Hkeys & Hdash & Hmirror). split; [|split].
  - by apply addLink_keysConsistent.
  - intros k g Hg.
    apply addLink_get in Hg as [[_ ->]|(g0 & Hg0 & -> & _)]; [done|].
    by eapply Hdash.
  - intros k g Hg Hp.
    apply addLink_get_status in Hg
      as [(-> & Hl & Hsecond & Hfirst)|(Hne & g0 & Hg0 & Hl & Hstatus)].
    + rewrite Hl. destruct (pairStatus g) eqn:Hst; [done| |].
      * rewrite Hfirst by done. apply addLink_tracks.
      * apply addLink_keeps. by apply Hsecond.
    + rewrite Hl. destruct Hstatus as [Hsame|[-> Hfirst]].
      * apply addLink_keeps. eapply Hmirror; [done|]. by rewrite <- Hsame.
      * rewrite (reverse_of_reverse link (obsidianLink g0)); try done.
        -- apply addLink_tracks.
        -- by eapply Hdash.
        -- by eapply Hkeys.
Qed.

Lemma removeLink_entriesDashFree link s :
  entriesDashFree s → entriesDashFree (removeLink link s).
Proof.
  intros Hs k g Hg. apply removeLink_get in Hg as (_ & g0 & Hg0 & -> & _).
  by eapply Hs.
Qed.

Lemma removeLink_pairInvariant link s :
  linkDashFree link → pairInvariant s → pairInvariant (removeLink link s).
Proof.
  intros Hlink (Hkeys & Hdash & Hmirror). split; [|split].
  - by apply removeLink_keysConsistent.
  - by apply removeLink_entriesDashFree.
  - intros k g Hg Hp.
    apply removeLink_get_status in Hg as (Hne & Hne' & Hg0); [|done].
    apply Map_has_keys, removeLink_keys. split.
    + apply Map_has_keys. by eapply Hmirror.
    + intros Heq. apply Hne'. rewrite <- (Hkeys _ _ Hg0).
      symmetry. apply reverse_of_reverse; [by eapply Hdash|done|].
      unfold keyOf, reverseKeyOf in *.
      destruct Hlink as [Hs Ht]. destruct (Hdash _ _ Hg0) as [Hs0 Ht0].
      apply generateKey_inj in Heq as [-> ->]; done.
Qed.

Lemma visit_pairInvariant skip s key :
  pairInvariant s → pairInvariant (visit skip s key).
Proof.
  intros Hs. unfold visit.
  destruct (Map_get key (linksMap s)) as [g|] eqn:Hg; [|done].
  destruct (skip key); [done|].
  apply removeLink_pairInvariant; [|done].
  destruct Hs as (_ & Hdash & _). by eapply Hdash.
Qed.

Lemma fold_visit_pairInvariant skip keys s :
  pairInvariant s → pairInvariant (fold_left (visit skip) keys s).
Proof.
  revert s. induction keys as [|key keys IH]; intros s Hs; [done|].
  simpl. by apply IH, visit_pairInvariant.
Qed.

Lemma run_pairInvariant op s :
  opDashFree op → pairInvariant s → pairInvariant (run s op).
Proof.
  intros Hop Hs. destruct op; simpl in *.
  - by apply addLink_pairInvariant.
  - by apply removeLink_pairInvariant.
  - rewrite removeLinks_visit. by apply fold_visit_pairInvariant.
  - rewrite destroyMap_visit. by apply fold_visit_pairInvariant.
  - unfold pairInvariant, keysConsistent, entriesDashFree, mirrorsTracked in *.
    by rewrite updateLinkText_linksMap.
  - unfold pairInvariant, keysConsistent, entriesDashFree, mirrorsTracked in *.
    by rewrite updateLinkGraphics_linksMap.
Qed.

Lemma runAll_pairInvariant ops s :
  Forall opDashFree ops → pairInvariant s → pairInvariant (runAll ops s).
Proof.
  unfold runAll. revert s. induction ops as [|op ops IH]; intros s Hops Hs; [done|].
  apply Forall_cons in Hops as [Hop Hops]. simpl.
  by apply IH, run_pairInvariant.
Qed.

Lemma initial_pairInvariant : pairInvariant initial.
Proof. split; [|split]; intros k g Hg; discriminate. Qed.

(** With ids that do not contain the separator, every state reached by
    [addLink], [removeLink], [removeLinks], [destroyMap] and the refreshing
    operations keeps the mirror of every [First] or [Second] entry tracked. *)
Theorem mirrors_tracked_without_separator ops :
  Forall opDashFree ops → mirrorsTracked (runAll ops initial).
Proof.
  intros Hops.
  by destruct (runAll_pairInvariant ops initial Hops initial_pairInvariant)
    as (_ & _ & ?).
Qed.

(** With ids that do not contain the separator, [removeLink] on an identity
    that is not tracked leaves the whole state unchanged. *)
Theorem removeLink_untracked_noop ops link :
  Forall opDashFree ops → linkDashFree link →
  Map_has (keyOf link) (linksMap (runAll ops initial)) = false →
  removeLink link (runAll ops initial) = runAll ops initial.
Proof.
  intros Hops Hlink Habs.
  destruct (runAll_pairInvariant ops initial Hops initial_pairInvariant)
    as (Hkeys & Hdash & Hmirror).
  apply removeLink_absent_noop; [by apply Map_has_false|].
  intros r Hr. destruct (decide (pairStatus r = LinkPair.None)) as [|Hp]; [done|].
  exfalso. pose proof (Hmirror _ _ Hr Hp) as Htracked.
  rewrite (reverse_of_reverse link (obsidianLink r)) in Htracked; try done.
  - congruence.
  - by eapply Hdash.
  - by eapply Hkeys.
Qed.

Lemma mirrors_tracked_without_separator_witness :
  mirrorsTracked
    (runAll [OpAddLink resolveParent (edge "A" "B") true true;
             OpAddLink resolveParent (edge "B" "A") true true;
             OpRemoveLink (edge "A" "B")] initial).
Proof.
  apply mirrors_tracked_without_separator.
  repeat constructor; apply (bool_decide_unpack _); by vm_compute.
Defined.

Lemma removeLink_untracked_noop_witness :
  let s := runAll [OpAddLink resolveParent (edge "A" "B") true true] initial in
  removeLink (edge "B" "A") s = s.
Proof.
  apply (removeLink_untracked_noop
           [OpAddLink resolveParent (edge "A" "B") true true] (edge "B" "A")).
  - repeat constructor; apply (bool_decide_unpack _); by vm_compute.
  - split; apply (bool_decide_unpack _); by vm_compute.
  - reflexivity.
Defined.

(** * The palette cursor stays inside the palette *)

Lemma acquire_cursorInPalette label tagLegend s :
  cursorInPalette s → cursorInPalette (acquire label tagLegend s).2.
Proof.
  unfold cursorInPalette. intros Hs.
  destruct (tagColors s !! label) as [lg|] eqn:Hl.
  - pose proof (acquire_present label tagLegend s lg Hl) as H.
    injection H as _ -> _. done.
  - pose proof (acquire_fresh label tagLegend s Hl) as H.
    injection H as _ -> _. simpl in *.
    pose proof (Z.rem_bound_pos (currentTagColorIndex s + 1) 20). lia.
Qed.

Lemma release_cursorInPalette colorKey s :
  cursorInPalette s → cursorInPalette (release colorKey s).
Proof.
  unfold cursorInPalette. intros Hs.
  destruct (tagColors s !! colorKey) as [lg|] eqn:Hl;
    [|by rewrite release_absent].
  destruct (Z.lt_ge_cases (nUsing lg - 1) 1) as [Hlast|Hmore].
  - pose proof (release_reclaim colorKey s lg Hl Hlast) as H.
    injection H as _ -> _. unfold rollBack. simpl in *.
    destruct (Z.ltb_spec (currentTagColorIndex s - 1) 0); lia.
  - pose proof (release_keep colorKey s lg Hl Hmore) as H.
    injection H as _ -> _. done.
Qed.

Lemma addLink_cursorInPalette resolve link useTagColors tagLegend s :
  cursorInPalette s → cursorInPalette (addLink resolve link useTagColors tagLegend s).
Proof.
  intros Hs. unfold addLink.
  set (p := if hasReverse link (linksMap s) then LinkPair.Second else LinkPair.None).
  assert (cursorInPalette (initializeLinkText resolve link p s).2) as H1.
  { destruct (resolve (Node.id (source link)) (Node.id (target link)))
      as [str|] eqn:Hres.
    - destruct (initializeLinkText_Some resolve link p s str Hres)
        as (s1 & -> & Hleg & _). injection Hleg as _ Hc _.
      unfold cursorInPalette. simpl. by rewrite Hc.
    - by rewrite initializeLinkText_None. }
  destruct (initializeLinkText resolve link p s) as [t s1]. simpl in H1.
  assert (cursorInPalette (initializeLinkGraphics resolve link tagLegend s1).2) as H2.
  { unfold initializeLinkGraphics.
    destruct (resolve _ _) as [str|]; [|done].
    pose proof (acquire_cursorInPalette str tagLegend s1 H1) as Ha.
    destruct (decide _); [|destruct (acquire str tagLegend s1) as [c s2]];
      simpl in *;
      match goal with
      | |- context [updateLinkGraphics ?l ?s0] =>
          destruct (updateLinkGraphics_frame l s0) as [h ->]
      end; done. }
  destruct useTagColors.
  - destruct (initializeLinkGraphics resolve link tagLegend s1) as [g s2].
    simpl in *. unfold cursorInPalette in *. by repeat case_match.
  - simpl. unfold cursorInPalette in *. by repeat case_match.
Qed.

Lemma removeLink_cursorInPalette link s :
  cursorInPalette s → cursorInPalette (removeLink link s).
Proof.
  intros Hs. unfold removeLink.
  set (gl := Map_get (keyOf link) (linksMap s)).
  set (s1 := match pixiTextOf gl with Some text => detach text s | None => s end).
  assert (cursorInPalette s1) as H1.
  { subst s1. destruct (pixiTextOf gl) as [o|]; [|done].
    by destruct (detach_frame o s) as [h ->]. }
  set (s2 := match pixiGraphicsOf gl with Some g => detach g s1 | None => s1 end).
  assert (cursorInPalette s2) as H2.
  { subst s2. destruct (pixiGraphicsOf gl) as [o|]; [|done].
    by destruct (detach_frame o s1) as [h ->]. }
  set (s3 := releaseText _ s2).
  assert (cursorInPalette s3) as H3.
  { subst s3. unfold releaseText.
    destruct (match pixiTextOf gl with Some text => textOf text s2 | None => None end);
      [|done].
    case_decide; [done|]. by apply release_cursorInPalette. }
  cbv zeta. unfold cursorInPalette in *. by repeat case_match.
Qed.

Lemma fold_visit_cursorInPalette skip keys s :
  cursorInPalette s → cursorInPalette (fold_left (visit skip) keys s).
Proof.
  revert s. induction keys as [|key keys IH]; intros s Hs; [done|].
  simpl. apply IH. unfold visit. repeat case_match; try done.
  by apply removeLink_cursorInPalette.
Qed.

(** In every reachable state the palette cursor is an index of the palette. *)
Lemma reachable_cursorInPalette s : reachable s → cursorInPalette s.
Proof.
  intros [ops <-]. unfold runAll.
  assert (cursorInPalette initial) as Hinit by (unfold cursorInPalette; simpl; lia).
  revert Hinit. generalize initial.
  induction ops as [|op ops IH]; intros s0 Hs0; [done|].
  simpl. apply IH. destruct op; simpl.
  - by apply addLink_cursorInPalette.
  - by apply removeLink_cursorInPalette.
  - rewrite removeLinks_visit. by apply fold_visit_cursorInPalette.
  - rewrite destroyMap_visit. by apply fold_visit_cursorInPalette.
  - by destruct (updateLinkText_frame link tagNames s0) as [h ->].
  - by destruct (updateLinkGraphics_frame link s0) as [h ->].
Qed.

(** * Ticks stay among the reachable states *)

Lemma reachable_run op s : reachable s → reachable (run s op).
Proof.
  intros [ops <-]. exists (ops ++ [op])%list. unfold runAll.
  by rewrite fold_left_app.
Qed.

Lemma reachable_updateLink resolve settings updateMap s calls link :
  reachable s →
  reachable (updateLink resolve settings updateMap (s, calls) link).1.
Proof.
  intros Hs. unfold updateLink.
  set (tc := GraphLinkTypesPluginSettings.tagColors settings).
  set (tl := GraphLinkTypesPluginSettings.tagLegend settings).
  set (tn := GraphLinkTypesPluginSettings.tagNames settings).
  assert (reachable (addLink resolve link tc tl s)) as Hadd
    by apply (reachable_run (OpAddLink resolve link tc tl) s Hs).
  destruct (updateMap && negb (Map_has (keyOf link) (linksMap s)));
    destruct tc; simpl.
  - apply (reachable_run (OpUpdateLinkGraphics link)).
    by apply (reachable_run (OpUpdateLinkText link tn)).
  - by apply (reachable_run (OpUpdateLinkText link tn)).
  - apply (reachable_run (OpUpdateLinkGraphics link)).
    by apply (reachable_run (OpUpdateLinkText link tn)).
  - by apply (reachable_run (OpUpdateLinkText link tn)).
Qed.

(** The state after a tick of the update loop is reachable, so the
    properties of reachable states hold after every sequence of ticks. *)
Lemma reachable_updatePositions resolve settings animationFrameId links s :
  reachable s →
  reachable (updatePositions resolve settings animationFrameId links s).1.
Proof.
  intros Hs. unfold updatePositions.
  set (updateMap := isUpdateMapFrame animationFrameId).
  assert (∀ acc, reachable acc.1 →
                 reachable (fold_left (updateLink resolve settings updateMap)
                              links acc).1) as Hfold.
  { induction links as [|link links IH]; intros [s0 calls] Hacc; [done|].
    simpl. apply IH. by apply reachable_updateLink. }
  apply Hfold. destruct updateMap; [|done].
  apply (reachable_run (OpRemoveLinks links) s Hs).
Qed.

(** * The Dataview lookup *)

Lemma pathIs_spec targetId value :
  pathIs targetId value = true
  ↔ ∃ props, value = JsObject props
             ∧ Map_get "path" props = Some (JsString targetId).
Proof.
  unfold pathIs. split.
  - destruct value as [| |?| |props|?]; try done.
    destruct (Map_get "path" props) as [[| |path| |?|?]|] eqn:Hp; try done.
    intros ->%bool_decide_eq_true. by exists props.
  - intros (props & -> & ->). by apply bool_decide_eq_true.
Qed.

Lemma itemMatches_spec extractLinks targetId item :
  itemMatches extractLinks targetId item = true
  ↔ itemLinksTo extractLinks targetId item.
Proof.
  unfold itemMatches, itemLinksTo. rewrite orb_true_iff, andb_true_iff. split.
  - intros [[_ Hp]|Hm].
    + left. by apply pathIs_spec.
    + right. destruct item as [| |str| |?|?]; try done.
      apply andb_true_iff in Hm as [Ht Hx].
      apply bool_decide_eq_true in Ht, Hx. exists str. split; [done|].
      split; [|done]. simpl in Ht. by destruct (String_includes "](" str).
  - intros [(props & -> & Hp)|(str & -> & Hinc & Hx)].
    + left. split.
      * apply bool_decide_eq_true. simpl. unfold Map_has. by rewrite Hp.
      * apply pathIs_spec. by exists props.
    + right. apply andb_true_iff. split; apply bool_decide_eq_true; [|done].
      simpl. by rewrite Hinc.
Qed.

Lemma fieldMatches_spec extractLinks targetId value :
  fieldMatches extractLinks targetId value = true
  ↔ valueLinksTo extractLinks targetId value.
Proof.
  unfold fieldMatches, valueLinksTo. split.
  - destruct value as [| |str| |props|items]; simpl; try done.
    + destruct (String_includes "](" str) eqn:Hinc; [|done].
      intros Hx%bool_decide_eq_true. left. right. by exists str.
    + destruct (Map_has "path" props); [|done].
      intros Hp. left. left. by apply pathIs_spec.
    + intros (item & Hin & Hm)%existsb_exists. right. exists items, item.
      split; [done|]. split; [by apply list_elem_of_In|].
      by apply itemMatches_spec.
  - intros [[(props & -> & Hp)|(str & -> & Hinc & Hx)]
           |(items & item & -> & Hin & Hm)]; simpl.
    + unfold Map_has. rewrite Hp. by apply bool_decide_eq_true.
    + rewrite Hinc. by apply bool_decide_eq_true.
    + apply existsb_exists. exists item. split; [by apply list_elem_of_In|].
      by apply itemMatches_spec.
Qed.

Lemma valueLinksTo_not_empty extractLinks targetId value :
  valueLinksTo extractLinks targetId value → isEmptyValue value = false.
Proof.
  intros [[(props & -> & _)|(str & -> & Hinc & _)]|(items & item & -> & _)];
    try done.
  simpl. apply bool_decide_eq_false. by intros ->.
Qed.

Lemma searchEntries_Some extractLinks targetId entries key :
  searchEntries extractLinks targetId entries = Some key
  ↔ ∃ pre value post,
      entries = (pre ++ (key, value) :: post)%list
      ∧ valueLinksTo extractLinks targetId value
      ∧ ∀ k v, (k, v) ∈ pre → ¬ valueLinksTo extractLinks targetId v.
Proof.
  induction entries as [|[k v] entries IH]; simpl.
  - split; [done|]. intros (pre & value & post & Heq & _). by destruct pre.
  - assert (searchEntries extractLinks targetId entries = Some key
            → ¬ valueLinksTo extractLinks targetId v
            → ∃ pre value post,
                (k, v) :: entries = (pre ++ (key, value) :: post)%list
                ∧ valueLinksTo extractLinks targetId value
                ∧ ∀ k' v', (k', v') ∈ pre
                           → ¬ valueLinksTo extractLinks targetId v') as Hskip.
    { intros (pre & value & post & -> & Hv & Hpre)%IH Hn.
      exists ((k, v) :: pre), value, post. repeat split; try done.
      intros k' v' [[= -> ->]|Hin]%elem_of_cons; [done|]. by eapply Hpre. }
    split.
    + destruct (isEmptyValue v) eqn:Hempty.
      * intros Hs. apply Hskip; [done|].
        intros Hv%valueLinksTo_not_empty. congruence.
      * destruct (fieldMatches extractLinks targetId v) eqn:Hm.
        -- intros [= ->]. exists [], v, entries. repeat split; try done.
           ++ by apply fieldMatches_spec.
           ++ by intros k' v' ?%elem_of_nil.
        -- intros Hs. apply Hskip; [done|].
           intros Hv%fieldMatches_spec. congruence.
    + intros (pre & value & post & Heq & Hv & Hpre).
      destruct pre as [|[k0 v0] pre]; simpl in Heq; injection Heq as -> -> ->.
      * rewrite (valueLinksTo_not_empty _ _ _ Hv).
        apply fieldMatches_spec in Hv. by rewrite Hv.
      * assert (¬ valueLinksTo extractLinks targetId v0) as Hn
          by (eapply Hpre; by left).
        assert (searchEntries extractLinks targetId
                  (pre ++ (key, value) :: post) = Some key) as Hrest.
        { apply IH. exists pre, value, post. repeat split; try done.
          intros k' v' Hin. eapply Hpre. by right. }
        destruct (isEmptyValue v0); [done|].
        destruct (fieldMatches extractLinks targetId v0) eqn:Hm; [|done].
        by apply fieldMatches_spec in Hm.
Qed.

Lemma searchEntries_None extractLinks targetId entries :
  searchEntries extractLinks targetId entries = None
  ↔ ∀ k v, (k, v) ∈ entries → ¬ valueLinksTo extractLinks targetId v.
Proof.
  split.
  - intros Hnone k v Hin Hv.
    apply list_elem_of_split in Hin as (l1 & l2 & ->).
    clear -Hnone Hv. induction l1 as [|[k1 v1] l1 IH]; simpl in Hnone.
    + rewrite (valueLinksTo_not_empty _ _ _ Hv) in Hnone.
      apply fieldMatches_spec in Hv. by rewrite Hv in Hnone.
    + apply IH. destruct (isEmptyValue v1); [done|].
      by destruct (fieldMatches extractLinks targetId v1).
  - intros Hall.
    destruct (searchEntries extractLinks targetId entries) as [key|] eqn:Hs;
      [|done].
    apply searchEntries_Some in Hs as (pre & value & post & -> & Hv & _).
    exfalso. eapply Hall; [|done]. apply elem_of_app. right. by left.
Qed.

(** The lookup answers the key of the first field of the source page that
    holds a link to the target: a wiki link, a markdown link, or an array
    with one of them (items of nested arrays are not looked at). *)
Theorem getMetadataKeyForLink_first_linking_field api extractLinks
    sourceId targetId key :
  getMetadataKeyForLink api extractLinks sourceId targetId = Some key
  ↔ ∃ pre value post,
      api sourceId = Some (pre ++ (key, value) :: post)%list
      ∧ valueLinksTo extractLinks targetId value
      ∧ ∀ k v, (k, v) ∈ pre → ¬ valueLinksTo extractLinks targetId v.
Proof.
  unfold getMetadataKeyForLink. destruct (api sourceId) as [page|].
  - rewrite searchEntries_Some. split.
    + intros (pre & value & post & -> & ?). by exists pre, value, post.
    + intros (pre & value & post & [= ->] & ?). by exists pre, value, post.
  - split; [done|]. by intros (pre & value & post & ? & _).
Qed.

(** The lookup answers null exactly when the source has no page or no field
    of its page holds a link to the target. *)
Theorem getMetadataKeyForLink_null api extractLinks sourceId targetId :
  getMetadataKeyForLink api extractLinks sourceId targetId = None
  ↔ api sourceId = None
    ∨ ∃ page, api sourceId = Some page
              ∧ ∀ k v, (k, v) ∈ page → ¬ valueLinksTo extractLinks targetId v.
Proof.
  unfold getMetadataKeyForLink. destruct (api sourceId) as [page|].
  - rewrite searchEntries_None. split.
    + intros ?. right. by exists page.
    + intros [?|(page' & [= ->] & ?)]; done.
  - split; [by left|done].
Qed.

(** A page whose fields hold only plain text, numbers, objects without a
    path or empty values classifies no edge, whatever the target is (also
    when a text field is equal to the target id). *)
Theorem getMetadataKeyForLink_plain_fields api extractLinks sourceId targetId page :
  api sourceId = Some page →
  (∀ k v, (k, v) ∈ page → plainValue v) →
  getMetadataKeyForLink api extractLinks sourceId targetId = None.
Proof.
  intros Hpage Hplain. unfold getMetadataKeyForLink. rewrite Hpage.
  apply searchEntries_None. intros k v Hin Hv.
  destruct (Hplain k v Hin) as [Ht|Ht];
    destruct Hv as [[(props & -> & Hp)|(str & -> & Hinc & _)]
                   |(items & item & -> & _)];
    simpl in Ht; unfold Map_has in Ht; rewrite ?Hp, ?Hinc in Ht; done.
Qed.

Lemma getMetadataKeyForLink_plain_fields_witness :
  getMetadataKeyForLink
    (λ _, Some [("title", JsString "B"); ("rank", JsOther)]) extractC "A" "B"
  = None.
Proof.
  apply (getMetadataKeyForLink_plain_fields _ extractC "A" "B"
           [("title", JsString "B"); ("rank", JsOther)]).
  - reflexivity.
  - intros k v Hin.
    apply elem_of_cons in Hin as [[= -> ->]|Hin]; [by left|].
    apply elem_of_cons in Hin as [[= -> ->]|Hin]; [by right|].
    by apply elem_of_nil in Hin.
Defined.

(** * The colour of the text *)

(** The colour handed to the labels is never an hsl colour: an hsl value of
    the CSS variable is replaced by one of two fixed greys, any other value
    is returned as it is. *)
Theorem getComputedColorFromClass_never_hsl themeDark colorValue :
  String.prefix "hsl" (getComputedColorFromClass themeDark colorValue) = false
  ∧ (getComputedColorFromClass themeDark colorValue = colorValue
     ↔ String.prefix "hsl" colorValue = false).
Proof.
  unfold getComputedColorFromClass.
  destruct (String.prefix "hsl" colorValue) eqn:Hhsl.
  - split; [by destruct themeDark|]. split; [|done].
    intros Heq. rewrite <- Heq in Hhsl. by destruct themeDark.
  - done.
Qed.

(** * Finding the renderer *)

Lemma firstRenderer_spec leaves r :
  firstRenderer leaves = Some r
  ↔ ∃ pre post,
      leaves = (pre ++ Some r :: post)%list
      ∧ isObsidianRenderer (Some r) = true
      ∧ Forall (λ x, isObsidianRenderer x = false) pre.
Proof.
  induction leaves as [|x leaves IH]; cbn [firstRenderer].
  - split; [done|]. intros (pre & post & Heq & _). by destruct pre.
  - destruct (isObsidianRenderer x) eqn:Hx.
    + split.
      * intros ->. exists [], leaves. by repeat split.
      * intros (pre & post & Heq & Hr & Hpre).
        destruct pre as [|y pre]; simpl in Heq; injection Heq as -> ->; [done|].
        apply Forall_cons in Hpre as [Hy _]. congruence.
    + rewrite IH. split.
      * intros (pre & post & -> & Hr & Hpre). exists (x :: pre), post.
        repeat split; try done. by constructor.
      * intros (pre & post & Heq & Hr & Hpre).
        destruct pre as [|y pre]; simpl in Heq; injection Heq as -> ->;
          [congruence|].
        apply Forall_cons in Hpre as [_ Hpre]. by exists pre, post.
Qed.

Lemma firstRenderer_None leaves :
  firstRenderer leaves = None
  ↔ Forall (λ x, isObsidianRenderer x = false) leaves.
Proof.
  induction leaves as [|x leaves IH]; cbn [firstRenderer]; [done|].
  destruct (isObsidianRenderer x) eqn:Hx.
  - split.
    + intros ->. done.
    + intros [Hx' _]%Forall_cons. congruence.
  - rewrite IH. split; [by constructor|]. by intros [_ ?]%Forall_cons.
Qed.

(** [findRenderer] answers the first leaf of type 'graph' whose renderer
    passes [isObsidianRenderer]; only when no such leaf exists, the first
    leaf of type 'localgraph' that passes; and null exactly when no leaf of
    either kind passes. What it answers always passes the test. *)
Theorem findRenderer_first_valid graphLeaves localgraphLeaves :
  (∀ r, firstRenderer graphLeaves = Some r
        → findRenderer graphLeaves localgraphLeaves = Some r)
  ∧ (Forall (λ x, isObsidianRenderer x = false) graphLeaves
     → findRenderer graphLeaves localgraphLeaves = firstRenderer localgraphLeaves)
  ∧ (∀ r, findRenderer graphLeaves localgraphLeaves = Some r
          → isObsidianRenderer (Some r) = true
            ∧ Some r ∈ (graphLeaves ++ localgraphLeaves)%list)
  ∧ (findRenderer graphLeaves localgraphLeaves = None
     ↔ Forall (λ x, isObsidianRenderer x = false)
         (graphLeaves ++ localgraphLeaves)%list).
Proof.
  unfold findRenderer. split; [|split; [|split]].
  - by intros r ->.
  - intros Hg%firstRenderer_None. by rewrite Hg.
  - intros r Hr.
    assert (firstRenderer graphLeaves = Some r
            ∨ firstRenderer localgraphLeaves = Some r) as [Hf|Hf].
    { destruct (firstRenderer graphLeaves); [left|right]; done. }
    + apply firstRenderer_spec in Hf as (pre & post & -> & ? & _).
      split; [done|]. apply elem_of_app. left. apply elem_of_app. right. by left.
    + apply firstRenderer_spec in Hf as (pre & post & -> & ? & _).
      split; [done|]. apply elem_of_app. right. apply elem_of_app. right. by left.
  - rewrite Forall_app, <- !firstRenderer_None.
    destruct (firstRenderer graphLeaves); split; try done; by intros [? ?].
Qed.

Lemma findRenderer_first_valid_witness :
  findRenderer [None; Some goodRenderer] [Some goodRenderer] = Some goodRenderer
  ∧ findRenderer [None; Some unpannedRenderer] [Some goodRenderer]
    = firstRenderer [Some goodRenderer].
Proof.
  split.
  - destruct (findRenderer_first_valid [None; Some goodRenderer]
                [Some goodRenderer]) as (Hfirst & _).
    apply Hfirst. reflexivity.
  - destruct (findRenderer_first_valid [None; Some unpannedRenderer]
                [Some goodRenderer]) as (_ & Hlocal & _).
    apply Hlocal. repeat constructor.
Defined.

(** A renderer whose pan is exactly zero on one axis (or missing) does not
    pass [isObsidianRenderer]: the test uses the pan values as booleans. So
    a graph view that is not panned on an axis is not found. *)
Theorem isObsidianRenderer_rejects_zero_pan r :
  falsy (cand_panX r) = true ∨ falsy (cand_panY r) = true →
  isObsidianRenderer (Some r) = false
  ∧ ∀ graphLeaves, firstRenderer (Some r :: graphLeaves) = firstRenderer graphLeaves.
Proof.
  intros Hpan.
  assert (isObsidianRenderer (Some r) = false) as Hr.
  { unfold isObsidianRenderer. destruct (cand_px r) as [px|]; [|done].
    destruct (cand_stage px); [|done].
    destruct Hpan as [-> | ->]; simpl; [done|].
    by rewrite andb_false_r. }
  split; [done|]. intros graphLeaves. cbn [firstRenderer]. by rewrite Hr.
Qed.

Lemma isObsidianRenderer_rejects_zero_pan_witness :
  isObsidianRenderer (Some unpannedRenderer) = false
  ∧ ∀ graphLeaves,
      firstRenderer (Some unpannedRenderer :: graphLeaves) = firstRenderer graphLeaves.
Proof.
  apply (isObsidianRenderer_rejects_zero_pan unpannedRenderer).
  left. reflexivity.
Defined.

(** * The bookkeeping of the legend *)

(** [addLink] changes the legend state by at most one acquisition. *)
Lemma addLink_legendState resolve link useTagColors tagLegend s :
  legendState (addLink resolve link useTagColors tagLegend s) = legendState s
  ∨ ∃ label s0,
      legendState s0 = legendState s
      ∧ resolve (Node.id (source link)) (Node.id (target link)) = Some label
      ∧ Node.id (source link) ≠ Node.id (target link)
      ∧ useTagColors = true
      ∧ legendState (addLink resolve link useTagColors tagLegend s)
        = legendState (acquire label tagLegend s0).2.
Proof.
  unfold addLink.
  set (p := if hasReverse link (linksMap s) then LinkPair.Second else LinkPair.None).
  assert (∃ t s1, initializeLinkText resolve link p s = (t, s1)
                  ∧ legendState s1 = legendState s) as (t & s1 & -> & H1).
  { destruct (resolve (Node.id (source link)) (Node.id (target link)))
      as [str|] eqn:Hres.
    - destruct (initializeLinkText_Some resolve link p s str Hres)
        as (s1 & -> & Hleg & _). by eexists _, _.
    - rewrite initializeLinkText_None by done. by eexists _, _. }
  assert (∀ g s2, legendState
            (let s3 := with_linksMap
                         (Map_set (keyOf link)
                            {| obsidianLink := link; pairStatus := p;
                               pixiText := t; pixiGraphics := g |}
                            (linksMap s2)) s2 in
             if hasReverse link (linksMap s3) then
               match Map_get (reverseKeyOf link) (linksMap s3) with
               | Some reverseLink =>
                   with_linksMap
                     (Map_set (reverseKeyOf link)
                        (set_pairStatus LinkPair.First reverseLink)
                        (linksMap s3)) s3
               | None => s3
               end
             else s3) = legendState s2) as Htail.
  { intros g s2. cbv zeta. by repeat case_match. }
  destruct useTagColors; [|left; by rewrite Htail].
  unfold initializeLinkGraphics.
  destruct (resolve (Node.id (source link)) (Node.id (target link)))
    as [str|] eqn:Hres; [|left; by rewrite Htail].
  destruct (decide (Node.id (source link) = Node.id (target link))) as [Hself|Hne].
  - left. cbn [new addChild fst snd].
    match goal with
    | |- context [updateLinkGraphics ?l ?s0] =>
        destruct (updateLinkGraphics_frame l s0) as [h ->]
    end. by rewrite Htail.
  - right. exists str, s1. repeat split; try done.
    destruct (acquire str tagLegend s1) as [c s2]. cbn [new addChild fst snd].
    match goal with
    | |- context [updateLinkGraphics ?l ?s0] =>
        destruct (updateLinkGraphics_frame l s0) as [h ->]
    end. by rewrite Htail.
Qed.

(** [removeLink] changes the legend state by at most one release. *)
Lemma removeLink_legendState link s :
  legendState (removeLink link s) = legendState s
  ∨ ∃ colorKey s0,
      legendState s0 = legendState s
      ∧ legendState (removeLink link s) = legendState (release colorKey s0).
Proof.
  unfold removeLink.
  set (gl := Map_get (keyOf link) (linksMap s)).
  set (s1 := match pixiTextOf gl with Some text => detach text s | None => s end).
  assert (legendState s1 = legendState s) as H1.
  { subst s1. destruct (pixiTextOf gl) as [o|]; [|done].
    by destruct (detach_frame o s) as [h ->]. }
  set (s2 := match pixiGraphicsOf gl with Some g => detach g s1 | None => s1 end).
  assert (legendState s2 = legendState s) as H2.
  { subst s2. destruct (pixiGraphicsOf gl) as [o|]; [|done].
    by destruct (detach_frame o s1) as [h ->]. }
  set (text := match pixiTextOf gl with Some t => textOf t s2 | None => None end).
  set (s3 := releaseText text s2).
  assert (legendState
            (let s4 := with_linksMap (Map_delete (keyOf link) (linksMap s3)) s3 in
             match Map_get (reverseKeyOf link) (linksMap s4) with
             | Some reverseLink =>
                 if decide (pairStatus reverseLink ≠ LinkPair.None) then
                   with_linksMap
                     (Map_set (reverseKeyOf link)
                        (set_pairStatus LinkPair.None reverseLink) (linksMap s4)) s4
                 else s4
             | None => s4
             end) = legendState s3) as Htail.
  { cbv zeta. by repeat case_match. }
  cbv zeta in Htail. cbv zeta. rewrite Htail. subst s3. unfold releaseText.
  destruct text as [str|]; [|by left].
  case_decide; [by left|]. right. by exists (stripNewlines str), s2.
Qed.

Lemma legendBalanced_ext s s' :
  legendState s = legendState s' → legendBalanced s → legendBalanced s'.
Proof. intros [= Ht Hc Hy]. unfold legendBalanced. by rewrite Ht, Hc, Hy. Qed.

Lemma acquire_legendBalanced label tagLegend s :
  legendBalanced s → legendBalanced (acquire label tagLegend s).2.
Proof.
  intros [Hy Hc]. destruct (tagColors s !! label) as [lg|] eqn:Hl.
  - pose proof (acquire_present label tagLegend s lg Hl) as [= Ht Hc' Hy'].
    unfold legendBalanced. rewrite Ht, Hc', Hy'.
    by rewrite map_size_insert_Some.
  - pose proof (acquire_fresh label tagLegend s Hl) as [= Ht Hc' Hy'].
    unfold legendBalanced. rewrite Ht, Hc', Hy'.
    rewrite map_size_insert_None by done. rewrite Hy, Hc. unfold lineHeight.
    split; [lia|].
    pose proof (Z.mod_pos_bound (Z.of_nat (size (tagColors s))) 20).
    rewrite Z.rem_mod_nonneg by lia. rewrite Zplus_mod_idemp_l.
    f_equal. lia.
Qed.

Lemma release_legendBalanced colorKey s :
  legendBalanced s → legendBalanced (release colorKey s).
Proof.
  intros [Hy Hc]. destruct (tagColors s !! colorKey) as [lg|] eqn:Hl;
    [|by rewrite release_absent].
  destruct (Z.lt_ge_cases (nUsing lg - 1) 1) as [Hlast|Hmore].
  - pose proof (release_reclaim colorKey s lg Hl Hlast) as [= Ht Hc' Hy'].
    unfold legendBalanced. rewrite Ht, Hc', Hy'.
    rewrite map_size_delete_Some by done.
    assert (size (tagColors s) ≠ 0%nat) as Hsize.
    { intros Hz%map_size_empty_iff. by rewrite Hz, lookup_empty in Hl. }
    rewrite Hy, Hc. unfold lineHeight, rollBack. split; [lia|].
    set (n := Z.of_nat (size (tagColors s))).
    assert (Z.of_nat (Nat.pred (size (tagColors s))) = n - 1) as -> by lia.
    assert (1 ≤ n) by lia.
    pose proof (Z.div_mod n 20). pose proof (Z.mod_pos_bound n 20).
    pose proof (Z.div_mod (n - 1) 20). pose proof (Z.mod_pos_bound (n - 1) 20).
    destruct (Z.ltb_spec (n `mod` 20 - 1) 0); lia.
  - pose proof (release_keep colorKey s lg Hl Hmore) as [= Ht Hc' Hy'].
    unfold legendBalanced. rewrite Ht, Hc', Hy'.
    by rewrite map_size_insert_Some.
Qed.

Lemma fold_visit_legendBalanced skip keys s :
  legendBalanced s → legendBalanced (fold_left (visit skip) keys s).
Proof.
  revert s. induction keys as [|key keys IH]; intros s Hs; [done|].
  simpl. apply IH. unfold visit. repeat case_match; try done.
  destruct (removeLink_legendState (obsidianLink g) s)
    as [Heq|(colorKey & s0 & Heq0 & Heq)].
  - by eapply legendBalanced_ext.
  - eapply legendBalanced_ext; [done|]. apply release_legendBalanced.
    by eapply legendBalanced_ext.
Qed.

(** In every reachable state the legend offset is 5 plus one line height per
    legend row, and the palette cursor is the number of legend rows modulo
    the size of the palette: the offset and the cursor move in step with the
    creation and the reclamation of legend rows. *)
Theorem legend_bookkeeping s : reachable s → legendBalanced s.
Proof.
  intros [ops <-]. unfold runAll.
  assert (legendBalanced initial) as Hinit by done.
  revert Hinit. generalize initial.
  induction ops as [|op ops IH]; intros s0 Hs0; [done|].
  simpl. apply IH. destruct op; simpl.
  - destruct (addLink_legendState resolve link useTagColors tagLegend s0)
      as [Heq|(label & s1 & Heq1 & _ & _ & _ & Heq)].
    + by eapply legendBalanced_ext.
    + eapply legendBalanced_ext; [done|]. apply acquire_legendBalanced.
      by eapply legendBalanced_ext.
  - destruct (removeLink_legendState link s0) as [Heq|(colorKey & s1 & Heq1 & Heq)].
    + by eapply legendBalanced_ext.
    + eapply legendBalanced_ext; [done|]. apply release_legendBalanced.
      by eapply legendBalanced_ext.
  - rewrite removeLinks_visit. by apply fold_visit_legendBalanced.
  - rewrite destroyMap_visit. by apply fold_visit_legendBalanced.
  - by destruct (updateLinkText_frame link tagNames s0) as [h ->].
  - by destruct (updateLinkGraphics_frame link s0) as [h ->].
Qed.

Lemma legend_bookkeeping_witness :
  legendBalanced
    (runAll [OpAddLink resolveParent (edge "A" "B") true true;
             OpAddLink resolveFile (edge "B" "C") true true;
             OpRemoveLink (edge "A" "B")] initial).
Proof.
  apply legend_bookkeeping.
  by exists [OpAddLink resolveParent (edge "A" "B") true true;
             OpAddLink resolveFile (edge "B" "C") true true;
             OpRemoveLink (edge "A" "B")].
Defined.

(** * Colours *)

Lemma acquire_fresh_colour label tagLegend s :
  tagColors s !! label = None →
  (acquire label tagLegend s).1 = colorAt (currentTagColorIndex s).
Proof. intros Hl. unfold acquire. rewrite Hl. simpl. by destruct tagLegend. Qed.

Lemma acquire_present_colour label tagLegend s lg :
  tagColors s !! label = Some lg → (acquire label tagLegend s).1 = color lg.
Proof. intros Hl. unfold acquire. by rewrite Hl. Qed.

(** After an acquisition the legend holds the label with the colour that was
    handed out. *)
Lemma acquire_stored label tagLegend s :
  ∃ lg, tagColors (acquire label tagLegend s).2 !! label = Some lg
        ∧ color lg = (acquire label tagLegend s).1.
Proof.
  destruct (tagColors s !! label) as [lg|] eqn:Hl.
  - pose proof (acquire_present label tagLegend s lg Hl) as [= Ht _ _].
    rewrite Ht, lookup_insert_eq, (acquire_present_colour _ _ _ lg) by done.
    by eexists.
  - pose proof (acquire_fresh label tagLegend s Hl) as [= Ht _ _].
    rewrite Ht, lookup_insert_eq, acquire_fresh_colour by done.
    by eexists.
Qed.

(** All the edges of one type get one colour: after a first acquisition of a
    label, every further acquisition of it, however many came in between and
    whether the legend is shown or not, hands out the same colour and leaves
    the palette cursor, the legend offset and the stage alone. *)
Theorem acquire_same_colour label tagLegend tagLegend' tagLegend'' n s :
  let s1 := (acquire label tagLegend s).2 in
  let s2 := acquireN n label tagLegend' s1 in
  (acquire label tagLegend'' s2).1 = (acquire label tagLegend s).1
  ∧ currentTagColorIndex (acquire label tagLegend'' s2).2 = currentTagColorIndex s1
  ∧ yOffset (acquire label tagLegend'' s2).2 = yOffset s1
  ∧ children (acquire label tagLegend'' s2).2 = children s2.
Proof.
  intros s1 s2.
  destruct (acquire_stored label tagLegend s) as (lg & Hl & Hc). fold s1 in Hl.
  pose proof (acquireN_present n label tagLegend' s1 lg Hl) as [= Ht Hcur Hy].
  fold s2 in Ht, Hcur, Hy.
  assert (tagColors s2 !! label
          = Some (set_nUsing (nUsing lg + Z.of_nat n) lg)) as Hl2
    by by rewrite Ht, lookup_insert_eq.
  pose proof (acquire_present label tagLegend'' s2 _ Hl2) as [= _ Hcur' Hy'].
  rewrite (acquire_present_colour _ _ _ _ Hl2), Hcur', Hy', Hcur, Hy.
  repeat split; try done. unfold acquire. by rewrite Hl2.
Qed.

(** In a reachable state a label that is not in the legend yet always gets a
    colour of the palette, the one under the cursor: the palette never runs
    out, after twenty rows the colours repeat. *)
Theorem acquire_fresh_palette_colour label tagLegend s :
  reachable s →
  tagColors s !! label = None →
  ∃ c, (acquire label tagLegend s).1 = Some c
       ∧ categoricalColors !! Z.to_nat (currentTagColorIndex s) = Some c
       ∧ c ∈ categoricalColors.
Proof.
  intros Hs%reachable_cursorInPalette Hl. unfold cursorInPalette in Hs.
  rewrite acquire_fresh_colour by done. unfold colorAt.
  destruct (Z.ltb_spec (currentTagColorIndex s) 0); [lia|].
  destruct (lookup_lt_is_Some_2 categoricalColors
              (Z.to_nat (currentTagColorIndex s))) as [c Hc]; [simpl in *; lia|].
  exists c. repeat split; try done. by eapply list_elem_of_lookup_2.
Qed.

Lemma acquire_fresh_palette_colour_witness :
  ∃ c, (acquire "child" true
          (addLink resolveParent (edge "A" "B") true true initial)).1 = Some c
       ∧ categoricalColors !! 1%nat = Some c
       ∧ c ∈ categoricalColors.
Proof.
  apply (acquire_fresh_palette_colour "child" true
           (addLink resolveParent (edge "A" "B") true true initial)).
  - by exists [OpAddLink resolveParent (edge "A" "B") true true].
  - by vm_compute.
Defined.

(** The roll-back of the cursor is only right for releases in reverse order
    of the acquisitions. When A and then B are acquired and A, the older one,
    is released, the cursor and the offset go back to where B was allocated:
    the next new label C gets the colour of B and its legend row is placed
    at the offset of the row of B, while B is still in the legend. *)
Theorem release_out_of_order_reuses_colour A B C tagLegend s :
  A ≠ B → A ≠ C → B ≠ C →
  tagColors s !! A = None → tagColors s !! B = None → tagColors s !! C = None →
  cursorInPalette s →
  let s1 := (acquire A tagLegend s).2 in
  let s2 := (acquire B tagLegend s1).2 in
  let s3 := release A s2 in
  let s4 := (acquire C tagLegend s3).2 in
  (acquire C tagLegend s3).1 = (acquire B tagLegend s1).1
  ∧ yOffset s3 = yOffset s1
  ∧ is_Some (tagColors s4 !! B) ∧ is_Some (tagColors s4 !! C)
  ∧ tagColors s4 !! A = None.
Proof.
  intros HAB HAC HBC HA HB HC Hcur s1 s2 s3 s4.
  pose proof (acquire_fresh A tagLegend s HA) as [= Ht1 Hc1 Hy1]. fold s1 in Ht1, Hc1, Hy1.
  assert (tagColors s1 !! B = None) as HB1 by by rewrite Ht1, lookup_insert_ne.
  pose proof (acquire_fresh B tagLegend s1 HB1) as [= Ht2 Hc2 Hy2].
  fold s2 in Ht2, Hc2, Hy2.
  assert (cursorInPalette s1) as Hcur1.
  { unfold cursorInPalette in *. rewrite Hc1. simpl in *.
    pose proof (Z.rem_bound_pos (currentTagColorIndex s + 1) 20). lia. }
  set (lgA := {| color := colorAt (currentTagColorIndex s);
                 legendText := nextRef s; legendGraphics := S (nextRef s);
                 nUsing := 0 |}) in *.
  assert (tagColors s2 !! A = Some lgA) as HA2
    by by rewrite Ht2, lookup_insert_ne, Ht1, lookup_insert_eq.
  assert (nUsing lgA - 1 < 1) as Hlast by (simpl; lia).
  pose proof (release_reclaim A s2 lgA HA2 Hlast) as [= Ht3 Hc3 Hy3].
  fold s3 in Ht3, Hc3, Hy3.
  assert (currentTagColorIndex s3 = currentTagColorIndex s1) as Hc31.
  { rewrite Hc3, Hc2. apply rollBack_advance. unfold cursorInPalette in Hcur1.
    simpl in Hcur1. lia. }
  assert (tagColors s3 !! C = None) as HC3.
  { by rewrite Ht3, lookup_delete_ne, Ht2, lookup_insert_ne, Ht1,
      lookup_insert_ne. }
  pose proof (acquire_fresh C tagLegend s3 HC3) as [= Ht4 _ _]. fold s4 in Ht4.
  rewrite (acquire_fresh_colour C) by done.
  rewrite (acquire_fresh_colour B) by done. rewrite Hc31.
  repeat split; try done.
  - rewrite Hy3, Hy2. lia.
  - rewrite Ht4, lookup_insert_ne, Ht3, lookup_delete_ne, Ht2, lookup_insert_eq
      by done. by eexists.
  - rewrite Ht4, lookup_insert_eq. by eexists.
  - by rewrite Ht4, lookup_insert_ne, Ht3, lookup_delete_eq.
Qed.

Lemma release_out_of_order_reuses_colour_witness :
  let s1 := (acquire "a" true initial).2 in
  let s2 := (acquire "b" true s1).2 in
  let s3 := release "a" s2 in
  let s4 := (acquire "c" true s3).2 in
  (acquire "c" true s3).1 = (acquire "b" true s1).1
  ∧ yOffset s3 = yOffset s1
  ∧ is_Some (tagColors s4 !! "b") ∧ is_Some (tagColors s4 !! "c")
  ∧ tagColors s4 !! "a" = None.
Proof.
  apply (release_out_of_order_reuses_colour "a" "b" "c" true initial);
    try discriminate; try reflexivity.
  unfold cursorInPalette. simpl. lia.
Defined.

(** * The colour key of a label *)

Lemma stripNewlines_app_twoLF label :
  LF ∉ list_ascii_of_string label → CR ∉ list_ascii_of_string label →
  stripNewlines (label ++ twoLF) = label.
Proof.
  induction label as [|c rest IH]; [done|]. simpl.
  intros [Hc Hrest]%not_elem_of_cons [Hc' Hrest']%not_elem_of_cons.
  rewrite !decide_False by done. by rewrite IH.
Qed.

(** The colour key [removeLink] reads back from the text of a label is the
    label the edge was classified with: the line feeds that pad the labels
    of a mirror pair are stripped again. This holds for every edge that is
    not a self-loop and every label without line feed and carriage return,
    whatever the pair status. *)
Theorem colorKey_of_labelText link p label :
  Node.id (source link) ≠ Node.id (target link) →
  LF ∉ list_ascii_of_string label → CR ∉ list_ascii_of_string label →
  stripNewlines (labelText link p label) = label.
Proof.
  intros Hne HLF HCR. unfold labelText. rewrite decide_False by done.
  destruct p.
  - by apply stripNewlines_no_LF.
  - by apply stripNewlines_app_twoLF.
  - unfold twoLF. simpl. by apply stripNewlines_no_LF.
Qed.

Lemma colorKey_of_labelText_witness :
  stripNewlines (labelText (edge "A" "B") LinkPair.First "parent") = "parent".
Proof.
  apply (colorKey_of_labelText (edge "A" "B") LinkPair.First "parent").
  - discriminate.
  - apply (bool_decide_unpack _). by vm_compute.
  - apply (bool_decide_unpack _). by vm_compute.
Defined.

(** * Tearing down and reconciling *)

Lemma fold_visit_all_skipped skip keys s :
  (∀ k, k ∈ keys → skip k = true) → fold_left (visit skip) keys s = s.
Proof.
  revert s. induction keys as [|key keys IH]; intros s Hskip; [done|].
  simpl. assert (visit skip s key = s) as ->.
  { unfold visit. rewrite (Hskip key) by by left. by destruct (Map_get _ _). }
  apply IH. intros k Hk. apply Hskip. by right.
Qed.

(** [destroyMap] is [removeLinks] with no live link. In a reachable state it
    leaves the authoritative map empty and takes the label and the indicator
    of every entry off the stage; it never puts anything on the stage. *)
Theorem destroyMap_clears s :
  reachable s →
  destroyMap s = removeLinks [] s
  ∧ linksMap (destroyMap s) = []
  ∧ (∀ k g o, Map_get k (linksMap s) = Some g → ownedBy g o →
              o ∉ children (destroyMap s))
  ∧ (∀ o, o ∈ children (destroyMap s) → o ∈ children s).
Proof.
  intros Hs%reachable_keysConsistent. split; [done|]. split; [|split].
  - assert (Map_keys (linksMap (destroyMap s)) = []) as Hkeys.
    { apply elem_of_nil_inv. intros k. rewrite destroyMap_visit.
      rewrite fold_visit_keys by done. intros [Hk Hn]. by apply Hn. }
    unfold Map_keys in Hkeys. by destruct (linksMap (destroyMap s)).
  - intros k g o Hg Hown. rewrite destroyMap_visit.
    eapply fold_visit_detaches; try done. apply Map_get_keys. by eexists.
  - intros o. rewrite destroyMap_visit. apply fold_visit_children.
Qed.

Lemma destroyMap_clears_witness :
  let s := addLink resolveParent (edge "B" "A") true true
             (addLink resolveParent (edge "A" "B") true true initial) in
  destroyMap s = removeLinks [] s
  ∧ linksMap (destroyMap s) = []
  ∧ (∀ k g o, Map_get k (linksMap s) = Some g → ownedBy g o →
              o ∉ children (destroyMap s))
  ∧ (∀ o, o ∈ children (destroyMap s) → o ∈ children s).
Proof.
  apply destroyMap_clears.
  by exists [OpAddLink resolveParent (edge "A" "B") true true;
             OpAddLink resolveParent (edge "B" "A") true true].
Defined.

(** When every tracked key is the key of a live link, [removeLinks] changes
    nothing at all: reconciling against an unchanged or grown edge set is a
    no-op, in any state. *)
Theorem removeLinks_all_live currentLinks s :
  (∀ k, k ∈ Map_keys (linksMap s) → k ∈ map keyOf currentLinks) →
  removeLinks currentLinks s = s.
Proof.
  intros Hlive. rewrite removeLinks_visit. apply fold_visit_all_skipped.
  intros k Hk. apply bool_decide_eq_true. by apply Hlive.
Qed.

Lemma removeLinks_all_live_witness :
  let s := addLink resolveParent (edge "A" "B") true true initial in
  removeLinks [edge "A" "B"; edge "B" "C"] s = s.
Proof.
  apply (removeLinks_all_live [edge "A" "B"; edge "B" "C"]
           (addLink resolveParent (edge "A" "B") true true initial)).
  intros k Hk.
  assert (Map_keys (linksMap (addLink resolveParent (edge "A" "B") true true
                                initial)) = ["A-B"]) as Hkeys by reflexivity.
  rewrite Hkeys in Hk. apply list_elem_of_singleton in Hk as ->. by left.
Defined.

(** * Refreshing *)

Lemma set_alpha_set_alpha a b o : set_alpha a (set_alpha b o) = set_alpha a o.
Proof. done. Qed.

(** Refreshing a label twice is refreshing it once with the last arguments:
    the second call overrides the opacity the first one set, whatever the
    visibility flags and the live link objects (with the same key) were. So
    a label hidden by one tick is shown again by the next. *)
Theorem updateLinkText_last_wins link1 link2 tagNames1 tagNames2 s :
  keyOf link1 = keyOf link2 →
  updateLinkText link2 tagNames2 (updateLinkText link1 tagNames1 s)
  = updateLinkText link2 tagNames2 s.
Proof.
  intros Hkey. unfold updateLinkText. rewrite Hkey.
  destruct (Map_get (keyOf link2) (linksMap s)) as [g|] eqn:Hg; [|by rewrite Hg].
  destruct (pixiText g) as [t|] eqn:Ht; [|by rewrite Hg, Ht].
  destruct (includes t (children s)) eqn:Hin; [|by rewrite Hg, Ht, Hin].
  cbn [linksMap with_heap children heap]. rewrite Hg, Ht, Hin.
  unfold with_heap. cbn. f_equal. rewrite alter_alter_eq.
  by apply alter_ext.
Qed.

Lemma updateLinkText_last_wins_witness :
  let s := addLink resolveParent fadedEdge false true initial in
  updateLinkText (edge "A" "B") true (updateLinkText fadedEdge false s)
  = updateLinkText (edge "A" "B") true s.
Proof.
  apply (updateLinkText_last_wins fadedEdge (edge "A" "B") false true).
  reflexivity.
Defined.

(** Refreshing an indicator changes nothing but the heap, and in the heap
    nothing but the opacity of the attached indicator of the edge, which
    becomes 0.6: texts and stroke colours stay as they are, and every other
    object is untouched. *)
Theorem updateLinkGraphics_keeps_colour link s :
  ∃ h, updateLinkGraphics link s = with_heap h s
       ∧ (∀ o, kind <$> h !! o = kind <$> heap s !! o)
       ∧ (∀ o, pixiGraphicsOf (Map_get (keyOf link) (linksMap s)) ≠ Some o →
               h !! o = heap s !! o)
       ∧ (∀ o, pixiGraphicsOf (Map_get (keyOf link) (linksMap s)) = Some o →
               h !! o = if includes o (children s)
                        then redraw <$> heap s !! o else heap s !! o)
       ∧ (∀ x, alpha (redraw x) = (6 # 10)%Q ∧ lineColorOf (redraw x) = lineColorOf x).
Proof.
  assert (∀ x, alpha (redraw x) = (6 # 10)%Q
               ∧ lineColorOf (redraw x) = lineColorOf x) as Hredraw.
  { intros x. split; [done|]. unfold redraw, lineStyle, lineColorOf.
    by destruct x as [[?|?] ? ?]. }
  unfold updateLinkGraphics.
  destruct (Map_get (keyOf link) (linksMap s)) as [g|] eqn:Hg; simpl.
  - destruct (pixiGraphics g) as [r|] eqn:Hr.
    + destruct (includes r (children s)) eqn:Hin.
      * eexists. split; [reflexivity|]. split_and!; [| | |done].
        -- intros o. apply alter_kind, redraw_kind.
        -- intros o Hne. apply lookup_alter_ne. congruence.
        -- intros o [= <-]. by rewrite lookup_alter_eq, Hin.
      * exists (heap s). split; [by destruct s|]. split_and!; [done|done| |done].
        intros o [= <-]. by rewrite Hin.
    + exists (heap s). split; [by destruct s|]. by split_and!.
  - exists (heap s). split; [by destruct s|]. by split_and!.
Qed.

(** * Ticks *)

Lemma isUpdateMapFrame_spec animationFrameId :
  isUpdateMapFrame animationFrameId = true
  ↔ ∃ n, animationFrameId = Some n ∧ n ≠ 0 ∧ (10 | n).
Proof.
  unfold isUpdateMapFrame. destruct animationFrameId as [n|].
  - rewrite andb_true_iff, negb_true_iff, !Z.eqb_eq, Z.eqb_neq.
    rewrite Z.rem_divide by done. split.
    + intros [? ?]. by exists n.
    + by intros (? & [= <-] & ? & ?).
  - split; [done|]. by intros (? & ? & _).
Qed.

Lemma alter_sameButAlpha (f : DisplayObject → DisplayObject) (r : ref)
    (h : gmap ref DisplayObject) :
  (∀ x, set_alpha 0 (f x) = set_alpha 0 x) →
  sameButAlpha h (alter f r h).
Proof.
  intros Hf o. destruct (decide (r = o)) as [->|Hne].
  - rewrite lookup_alter_eq. destruct (h !! o); simpl; [by rewrite Hf|done].
  - by rewrite lookup_alter_ne.
Qed.

Lemma redraw_sameButAlpha x : set_alpha 0 (redraw x) = set_alpha 0 x.
Proof. unfold redraw, lineStyle, lineColorOf. by destruct x as [[?|?] ? ?]. Qed.

(** A refresh changes the heap at most in the opacity of an element of the
    entry of the link. *)
Lemma updateLinkText_heap link tagNames s :
  ∃ h, updateLinkText link tagNames s = with_heap h s
       ∧ sameButAlpha (heap s) h
       ∧ ∀ o, (∀ g, Map_get (keyOf link) (linksMap s) = Some g → ¬ ownedBy g o) →
              h !! o = heap s !! o.
Proof.
  unfold updateLinkText.
  destruct (Map_get (keyOf link) (linksMap s)) as [g|] eqn:Hg;
    [destruct (pixiText g) as [t|] eqn:Ht;
     [destruct (includes t (children s))|]|];
    try (exists (heap s); split; [by destruct s|]; by split).
  eexists. split; [reflexivity|]. split.
  - by apply alter_sameButAlpha.
  - intros o Ho. apply lookup_alter_ne. intros <-.
    apply (Ho g eq_refl). by left.
Qed.

Lemma updateLinkGraphics_heap link s :
  ∃ h, updateLinkGraphics link s = with_heap h s
       ∧ sameButAlpha (heap s) h
       ∧ ∀ o, (∀ g, Map_get (keyOf link) (linksMap s) = Some g → ¬ ownedBy g o) →
              h !! o = heap s !! o.
Proof.
  unfold updateLinkGraphics.
  destruct (Map_get (keyOf link) (linksMap s)) as [g|] eqn:Hg;
    [destruct (pixiGraphics g) as [t|] eqn:Ht;
     [destruct (includes t (children s))|]|];
    try (exists (heap s); split; [by destruct s|]; by split).
  eexists. split; [reflexivity|]. split.
  - apply alter_sameButAlpha, redraw_sameButAlpha.
  - intros o Ho. apply lookup_alter_ne. intros <-.
    apply (Ho g eq_refl). by right.
Qed.

Lemma updateLink_refresh_only resolve settings s calls link h :
  ∃ h', (updateLink resolve settings false (with_heap h s, calls) link).1
        = with_heap h' s
        ∧ sameButAlpha h h'
        ∧ ∀ o, (∀ g, Map_get (keyOf link) (linksMap s) = Some g → ¬ ownedBy g o) →
               h' !! o = h !! o.
Proof.
  unfold updateLink. cbn [andb].
  set (s0 := with_heap h s).
  destruct (updateLinkText_heap link
              (GraphLinkTypesPluginSettings.tagNames settings) s0)
    as (h1 & Hh1 & Hsame1 & Hout1).
  rewrite Hh1.
  destruct (GraphLinkTypesPluginSettings.tagColors settings); cbn [fst].
  - destruct (updateLinkGraphics_heap link (with_heap h1 s0))
      as (h2 & Hh2 & Hsame2 & Hout2).
    rewrite Hh2. exists h2. split; [done|]. split.
    + intros o. rewrite Hsame2. apply Hsame1.
    + intros o Ho. rewrite Hout2 by done. by apply Hout1.
  - exists h1. by split.
Qed.

(** A tick that is not a structural one (no frame id yet, or a frame id that
    is not a non-zero multiple of 10) changes nothing but opacities: the
    authoritative map, the legend state and the stage stay as they are; no
    object is created, lost or destroyed and every object keeps its text or
    stroke colour; and an object that is not the label or the indicator of
    the entry of a live link is not changed at all. *)
Theorem tick_without_sync resolve settings animationFrameId links s :
  isUpdateMapFrame animationFrameId = false →
  ∃ h, (updatePositions resolve settings animationFrameId links s).1 = with_heap h s
       ∧ sameButAlpha (heap s) h
       ∧ ∀ o, (∀ link g, link ∈ links →
                         Map_get (keyOf link) (linksMap s) = Some g →
                         ¬ ownedBy g o) →
              h !! o = heap s !! o.
Proof.
  intros Hframe. unfold updatePositions. rewrite Hframe.
  assert (∀ ls calls h,
            ∃ h', (fold_left (updateLink resolve settings false) ls
                     (with_heap h s, calls)).1 = with_heap h' s
                  ∧ sameButAlpha h h'
                  ∧ ∀ o, (∀ link g, link ∈ ls →
                                    Map_get (keyOf link) (linksMap s) = Some g →
                                    ¬ ownedBy g o) →
                         h' !! o = h !! o) as Hfold.
  { induction ls as [|link ls IH]; intros calls h.
    - exists h. by split.
    - cbn [fold_left].
      destruct (updateLink_refresh_only resolve settings s calls link h)
        as (h1 & Heq & Hsame1 & Hout1).
      destruct (updateLink resolve settings false (with_heap h s, calls) link)
        as [s1 calls1]. simpl in Heq. subst s1.
      destruct (IH calls1 h1) as (h2 & Heq2 & Hsame2 & Hout2).
      exists h2. split; [done|]. split.
      + intros o. rewrite Hsame2. apply Hsame1.
      + intros o Ho. rewrite Hout2.
        * apply Hout1. intros g. apply Ho. by left.
        * intros l g Hl. apply Ho. by right. }
  destruct (Hfold links [] (heap s)) as (h & Heq & Hh).
  exists h. split; [|done]. rewrite <- Heq. by destruct s.
Qed.

Lemma tick_without_sync_witness :
  let s := addLink resolveParent (edge "A" "B") true true initial in
  ∃ h, (updatePositions resolveParent allOn (Some 7)
          [edge "A" "B"; edge "B" "C"] s).1 = with_heap h s
       ∧ sameButAlpha (heap s) h
       ∧ ∀ o, (∀ link g, link ∈ [edge "A" "B"; edge "B" "C"] →
                         Map_get (keyOf link) (linksMap s) = Some g →
                         ¬ ownedBy g o) →
              h !! o = heap s !! o.
Proof.
  apply (tick_without_sync resolveParent allOn (Some 7)
           [edge "A" "B"; edge "B" "C"]).
  reflexivity.
Defined.

Lemma updateLink_calls resolve settings updateMap s calls link c :
  c ∈ (updateLink resolve settings updateMap (s, calls) link).2
  ↔ c ∈ calls
    ∨ c = CallUpdateLinkText link
    ∨ (c = CallUpdateLinkGraphics link
       ∧ GraphLinkTypesPluginSettings.tagColors settings = true)
    ∨ (c = CallAddLink link ∧ updateMap = true
       ∧ Map_has (keyOf link) (linksMap s) = false).
Proof.
  unfold updateLink.
  destruct updateMap, (Map_has (keyOf link) (linksMap s)),
    (GraphLinkTypesPluginSettings.tagColors settings); simpl;
    rewrite ?elem_of_app, ?list_elem_of_singleton; intuition congruence.
Qed.

Lemma fold_updateLink_calls resolve settings updateMap links s calls c :
  c ∈ (fold_left (updateLink resolve settings updateMap) links (s, calls)).2 →
  c ∈ calls
  ∨ ∃ link, link ∈ links
            ∧ (c = CallUpdateLinkText link
               ∨ (c = CallUpdateLinkGraphics link
                  ∧ GraphLinkTypesPluginSettings.tagColors settings = true)
               ∨ (c = CallAddLink link ∧ updateMap = true)).
Proof.
  revert s calls. induction links as [|link links IH]; intros s calls; [by left|].
  cbn [fold_left].
  pose proof (updateLink_calls resolve settings updateMap s calls link c) as Hc.
  destruct (updateLink resolve settings updateMap (s, calls) link) as [s1 calls1].
  intros [Hin|(l & Hl & Hcase)]%IH.
  - apply Hc in Hin as [?|[?|[[? ?]|(? & ? & ?)]]]; [by left|right..];
      exists link; (split; [by left|]); eauto.
  - right. exists l. split; [by right|done].
Qed.

Lemma fold_updateLink_calls_mono resolve settings updateMap links s calls c :
  c ∈ calls →
  c ∈ (fold_left (updateLink resolve settings updateMap) links (s, calls)).2.
Proof.
  revert s calls. induction links as [|link links IH]; intros s calls Hc; [done|].
  cbn [fold_left].
  pose proof (updateLink_calls resolve settings updateMap s calls link c) as Hu.
  destruct (updateLink resolve settings updateMap (s, calls) link) as [s1 calls1].
  apply IH, Hu. by left.
Qed.

Lemma fold_updateLink_refreshes resolve settings updateMap links s calls link :
  link ∈ links →
  CallUpdateLinkText link
    ∈ (fold_left (updateLink resolve settings updateMap) links (s, calls)).2
  ∧ (GraphLinkTypesPluginSettings.tagColors settings = true →
     CallUpdateLinkGraphics link
       ∈ (fold_left (updateLink resolve settings updateMap) links (s, calls)).2).
Proof.
  revert s calls. induction links as [|l links IH]; intros s calls Hin.
  - by apply elem_of_nil in Hin.
  - cbn [fold_left].
    pose proof (updateLink_calls resolve settings updateMap s calls l) as Hu.
    destruct (updateLink resolve settings updateMap (s, calls) l) as [s1 calls1].
    apply elem_of_cons in Hin as [->|Hin]; [|by apply IH].
    split.
    + apply fold_updateLink_calls_mono, Hu. right. by left.
    + intros Htc. apply fold_updateLink_calls_mono, Hu. right. right. by left.
Qed.

(** Every tick refreshes the label of every live link, and its indicator
    when colour mode is on; it refreshes nothing else, it refreshes no
    indicator when colour mode is off, and it calls [addLink] only for live
    links and only on a structural tick. *)
Theorem tick_calls resolve settings animationFrameId links s :
  let calls := (updatePositions resolve settings animationFrameId links s).2 in
  (∀ link, CallUpdateLinkText link ∈ calls ↔ link ∈ links)
  ∧ (∀ link, CallUpdateLinkGraphics link ∈ calls
             ↔ link ∈ links
               ∧ GraphLinkTypesPluginSettings.tagColors settings = true)
  ∧ (∀ link, CallAddLink link ∈ calls
             → link ∈ links ∧ isUpdateMapFrame animationFrameId = true)
  ∧ (∀ currentLinks, CallRemoveLinks currentLinks ∈ calls
                     → currentLinks = links
                       ∧ isUpdateMapFrame animationFrameId = true).
Proof.
  intros calls. subst calls. unfold updatePositions.
  set (updateMap := isUpdateMapFrame animationFrameId).
  set (acc := if updateMap then (removeLinks links s, [CallRemoveLinks links])
              else (s, [])).
  assert (∀ c, c ∈ acc.2 → c = CallRemoveLinks links ∧ updateMap = true) as Hacc.
  { intros c. subst acc. destruct updateMap; simpl.
    - by intros ->%list_elem_of_singleton.
    - by intros ?%elem_of_nil. }
  destruct acc as [s0 calls0]. simpl in Hacc.
  split_and!.
  - intros link. split.
    + intros [Hin|(l & Hl & [Hc|[[Hc _]|[Hc _]]])]%fold_updateLink_calls.
      * by apply Hacc in Hin as [? _].
      * by injection Hc as ->.
      * done.
      * done.
    + intros Hin. by apply fold_updateLink_refreshes.
  - intros link. split.
    + intros [Hin|(l & Hl & [Hc|[[Hc Htc]|[Hc _]]])]%fold_updateLink_calls.
      * by apply Hacc in Hin as [? _].
      * done.
      * by injection Hc as ->.
      * done.
    + intros [Hin Htc]. by apply fold_updateLink_refreshes.
  - intros link [Hin|(l & Hl & [Hc|[[Hc _]|[Hc Hm]]])]%fold_updateLink_calls.
    + by apply Hacc in Hin as [? _].
    + done.
    + done.
    + by injection Hc as ->.
  - intros currentLinks
      [Hin|(l & Hl & [Hc|[[Hc _]|[Hc _]]])]%fold_updateLink_calls; try done.
    apply Hacc in Hin as [Hc ?]. by injection Hc as ->.
Qed.

(** * Adding an edge and removing it again *)

Lemma Map_delete_set {V} k (v : V) m :
  Map_get k m = None → Map_delete k (Map_set k v m) = m.
Proof.
  induction m as [|[k' v'] m IH]; simpl.
  - by rewrite decide_True.
  - destruct (decide (k = k')) as [->|Hne]; [done|]. intros Hm. simpl.
    rewrite decide_False by done. by rewrite IH.
Qed.

Lemma Map_set_set {V} k (v v' : V) m :
  Map_set k v' (Map_set k v m) = Map_set k v' m.
Proof.
  induction m as [|[k0 v0] m IH]; simpl.
  - by rewrite decide_True.
  - destruct (decide (k = k0)) as [->|Hne]; simpl.
    + by rewrite decide_True.
    + rewrite decide_False by done. by rewrite IH.
Qed.

(** The authoritative map after [addLink] of an edge whose reverse key is not
    tracked: one new entry under the key of the edge, with the elements that
    were created for it. *)
Lemma addLink_linksMap_isolated resolve link useTagColors tagLegend s :
  Map_get (reverseKeyOf link) (linksMap s) = None →
  ∃ e, linksMap (addLink resolve link useTagColors tagLegend s)
       = Map_set (keyOf link) e (linksMap s)
       ∧ obsidianLink e = link
       ∧ ∀ text graphics s',
           (let p := if hasReverse link (linksMap s)
                     then LinkPair.Second else LinkPair.None in
            let '(t, s1) := initializeLinkText resolve link p s in
            let '(g, s2) :=
              if useTagColors then initializeLinkGraphics resolve link tagLegend s1
              else (None, s1) in
            (t, g, s2)) = (text, graphics, s') →
           pixiText e = text ∧ pixiGraphics e = graphics.
Proof.
  intros Hrev. unfold addLink. cbv zeta.
  destruct (initializeLinkText resolve link _ s) as [t s1] eqn:Ht.
  pose proof (initializeLinkText_linksMap resolve link
                (if hasReverse link (linksMap s) then LinkPair.Second
                 else LinkPair.None) s) as Hm1.
  rewrite Ht in Hm1. simpl in Hm1.
  assert (∃ g s2, (if useTagColors
                   then initializeLinkGraphics resolve link tagLegend s1
                   else (None, s1)) = (g, s2) ∧ linksMap s2 = linksMap s)
    as (g & s2 & -> & Hm2).
  { destruct useTagColors.
    - pose proof (initializeLinkGraphics_linksMap resolve link tagLegend s1) as Hg.
      destruct (initializeLinkGraphics resolve link tagLegend s1) as [g s2].
      exists g, s2. split; [done|]. simpl in Hg. congruence.
    - by exists None, s1. }
  cbn [linksMap with_linksMap]. rewrite Hm2.
  set (new := {| obsidianLink := link; pairStatus := _; pixiText := t;
                 pixiGraphics := g |}).
  destruct (hasReverse link (Map_set (keyOf link) new (linksMap s))) eqn:Hhas.
  - destruct (decide (reverseKeyOf link = keyOf link)) as [Heq|Hne].
    + rewrite Heq, Map_get_set_eq. cbn [linksMap with_linksMap]. rewrite Map_set_set.
      eexists. split; [done|]. split; [done|]. by intros ??? [= <- <- _].
    + rewrite Map_get_set_ne, Hrev by done. cbn [linksMap with_linksMap].
      exists new. split; [done|]. split; [done|]. by intros ??? [= <- <- _].
  - cbn [linksMap with_linksMap].
    exists new. split; [done|]. split; [done|]. by intros ??? [= <- <- _].
Qed.

(** An edge the resolver does not classify leaves no trace: when neither its
    key nor its reverse key is tracked, [addLink] followed by [removeLink]
    gives back the very same state, in colour mode or not. *)
Theorem addLink_removeLink_unclassified resolve link useTagColors tagLegend s :
  resolve (Node.id (source link)) (Node.id (target link)) = None →
  Map_get (keyOf link) (linksMap s) = None →
  Map_get (reverseKeyOf link) (linksMap s) = None →
  removeLink link (addLink resolve link useTagColors tagLegend s) = s.
Proof.
  intros Hres Hkey Hrev.
  destruct (addLink_linksMap_isolated resolve link useTagColors tagLegend s Hrev)
    as (e & Hmap & _ & He).
  destruct (He None None s) as [Ht Hg].
  { cbv zeta. rewrite initializeLinkText_None by done.
    destruct useTagColors; [|done].
    by rewrite initializeLinkGraphics_None. }
  assert (addLink resolve link useTagColors tagLegend s
          = with_linksMap (Map_set (keyOf link) e (linksMap s)) s) as ->.
  { rewrite <- Hmap. unfold addLink. cbv zeta.
    rewrite initializeLinkText_None by done.
    assert ((if useTagColors
             then initializeLinkGraphics resolve link tagLegend s
             else (None, s)) = (None, s)) as ->.
    { destruct useTagColors; [|done]. by rewrite initializeLinkGraphics_None. }
    destruct s. cbn. by repeat case_match. }
  unfold removeLink. cbn [linksMap with_linksMap].
  rewrite Map_get_set_eq. cbn [pixiTextOf pixiGraphicsOf]. rewrite Ht, Hg.
  cbn [releaseText linksMap with_linksMap]. rewrite Map_delete_set by done.
  rewrite Hrev. by destruct s.
Qed.

Lemma addLink_removeLink_unclassified_witness :
  let s := addLink resolveParent (edge "A" "B") true true initial in
  removeLink (edge "B" "C") (addLink apiA_resolver (edge "B" "C") true true s) = s.
Proof.
  apply (addLink_removeLink_unclassified apiA_resolver (edge "B" "C") true true);
    reflexivity.
Defined.

Lemma updateLinkText_untracked link tagNames s :
  Map_get (keyOf link) (linksMap s) = None → updateLinkText link tagNames s = s.
Proof. intros H. unfold updateLinkText. by rewrite H. Qed.

Lemma updateLinkGraphics_untracked link s :
  Map_get (keyOf link) (linksMap s) = None → updateLinkGraphics link s = s.
Proof. intros H. unfold updateLinkGraphics. by rewrite H. Qed.

Lemma textOf_kindAt o s t : kindAt o s = Some (PixiText t) → textOf o s = Some t.
Proof.
  unfold kindAt, textOf. destruct (heap s !! o) as [[k a d]|]; [|done].
  simpl. by intros [= ->].
Qed.

Lemma detach_kindAt r s o : kindAt o (detach r s) = kindAt o s.
Proof.
  unfold detach, kindAt. case_match; [|done]. simpl. by apply alter_kind.
Qed.

Lemma detach_legendState o s : legendState (detach o s) = legendState s.
Proof. by destruct (detach_frame o s) as [h ->]. Qed.

Lemma detach_linksMap o s : linksMap (detach o s) = linksMap s.
Proof. by destruct (detach_frame o s) as [h ->]. Qed.

Lemma release_reclaim_children colorKey s lg :
  tagColors s !! colorKey = Some lg →
  nUsing lg - 1 < 1 →
  children (release colorKey s)
  = filter (λ c, c ≠ legendGraphics lg)
      (filter (λ c, c ≠ legendText lg) (children s)).
Proof.
  intros Hsome Hn. unfold release. rewrite Hsome. simpl.
  destruct (Z.ltb_spec (nUsing lg - 1) 1); [|lia]. simpl.
  destruct (_ <? 0); simpl; by rewrite !detach_children.
Qed.

Lemma filter_fresh_app (o : ref) (c l : list ref) :
  o ∉ c → filter (λ x, x ≠ o) (c ++ l)%list = (c ++ filter (λ x, x ≠ o) l)%list.
Proof. intros Ho. by rewrite filter_app, filter_ne_absent. Qed.

(** The state after [addLink] of an untracked edge that is not a self-loop
    and is classified with a label that is not in the legend. *)
Lemma addLink_fresh_label resolve link useTagColors tagLegend s label :
  Node.id (source link) ≠ Node.id (target link) →
  resolve (Node.id (source link)) (Node.id (target link)) = Some label →
  tagColors s !! label = None →
  Map_get (keyOf link) (linksMap s) = None →
  Map_get (reverseKeyOf link) (linksMap s) = None →
  let n := nextRef s in
  let s1 := addLink resolve link useTagColors tagLegend s in
  (∃ e, linksMap s1 = Map_set (keyOf link) e (linksMap s)
        ∧ pixiText e = Some n
        ∧ pixiGraphics e = if useTagColors then Some (S (S (S n))) else None)
  ∧ children s1
    = (children s
       ++ if useTagColors then [n; S n; S (S n); S (S (S n))] else [n])%list
  ∧ kindAt n s1 = Some (PixiText label)
  ∧ legendState s1
    = if useTagColors
      then (<[label := {| color := colorAt (currentTagColorIndex s);
                          legendText := S n; legendGraphics := S (S n);
                          nUsing := 0 |}]> (tagColors s),
            Z.rem (currentTagColorIndex s + 1) 20, yOffset s + lineHeight)
      else legendState s.
Proof.
  intros Hne Hres Hfresh Hkey Hrev n s1.
  assert (hasReverse link (linksMap s) = false) as Hhas.
  { unfold hasReverse, Map_has. rewrite Hrev. apply andb_false_r. }
  (* the label *)
  set (sT := addChild n (new (PixiText label) s).2).
  assert (initializeLinkText resolve link LinkPair.None s = (Some n, sT)) as HT.
  { unfold initializeLinkText. rewrite Hres, decide_False by done.
    cbn [new fst snd]. by rewrite updateLinkText_untracked. }
  (* the indicator, in colour mode *)
  set (sA := (acquire label tagLegend sT).2).
  set (sG := addChild (nextRef sA)
               (new (PixiGraphics (lineStyleColor (acquire label tagLegend sT).1)) sA).2).
  assert (initializeLinkGraphics resolve link tagLegend sT = (Some (nextRef sA), sG))
    as HG.
  { unfold initializeLinkGraphics. rewrite Hres, decide_False by done.
    subst sG sA. pose proof (acquire_linksMap label tagLegend sT) as Hm.
    destruct (acquire label tagLegend sT) as [c sA]. cbn [new fst snd] in *.
    rewrite updateLinkGraphics_untracked; [done|].
    cbn [linksMap addChild with_children]. by rewrite Hm. }
  assert (tagColors sT !! label = None) as HfreshT by done.
  assert (nextRef sA = S (S (S n))
          ∧ children sA = (children s ++ [n; S n; S (S n)])%list
          ∧ kindAt n sA = Some (PixiText label)) as (HnA & HcA & HkA).
  { subst sA. unfold acquire. rewrite HfreshT. cbn. unfold kindAt.
    destruct tagLegend; cbn;
      rewrite ?lookup_alter_ne, !lookup_insert_ne, ?lookup_insert_eq by lia;
      rewrite <- ?app_assoc; by split_and!. }
  pose proof (acquire_fresh label tagLegend sT HfreshT) as HlegA. fold sA in HlegA.
  destruct (addLink_linksMap_isolated resolve link useTagColors tagLegend s Hrev)
    as (e & Hmap & _ & He).
  destruct useTagColors.
  - destruct (He (Some n) (Some (nextRef sA)) sG) as [Ht Hg].
    { cbv zeta. by rewrite Hhas, HT, HG. }
    assert (s1 = with_linksMap (linksMap s1) sG) as Hs1.
    { subst s1. unfold addLink. cbv zeta. rewrite Hhas, HT, HG.
      cbn [linksMap with_linksMap]. by repeat case_match. }
    split_and!.
    + exists e. by rewrite Ht, Hg, HnA.
    + rewrite Hs1. subst sG. cbn. rewrite HcA, HnA. by rewrite <- app_assoc.
    + rewrite Hs1. subst sG. unfold kindAt in *. cbn.
      rewrite lookup_insert_ne by lia. done.
    + rewrite Hs1. subst sG. cbn. unfold legendState in HlegA.
      by injection HlegA as -> -> ->.
  - destruct (He (Some n) None sT) as [Ht Hg].
    { cbv zeta. by rewrite Hhas, HT. }
    assert (s1 = with_linksMap (linksMap s1) sT) as Hs1.
    { subst s1. unfold addLink. cbv zeta. rewrite Hhas, HT.
      cbn [linksMap with_linksMap]. by repeat case_match. }
    split_and!.
    + exists e. by rewrite Ht, Hg.
    + by rewrite Hs1.
    + rewrite Hs1. unfold kindAt. cbn. by rewrite lookup_insert_eq.
    + by rewrite Hs1.
Qed.

Lemma removeLink_parts link s e :
  Map_get (keyOf link) (linksMap s) = Some e →
  let s1 := match pixiText e with Some t => detach t s | None => s end in
  let s2 := match pixiGraphics e with Some g => detach g s1 | None => s1 end in
  let s3 := releaseText (match pixiText e with
                         | Some t => textOf t s2
                         | None => None
                         end) s2 in
  children (removeLink link s) = children s3
  ∧ legendState (removeLink link s) = legendState s3.
Proof.
  intros He. unfold removeLink. rewrite He. cbn [pixiTextOf pixiGraphicsOf].
  cbv zeta. by repeat case_match.
Qed.

(** [addLink] and then [removeLink] of an edge with a new label, in a state
    with the palette cursor in the palette and only objects created so far
    on the stage. *)
Lemma addLink_removeLink_fresh_label_at resolve link useTagColors tagLegend s label :
  Node.id (source link) ≠ Node.id (target link) →
  resolve (Node.id (source link)) (Node.id (target link)) = Some label →
  label ≠ EmptyString → LF ∉ list_ascii_of_string label →
  tagColors s !! label = None →
  cursorInPalette s →
  stageFresh s →
  Map_get (keyOf link) (linksMap s) = None →
  Map_get (reverseKeyOf link) (linksMap s) = None →
  let s' := removeLink link (addLink resolve link useTagColors tagLegend s) in
  linksMap s' = linksMap s
  ∧ children s' = children s
  ∧ legendState s' = legendState s.
Proof.
  intros Hne Hres Hlabel HLF Hfresh Hcur Hstage Hkey Hrev s'.
  destruct (addLink_fresh_label resolve link useTagColors tagLegend s label
              Hne Hres Hfresh Hkey Hrev)
    as ((e & Hmap & Ht & Hg) & Hch & Hkind & Hleg).
  set (s1 := addLink resolve link useTagColors tagLegend s) in *.
  set (n := nextRef s) in *.
  assert (∀ k, (n ≤ k)%nat → k ∉ children s) as Hnew.
  { intros k Hk Hin. apply Hstage in Hin. fold n in Hin. lia. }
  assert (Map_get (keyOf link) (linksMap s1) = Some e) as He
    by by rewrite Hmap, Map_get_set_eq.
  split.
  - subst s'. rewrite removeLink_linksMap, Hmap. cbv zeta.
    rewrite Map_delete_set by done. by rewrite Hrev.
  - destruct (removeLink_parts link s1 e He) as [Hc' Hl']. fold s' in Hc', Hl'.
    rewrite Hc', Hl', Ht, Hg. clear Hc' Hl'.
    assert (∀ s0, kindAt n s0 = Some (PixiText label) →
                  releaseText (textOf n s0) s0 = release label s0) as Hrel.
    { intros s0 Hk. rewrite (textOf_kindAt _ _ _ Hk).
      by apply releaseText_release. }
    destruct useTagColors.
    + set (s2 := detach (S (S (S n))) (detach n s1)).
      assert (kindAt n s2 = Some (PixiText label)) as Hk2
        by by (subst s2; rewrite !detach_kindAt).
      rewrite (Hrel s2 Hk2).
      assert (legendState s2 = legendState s1) as Hleg2
        by by (subst s2; rewrite !detach_legendState).
      assert (children s2 = (children s ++ [S n; S (S n)])%list) as Hch2.
      { subst s2. rewrite !detach_children, Hch.
        rewrite !filter_fresh_app by (apply Hnew; lia).
        repeat (first [rewrite filter_cons_True by lia
                      |rewrite filter_cons_False by lia]).
        by rewrite filter_nil. }
      set (lg := {| color := colorAt (currentTagColorIndex s);
                    legendText := S n; legendGraphics := S (S n);
                    nUsing := 0 |}) in *.
      assert (tagColors s2 !! label = Some lg) as Hlg.
      { injection Hleg2 as -> _ _. injection Hleg as -> _ _.
        by rewrite lookup_insert_eq. }
      assert (nUsing lg - 1 < 1) as Hlast by (simpl; lia).
      split.
      * rewrite (release_reclaim_children label s2 lg Hlg Hlast), Hch2. simpl.
        rewrite !filter_fresh_app by (apply Hnew; lia).
        repeat (first [rewrite filter_cons_True by lia
                      |rewrite filter_cons_False by lia]).
        by rewrite filter_nil, app_nil_r.
      * rewrite (release_reclaim label s2 lg Hlg Hlast).
        injection Hleg2 as -> -> ->. injection Hleg as -> -> ->.
        unfold legendState. rewrite delete_insert_eq, delete_id by done.
        rewrite rollBack_advance by (unfold cursorInPalette in Hcur; simpl in Hcur; lia).
        do 2 f_equal. lia.
    + set (s2 := detach n s1).
      assert (kindAt n s2 = Some (PixiText label)) as Hk2
        by by (subst s2; rewrite detach_kindAt).
      rewrite (Hrel s2 Hk2).
      assert (legendState s2 = legendState s) as Hleg2
        by by (subst s2; rewrite detach_legendState).
      assert (tagColors s2 !! label = None) as Hlg.
      { injection Hleg2 as -> _ _. done. }
      rewrite release_absent by done. split; [|done].
      subst s2. rewrite detach_children, Hch.
      rewrite filter_fresh_app by (apply Hnew; lia).
      rewrite filter_cons_False by lia. by rewrite filter_nil, app_nil_r.
Qed.

(** * The elements of a classified edge *)

Lemma acquire_shape label tagLegend s :
  (nextRef s ≤ nextRef (acquire label tagLegend s).2)%nat
  ∧ (∀ o, (o < nextRef s)%nat →
          kindAt o (acquire label tagLegend s).2 = kindAt o s)
  ∧ (∀ o, o ∈ children s → o ∈ children (acquire label tagLegend s).2).
Proof.
  unfold acquire. destruct (tagColors s !! label) as [lg|]; [by split_and!|].
  cbn. split_and!.
  - destruct tagLegend; cbn; lia.
  - intros o Ho. unfold kindAt.
    destruct tagLegend; cbn;
      rewrite ?alter_kind by done; by rewrite !lookup_insert_ne by lia.
  - intros o Ho. destruct tagLegend; cbn; rewrite !elem_of_app; tauto.
Qed.

Lemma initializeLinkGraphics_classified resolve link tagLegend s label :
  Node.id (source link) ≠ Node.id (target link) →
  resolve (Node.id (source link)) (Node.id (target link)) = Some label →
  let sA := (acquire label tagLegend s).2 in
  ∃ s', initializeLinkGraphics resolve link tagLegend s = (Some (nextRef sA), s')
        ∧ linksMap s' = linksMap s
        ∧ tagColors s' = tagColors sA
        ∧ children s' = (children sA ++ [nextRef sA])%list
        ∧ kindAt (nextRef sA) s'
          = Some (PixiGraphics (lineStyleColor (acquire label tagLegend s).1))
        ∧ ∀ o, o ≠ nextRef sA → kindAt o s' = kindAt o sA.
Proof.
  intros Hne Hres sA. subst sA. unfold initializeLinkGraphics.
  rewrite Hres, decide_False by done.
  pose proof (acquire_linksMap label tagLegend s) as Hm.
  destruct (acquire label tagLegend s) as [c sA]. cbn [new addChild fst snd] in *.
  match goal with
  | |- context [updateLinkGraphics ?l ?s0] =>
      pose proof (updateLinkGraphics_kindAt l s0) as Hk;
      destruct (updateLinkGraphics_frame l s0) as [h Hh]
  end.
  eexists. split; [reflexivity|]. rewrite Hh in *. split_and!; try done.
  - unfold kindAt in *. simpl in *. by rewrite Hk, lookup_insert_eq.
  - intros o Ho. unfold kindAt in *. simpl in *. by rewrite Hk, lookup_insert_ne.
Qed.

(** The end of [addLink]: the new entry is stored under the key of the link
    (its pair status is flipped only when the key is its own reverse key),
    and nothing but the map changes. *)
Lemma addLink_tail link new s :
  let s3 := with_linksMap (Map_set (keyOf link) new (linksMap s)) s in
  let s4 := if hasReverse link (linksMap s3) then
              match Map_get (reverseKeyOf link) (linksMap s3) with
              | Some reverseLink =>
                  with_linksMap
                    (Map_set (reverseKeyOf link)
                       (set_pairStatus LinkPair.First reverseLink) (linksMap s3)) s3
              | None => s3
              end
            else s3 in
  (∃ e, Map_get (keyOf link) (linksMap s4) = Some e ∧ sameEntry e new
        ∧ (keyOf link ≠ reverseKeyOf link → e = new))
  ∧ children s4 = children s ∧ heap s4 = heap s ∧ tagColors s4 = tagColors s.
Proof.
  cbv zeta. cbn [linksMap with_linksMap].
  destruct (hasReverse link _);
    [destruct (Map_get (reverseKeyOf link) _) as [r|] eqn:Hr|];
    cbn [linksMap with_linksMap children heap tagColors]; (split; [|done]).
  - destruct (decide (reverseKeyOf link = keyOf link)) as [Heq|Hneq].
    + rewrite Heq in *. rewrite Map_get_set_eq in *. injection Hr as <-.
      eexists. split; [done|]. split; [done|]. by intros [].
    + rewrite Map_get_set_ne, Map_get_set_eq by done. by eexists.
  - rewrite Map_get_set_eq. by eexists.
  - rewrite Map_get_set_eq. by eexists.
Qed.

(** In colour mode, the entry [addLink] stores for a classified edge that is
    not a self-loop owns a label and an indicator that are both on the
    stage. The text of the label is the resolver's answer, preceded by two
    line feeds exactly when the reverse key was tracked before the call, and
    when the key is not its own reverse key the pair status of the entry is
    [Second] in that case and [None] otherwise. The legend has a row for the
    answer, and the stroke colour of the indicator is what [lineStyle]
    stores for the colour of that row. *)
Theorem addLink_classified_elements resolve link tagLegend s label :
  Node.id (source link) ≠ Node.id (target link) →
  resolve (Node.id (source link)) (Node.id (target link)) = Some label →
  let s' := addLink resolve link true tagLegend s in
  let mirrored := Map_has (reverseKeyOf link) (linksMap s) in
  ∃ e t o lg,
    Map_get (keyOf link) (linksMap s') = Some e
    ∧ obsidianLink e = link
    ∧ (keyOf link ≠ reverseKeyOf link →
       pairStatus e = if mirrored then LinkPair.Second else LinkPair.None)
    ∧ pixiText e = Some t ∧ t ∈ children s'
    ∧ kindAt t s' = Some (PixiText (if mirrored then twoLF ++ label else label))
    ∧ pixiGraphics e = Some o ∧ o ∈ children s'
    ∧ tagColors s' !! label = Some lg
    ∧ kindAt o s' = Some (PixiGraphics (lineStyleColor (color lg))).
Proof.
  intros Hne Hres s' mirrored. subst s'. unfold addLink.
  assert (hasReverse link (linksMap s) = mirrored) as Hhas.
  { unfold hasReverse. by rewrite bool_decide_true. }
  rewrite Hhas.
  set (p := if mirrored then LinkPair.Second else LinkPair.None).
  destruct (initializeLinkText_Some resolve link p s label Hres)
    as (s1 & -> & _ & Hm1 & Hc1 & Hn1 & Hk1 & _).
  assert (labelText link p label = if mirrored then twoLF ++ label else label) as Htext.
  { unfold labelText, p. rewrite decide_False by done. by destruct mirrored. }
  rewrite Htext in Hk1.
  destruct (initializeLinkGraphics_classified resolve link tagLegend s1 label
              Hne Hres) as (s2 & -> & Hm2 & Ht2 & Hc2 & Hk2 & Hko2).
  destruct (acquire_shape label tagLegend s1) as (Hnext & HkA & HcA).
  destruct (acquire_stored label tagLegend s1) as (lg & Hlg & Hcol).
  set (sA := (acquire label tagLegend s1).2) in *.
  set (new := {| obsidianLink := link; pairStatus := p;
                 pixiText := Some (nextRef s); pixiGraphics := Some (nextRef sA) |}).
  destruct (addLink_tail link new s2)
    as ((e & He & (Hl & Ht & Hg) & Hnew) & Hch & Hheap & Htc).
  cbv zeta in He, Hch, Hheap, Htc. cbv zeta.
  exists e, (nextRef s), (nextRef sA), lg.
  unfold kindAt in *. rewrite Hch, Hheap, Htc, Hc2, Ht2.
  split_and!; try done.
  - intros Hkeys. by rewrite (Hnew Hkeys).
  - apply elem_of_app. left. apply HcA. rewrite Hc1. apply elem_of_app.
    right. by left.
  - rewrite Hko2 by lia. rewrite HkA by lia. done.
  - apply elem_of_app. right. by left.
  - by rewrite Hk2, Hcol.
Qed.

Lemma addLink_classified_elements_witness :
  let s' := addLink resolveParent (edge "B" "A") true true
              (addLink resolveParent (edge "A" "B") true true initial) in
  ∃ e t o lg,
    Map_get "B-A" (linksMap s') = Some e
    ∧ obsidianLink e = edge "B" "A"
    ∧ ("B-A" ≠ "A-B" → pairStatus e = LinkPair.Second)
    ∧ pixiText e = Some t ∧ t ∈ children s'
    ∧ kindAt t s' = Some (PixiText (twoLF ++ "parent"))
    ∧ pixiGraphics e = Some o ∧ o ∈ children s'
    ∧ tagColors s' !! "parent" = Some lg
    ∧ kindAt o s' = Some (PixiGraphics (lineStyleColor (color lg))).
Proof.
  apply (addLink_classified_elements resolveParent (edge "B" "A") true
           (addLink resolveParent (edge "A" "B") true true initial) "parent").
  - discriminate.
  - reflexivity.
Defined.

(** * Destroyed objects and the stage *)

Lemma grows_refl s : grows s s.
Proof. split; [done|]. intros o Ho. by left. Qed.

Lemma grows_trans s1 s2 s3 : grows s1 s2 → grows s2 s3 → grows s1 s3.
Proof.
  intros [Ha Hc] [Ha' Hc']. split; [by auto|].
  intros o Ho. destruct (Hc' o Ho) as [Ho2|?]; [|by right].
  destruct (Hc o Ho2) as [?|?]; [by left|right; by auto].
Qed.

Lemma grows_same s s' :
  heap s' = heap s → children s' = children s → grows s s'.
Proof.
  intros Hh Hc. unfold grows, aliveAt. rewrite Hh, Hc. split; [done|].
  intros o Ho. by left.
Qed.

Lemma grows_alter f r s :
  (∀ x, destroyed (f x) = destroyed x) →
  grows s (with_heap (alter f r (heap s)) s).
Proof.
  intros Hf. split; [|intros o Ho; by left].
  intros o (d & Hd & Halive). unfold aliveAt. simpl.
  destruct (decide (r = o)) as [->|Hne].
  - exists (f d). rewrite lookup_alter_eq, Hd. split; [done|]. by rewrite Hf.
  - exists d. by rewrite lookup_alter_ne.
Qed.

Lemma grows_new k s :
  grows s (new k s).2 ∧ aliveAt (nextRef s) (new k s).2.
Proof.
  unfold grows, aliveAt. simpl. split; [split|].
  - intros o (d & Hd & Halive). destruct (decide (nextRef s = o)) as [<-|Hne].
    + rewrite lookup_insert_eq. by eexists.
    + rewrite lookup_insert_ne by done. by eexists.
  - intros o Ho. by left.
  - rewrite lookup_insert_eq. by eexists.
Qed.

Lemma grows_addChild o s : aliveAt o s → grows s (addChild o s).
Proof.
  intros Ho. split; [done|]. intros o'. unfold addChild. simpl.
  rewrite elem_of_app, list_elem_of_singleton. intros [?| ->]; [by left|by right].
Qed.

Lemma grows_updateLinkText link tagNames s : grows s (updateLinkText link tagNames s).
Proof.
  unfold updateLinkText. repeat case_match; try apply grows_refl.
  by apply grows_alter.
Qed.

Lemma grows_updateLinkGraphics link s : grows s (updateLinkGraphics link s).
Proof.
  unfold updateLinkGraphics. repeat case_match; try apply grows_refl.
  apply grows_alter. intros x. unfold redraw, lineStyle. by destruct (kind x).
Qed.

Lemma grows_created k s :
  grows s (addChild (new k s).1 (new k s).2).
Proof.
  destruct (grows_new k s) as [Hg Ha].
  eapply grows_trans; [exact Hg|]. by apply grows_addChild.
Qed.

Lemma grows_initializeLinkText resolve link p s :
  grows s (initializeLinkText resolve link p s).2.
Proof.
  unfold initializeLinkText.
  destruct (resolve _ _) as [str|]; [|apply grows_refl].
  match goal with
  | |- context [new ?k s] => destruct (grows_new k s) as [Hg Ha]; cbn [new fst snd] in *
  end.
  eapply grows_trans; [exact Hg|].
  eapply grows_trans; [apply grows_updateLinkText|].
  apply grows_addChild. by apply grows_updateLinkText.
Qed.

Lemma grows_acquire label tagLegend s : grows s (acquire label tagLegend s).2.
Proof.
  unfold acquire. destruct (tagColors s !! label) as [lg|];
    [by apply grows_same|].
  pose (c := lineStyleColor (colorAt (currentTagColorIndex s))).
  pose (s1 := with_currentTagColorIndex
                (Z.rem (currentTagColorIndex s + 1)
                   (Z.of_nat (length categoricalColors))) s).
  pose (s2 := addChild (new (PixiText label) s1).1 (new (PixiText label) s1).2).
  pose (s3 := addChild (new (PixiGraphics c) s2).1 (new (PixiGraphics c) s2).2).
  pose (s4 := with_heap (alter (set_alpha 0) (nextRef s2) (heap s3)) s3).
  pose (s5 := with_heap (alter (set_alpha 0) (nextRef s1) (heap s4)) s4).
  assert (grows s s3) as H3.
  { eapply grows_trans; [apply (grows_same s s1); reflexivity|].
    eapply grows_trans; [apply (grows_created (PixiText label) s1)|].
    apply (grows_created (PixiGraphics c) s2). }
  destruct tagLegend.
  - eapply grows_trans; [exact H3|]. apply grows_same; reflexivity.
  - eapply grows_trans; [exact H3|].
    eapply grows_trans; [apply (grows_alter (set_alpha 0) (nextRef s2) s3); done|].
    eapply grows_trans; [apply (grows_alter (set_alpha 0) (nextRef s1) s4); done|].
    apply (grows_same s5); reflexivity.
Qed.

Lemma grows_initializeLinkGraphics resolve link tagLegend s :
  grows s (initializeLinkGraphics resolve link tagLegend s).2.
Proof.
  unfold initializeLinkGraphics.
  destruct (resolve _ _) as [str|]; [|apply grows_refl].
  assert (∀ c s0, grows s s0 →
            grows s (updateLinkGraphics link
                       (addChild (new (PixiGraphics c) s0).1
                          (new (PixiGraphics c) s0).2))) as Hrest.
  { intros c s0 H0. eapply grows_trans; [exact H0|].
    eapply grows_trans; [apply grows_created|]. apply grows_updateLinkGraphics. }
  destruct (decide _).
  - apply (Hrest (lineStyleColor None) s), grows_refl.
  - pose proof (grows_acquire str tagLegend s) as Ha.
    destruct (acquire str tagLegend s) as [c sA]. by apply (Hrest (lineStyleColor c) sA).
Qed.

Lemma grows_addLink resolve link useTagColors tagLegend s :
  grows s (addLink resolve link useTagColors tagLegend s).
Proof.
  unfold addLink.
  set (p := if hasReverse link (linksMap s) then LinkPair.Second else LinkPair.None).
  pose proof (grows_initializeLinkText resolve link p s) as H1.
  destruct (initializeLinkText resolve link p s) as [t s1]. cbn [snd] in H1.
  assert (grows s (if useTagColors
                   then initializeLinkGraphics resolve link tagLegend s1
                   else (None, s1)).2) as H2.
  { destruct useTagColors; [|done].
    eapply grows_trans; [exact H1|]. apply grows_initializeLinkGraphics. }
  destruct (if useTagColors then _ else _) as [g s2]. cbn [snd] in H2.
  eapply grows_trans; [exact H2|].
  repeat case_match; by apply grows_same.
Qed.

Lemma stageAlive_grows s s' : stageAlive s → grows s s' → stageAlive s'.
Proof.
  intros Hs [Ha Hc] o Ho. destruct (Hc o Ho) as [?|?]; [|done]. by apply Ha, Hs.
Qed.

Lemma stageAlive_same s s' :
  heap s' = heap s → children s' = children s → stageAlive s → stageAlive s'.
Proof. intros Hh Hc Hs. eapply stageAlive_grows; [exact Hs|]. by apply grows_same. Qed.

Lemma stageAlive_detach r s : stageAlive s → stageAlive (detach r s).
Proof.
  intros Hs o. rewrite detach_children_elem. intros [Ho Hne].
  destruct (Hs o Ho) as (d & Hd & Halive).
  unfold detach, aliveAt. case_match; [|by eexists].
  simpl. rewrite lookup_alter_ne by done. by eexists.
Qed.

Lemma stageAlive_release colorKey s : stageAlive s → stageAlive (release colorKey s).
Proof.
  intros Hs. unfold release. destruct (tagColors s !! colorKey) as [lg|]; [|done].
  cbn [nUsing set_nUsing legendText legendGraphics].
  destruct (_ <? 1); [|by eapply stageAlive_same; [..|exact Hs]].
  eapply stageAlive_same; [reflexivity|reflexivity|].
  do 2 apply stageAlive_detach.
  destruct (_ <? 0); by eapply stageAlive_same; [..|exact Hs].
Qed.

Lemma stageAlive_removeLink link s : stageAlive s → stageAlive (removeLink link s).
Proof.
  intros Hs. unfold removeLink.
  set (gl := Map_get (keyOf link) (linksMap s)).
  set (s1 := match pixiTextOf gl with Some text => detach text s | None => s end).
  assert (stageAlive s1) as H1.
  { subst s1. destruct (pixiTextOf gl); [by apply stageAlive_detach|done]. }
  set (s2 := match pixiGraphicsOf gl with Some g => detach g s1 | None => s1 end).
  assert (stageAlive s2) as H2.
  { subst s2. destruct (pixiGraphicsOf gl); [by apply stageAlive_detach|done]. }
  set (s3 := releaseText _ s2).
  assert (stageAlive s3) as H3.
  { subst s3. unfold releaseText. case_match; [|done].
    case_decide; [done|]. by apply stageAlive_release. }
  cbv zeta. repeat case_match; by eapply stageAlive_same; [..|exact H3].
Qed.

Lemma fold_visit_stageAlive skip keys s :
  stageAlive s → stageAlive (fold_left (visit skip) keys s).
Proof.
  revert s. induction keys as [|key keys IH]; intros s Hs; [done|].
  simpl. apply IH. unfold visit. repeat case_match; try done.
  by apply stageAlive_removeLink.
Qed.

(** No overlay object is left on the stage after [destroy] was called on
    it: in every state the link manager reaches, each object it has on the
    stage exists and was not destroyed. *)
Theorem stage_holds_no_destroyed_object s : reachable s → stageAlive s.
Proof.
  intros [ops <-]. unfold runAll.
  assert (stageAlive initial) as Hinit by (by intros o Ho%elem_of_nil).
  revert Hinit. generalize initial.
  induction ops as [|op ops IH]; intros s0 Hs0; [done|].
  simpl. apply IH. destruct op; simpl.
  - eapply stageAlive_grows; [exact Hs0|apply grows_addLink].
  - by apply stageAlive_removeLink.
  - rewrite removeLinks_visit. by apply fold_visit_stageAlive.
  - rewrite destroyMap_visit. by apply fold_visit_stageAlive.
  - eapply stageAlive_grows; [exact Hs0|apply grows_updateLinkText].
  - eapply stageAlive_grows; [exact Hs0|apply grows_updateLinkGraphics].
Qed.

Lemma stage_holds_no_destroyed_object_witness :
  stageAlive
    (removeLink (edge "A" "B")
       (addLink resolveParent (edge "B" "A") true true
          (addLink resolveParent (edge "A" "B") true true initial))).
Proof.
  apply stage_holds_no_destroyed_object.
  exists [OpAddLink resolveParent (edge "A" "B") true true;
          OpAddLink resolveParent (edge "B" "A") true true;
          OpRemoveLink (edge "A" "B")].
  reflexivity.
Defined.

(** * The objects [addLink] creates *)

Lemma appended_same s s' :
  nextRef s' = nextRef s → children s' = children s → appended 0 s s'.
Proof.
  intros Hn Hc. unfold appended. rewrite Hn, Hc. simpl.
  split; [lia|by rewrite app_nil_r].
Qed.

Lemma appended_trans n m s1 s2 s3 :
  appended n s1 s2 → appended m s2 s3 → appended (n + m) s1 s3.
Proof.
  intros [Hn Hc] [Hn' Hc']. unfold appended.
  rewrite Hn', Hc', Hn, Hc, seq_app, <- app_assoc. split; [lia|done].
Qed.

Lemma appended_created k s :
  appended 1 s (addChild (new k s).1 (new k s).2).
Proof. unfold appended. simpl. split; [lia|done]. Qed.

Lemma appended_initializeLinkText resolve link p s :
  appended (match resolve (Node.id (source link)) (Node.id (target link)) with
            | Some _ => 1%nat
            | None => 0%nat
            end)
    s (initializeLinkText resolve link p s).2.
Proof.
  unfold initializeLinkText.
  destruct (resolve _ _) as [str|]; [|by apply appended_same].
  cbn [new fst snd].
  match goal with
  | |- context [updateLinkText ?l ?b ?s0] =>
      destruct (updateLinkText_frame l b s0) as [h ->]
  end.
  unfold appended. simpl. split; [lia|done].
Qed.

Lemma appended_acquire label tagLegend s :
  appended (match tagColors s !! label with Some _ => 0%nat | None => 2%nat end)
    s (acquire label tagLegend s).2.
Proof.
  unfold acquire. destruct (tagColors s !! label) as [lg|];
    [by apply appended_same|].
  unfold appended. destruct tagLegend; simpl.
  - split; [lia|]. by rewrite <- app_assoc.
  - split; [lia|]. by rewrite <- app_assoc.
Qed.

Lemma appended_initializeLinkGraphics resolve link tagLegend s :
  appended (addLinkObjects resolve link true s
            - match resolve (Node.id (source link)) (Node.id (target link)) with
              | Some _ => 1
              | None => 0
              end)%nat
    s (initializeLinkGraphics resolve link tagLegend s).2.
Proof.
  unfold initializeLinkGraphics, addLinkObjects.
  destruct (resolve _ _) as [str|]; [|by apply appended_same].
  assert (∀ c n s0, appended n s s0 →
            appended (n + 1) s
              (updateLinkGraphics link
                 (addChild (new (PixiGraphics c) s0).1
                    (new (PixiGraphics c) s0).2))) as Hrest.
  { intros c n s0 H0. eapply appended_trans; [exact H0|].
    match goal with
    | |- context [updateLinkGraphics ?l ?s1] =>
        destruct (updateLinkGraphics_frame l s1) as [h ->]
    end.
    unfold appended. simpl. split; [lia|done]. }
  destruct (decide _).
  - apply (Hrest (lineStyleColor None) 0%nat s). by apply appended_same.
  - pose proof (appended_acquire str tagLegend s) as Ha.
    destruct (acquire str tagLegend s) as [c sA]. cbn [snd] in Ha.
    destruct (tagColors s !! str); by apply (Hrest (lineStyleColor c) _ sA) in Ha.
Qed.

Lemma appended_addLink resolve link useTagColors tagLegend s :
  appended (addLinkObjects resolve link useTagColors s) s
    (addLink resolve link useTagColors tagLegend s).
Proof.
  unfold addLink.
  set (p := if hasReverse link (linksMap s) then LinkPair.Second else LinkPair.None).
  pose proof (appended_initializeLinkText resolve link p s) as H1.
  assert (tagColors (initializeLinkText resolve link p s).2 = tagColors s) as Htc.
  { destruct (resolve (Node.id (source link)) (Node.id (target link)))
      as [str|] eqn:Hres.
    - destruct (initializeLinkText_Some resolve link p s str Hres)
        as (s1 & -> & Hleg & _). by injection Hleg.
    - by rewrite initializeLinkText_None. }
  destruct (initializeLinkText resolve link p s) as [t s1]. cbn [snd] in H1, Htc.
  assert (appended (addLinkObjects resolve link useTagColors s) s
            (if useTagColors
             then initializeLinkGraphics resolve link tagLegend s1
             else (None, s1)).2) as H2.
  { destruct useTagColors.
    - pose proof (appended_initializeLinkGraphics resolve link tagLegend s1) as Hg.
      pose proof (appended_trans _ _ _ _ _ H1 Hg) as H.
      unfold addLinkObjects in *. rewrite Htc in H.
      destruct (resolve _ _); [|done].
      destruct (decide _); [done|]. by destruct (tagColors s !! s0).
    - unfold addLinkObjects. by destruct (resolve _ _). }
  destruct (if useTagColors then _ else _) as [g s2]. cbn [snd] in H2.
  destruct H2 as [Hn Hc]. unfold appended.
  repeat case_match; simpl; by rewrite ?Hn, ?Hc.
Qed.

(** [addLink] attaches every object it creates, and creates nothing else:
    the stage grows by exactly the new objects, in the order of their
    creation. There is none for an unclassified edge, one (the label) outside
    colour mode, two (label and indicator) in colour mode for a self-loop or
    a type that has a legend row, and four for a type that gets a new row. *)
Theorem addLink_appends_created_objects resolve link useTagColors tagLegend s :
  appended (addLinkObjects resolve link useTagColors s) s
    (addLink resolve link useTagColors tagLegend s).
Proof. apply appended_addLink. Qed.

(** Only [addLink] puts objects on the stage: after a removal
    ([removeLink], [removeLinks], [destroyMap]) or a refresh
    ([updateLinkText], [updateLinkGraphics]) every child of the stage was a
    child before. *)
Theorem only_addLink_attaches op s o :
  (∀ resolve link useTagColors tagLegend,
     op ≠ OpAddLink resolve link useTagColors tagLegend) →
  o ∈ children (run s op) → o ∈ children s.
Proof.
  intros Hop. destruct op; simpl.
  - by destruct (Hop resolve link useTagColors tagLegend).
  - intros Ho. by apply removeLink_children in Ho as [? _].
  - rewrite removeLinks_visit. apply fold_visit_children.
  - rewrite destroyMap_visit. apply fold_visit_children.
  - by destruct (updateLinkText_frame link tagNames s) as [h ->].
  - by destruct (updateLinkGraphics_frame link s) as [h ->].
Qed.

Lemma only_addLink_attaches_witness :
  0%nat ∈ children (addLink resolveParent (edge "A" "B") true true initial).
Proof.
  apply (only_addLink_attaches (OpUpdateLinkText (edge "A" "B") true)).
  - discriminate.
  - apply (bool_decide_unpack _). by vm_compute.
Defined.

(** Two links whose source ids are free of the separator have the same key
    only if they join the same ids: the collisions of [generateKey] need a
    separator in a source id. *)
Theorem keyOf_collision_needs_separator l1 l2 :
  dashFree (Node.id (source l1)) → dashFree (Node.id (source l2)) →
  keyOf l1 = keyOf l2 →
  Node.id (source l1) = Node.id (source l2)
  ∧ Node.id (target l1) = Node.id (target l2).
Proof. intros H1 H2. unfold keyOf. by apply generateKey_inj. Qed.

Lemma keyOf_collision_needs_separator_witness :
  Node.id (source (edge "A" "B-C")) = Node.id (source (edge "A" "B-C"))
  ∧ Node.id (target (edge "A" "B-C")) = Node.id (target (edge "A" "B-C")).
Proof.
  apply (keyOf_collision_needs_separator (edge "A" "B-C") (edge "A" "B-C")).
  - unfold dashFree. simpl. rewrite list_elem_of_singleton. discriminate.
  - unfold dashFree. simpl. rewrite list_elem_of_singleton. discriminate.
  - reflexivity.
Defined.

(** * Round trips in reachable states *)

Lemma detach_nextRef o s : nextRef (detach o s) = nextRef s.
Proof. by destruct (detach_frame o s) as [h ->]. Qed.

Lemma release_nextRef colorKey s : nextRef (release colorKey s) = nextRef s.
Proof.
  unfold release. destruct (tagColors s !! colorKey) as [lg|]; [|done].
  cbn [nUsing set_nUsing legendText legendGraphics].
  destruct (_ <? 1); [|done]. cbn [nextRef with_tagColors].
  rewrite !detach_nextRef. by destruct (_ <? 0).
Qed.

Lemma removeLink_nextRef link s : nextRef (removeLink link s) = nextRef s.
Proof.
  unfold removeLink.
  set (gl := Map_get (keyOf link) (linksMap s)).
  set (s1 := match pixiTextOf gl with Some text => detach text s | None => s end).
  assert (nextRef s1 = nextRef s) as H1.
  { subst s1. destruct (pixiTextOf gl); [apply detach_nextRef|done]. }
  set (s2 := match pixiGraphicsOf gl with Some g => detach g s1 | None => s1 end).
  assert (nextRef s2 = nextRef s) as H2.
  { subst s2. destruct (pixiGraphicsOf gl); [by rewrite detach_nextRef|done]. }
  set (s3 := releaseText _ s2).
  assert (nextRef s3 = nextRef s) as H3.
  { subst s3. unfold releaseText. case_match; [|done].
    case_decide; [done|]. by rewrite release_nextRef. }
  cbv zeta. by repeat case_match.
Qed.

Lemma stageFresh_removeLink link s : stageFresh s → stageFresh (removeLink link s).
Proof.
  intros Hs o Ho. rewrite removeLink_nextRef.
  apply removeLink_children in Ho as [Ho _]. by apply Hs.
Qed.

Lemma fold_visit_stageFresh skip keys s :
  stageFresh s → stageFresh (fold_left (visit skip) keys s).
Proof.
  revert s. induction keys as [|key keys IH]; intros s Hs; [done|].
  simpl. apply IH. unfold visit. repeat case_match; try done.
  by apply stageFresh_removeLink.
Qed.

Lemma stageFresh_appended n s s' : appended n s s' → stageFresh s → stageFresh s'.
Proof.
  intros [Hn Hc] Hs o. rewrite Hc, Hn, elem_of_app, elem_of_seq.
  intros [Ho|Ho]; [apply Hs in Ho|]; lia.
Qed.

(** In every reachable state the objects on the stage were created by the
    link manager. *)
Lemma reachable_stageFresh s : reachable s → stageFresh s.
Proof.
  intros [ops <-]. unfold runAll.
  assert (stageFresh initial) as Hinit by (by intros o Ho%elem_of_nil).
  revert Hinit. generalize initial.
  induction ops as [|op ops IH]; intros s0 Hs0; [done|].
  simpl. apply IH. destruct op; simpl.
  - eapply stageFresh_appended; [apply appended_addLink|done].
  - by apply stageFresh_removeLink.
  - rewrite removeLinks_visit. by apply fold_visit_stageFresh.
  - rewrite destroyMap_visit. by apply fold_visit_stageFresh.
  - by destruct (updateLinkText_frame link tagNames s0) as [h ->].
  - by destruct (updateLinkGraphics_frame link s0) as [h ->].
Qed.

(** Adding an edge and removing it again leaks nothing. In a reachable
    state, for an edge that is not a self-loop, is tracked neither under its
    key nor under its reverse key, and is classified with a non-empty label
    without line feed that has no legend row yet: after [addLink] and
    [removeLink] the authoritative map, the stage and the legend state
    (legend map, palette cursor, legend offset) are what they were, in
    colour mode or not. *)
Theorem addLink_removeLink_fresh_label resolve link useTagColors tagLegend s label :
  reachable s →
  Node.id (source link) ≠ Node.id (target link) →
  resolve (Node.id (source link)) (Node.id (target link)) = Some label →
  label ≠ EmptyString → LF ∉ list_ascii_of_string label →
  tagColors s !! label = None →
  Map_get (keyOf link) (linksMap s) = None →
  Map_get (reverseKeyOf link) (linksMap s) = None →
  let s' := removeLink link (addLink resolve link useTagColors tagLegend s) in
  linksMap s' = linksMap s
  ∧ children s' = children s
  ∧ legendState s' = legendState s.
Proof.
  intros Hs Hne Hres Hlabel HLF Hfresh Hkey Hrev.
  apply (addLink_removeLink_fresh_label_at resolve link useTagColors tagLegend s label);
    try done.
  - by apply reachable_cursorInPalette.
  - by apply reachable_stageFresh.
Qed.

Lemma addLink_removeLink_fresh_label_witness :
  let s := addLink resolveParent (edge "A" "B") true true initial in
  let s' := removeLink (edge "B" "C") (addLink resolveFile (edge "B" "C") true true s) in
  linksMap s' = linksMap s
  ∧ children s' = children s
  ∧ legendState s' = legendState s.
Proof.
  apply (addLink_removeLink_fresh_label resolveFile (edge "B" "C") true true
           (addLink resolveParent (edge "A" "B") true true initial) "file").
  - exists [OpAddLink resolveParent (edge "A" "B") true true]. reflexivity.
  - discriminate.
  - reflexivity.
  - discriminate.
  - apply (bool_decide_unpack _). by vm_compute.
  - by vm_compute.
  - reflexivity.
  - reflexivity.
Defined.
